(** * The CSV scan coordinator ([CSVGlobalState]) of
    src/execution/operator/csv_scanner/table_function/global_csv_state.cpp

    A shallow embedding of the coordinator: its constructor and thread-mode
    decision, [MaxThreads], [Next], [GetProgress], [DecrementThread],
    [FillRejectsTable] and the two error-kind tables, followed by the
    properties proved about them.

    The coordinator is a record; what it shares with the rest of the program
    (the file contexts behind its shared pointers, the rejects table, the
    client data) is a second record, the world, and every operation takes and
    returns both. An operation that can throw returns a [result]. The classes
    the file uses and does not define are modelled as far as the coordinator
    reads them; what it calls and does not define is a parameter
    ([Externals]).

    The doubles of [GetProgress] are Rocq's primitive floats; what is proved
    of them rests on the standard library's specification of the float
    operations ([SpecFloat], [FloatAxioms]).

    The last part of the definitions is the C API for scalar functions of
    src/main/capi/scalar_function-c.cpp. *)

From Stdlib Require Import ZArith QArith Qpower Floats Lia Lqa Bool.
From stdpp Require Import base option list strings.

Local Open Scope Z_scope.

(** ** Machine integers and exceptions *)

(** [idx_t] is an unsigned 64-bit integer: a [Z] in [0, 2^64), arithmetic
    wrapping around. *)
Abbreviation idx_t := Z (only parsing).

Definition IDX_MODULUS : Z := 2 ^ 64.

Definition wrap (z : Z) : idx_t := z mod IDX_MODULUS.

Definition is_idx (z : Z) : Prop := 0 <= z < IDX_MODULUS.

(** The only exception the coordinator raises is DuckDB's
    [InternalException]: thrown by [CSVErrorTypeToEnum], by a failed
    [D_ASSERT] and by an out-of-range index into a [duckdb::vector]. *)
Inductive exception : Type :=
| InternalException (msg : string).

Inductive result (A : Type) : Type :=
| Ok (a : A)
| Throw (e : exception).

Arguments Ok {A} a.
Arguments Throw {A} e.

Definition bind {A B : Type} (r : result A) (k : A -> result B) : result B :=
  match r with
  | Ok a => k a
  | Throw e => Throw e
  end.

Declare Scope result_scope.
Delimit Scope result_scope with result.
Notation "'do' x <- r ; k" := (bind r (fun x => k))
  (at level 10, x name, r at level 100, k at level 200) : result_scope.
Notation "'do' ' ( x , y ) <- r ; k" := (bind r (fun '(x, y) => k))
  (at level 10, x name, y name, r at level 100, k at level 200)
  : result_scope.
Local Open Scope result_scope.

(** [v[i]] on a [duckdb::vector]: the element, or the bounds check's
    exception. *)
Definition vector_at {A : Type} (v : list A) (i : idx_t) : result A :=
  match v !! Z.to_nat i with
  | Some a => if 0 <=? i then Ok a
              else Throw (InternalException "Attempted to access index out of range within vector")
  | None => Throw (InternalException "Attempted to access index out of range within vector")
  end.

(** ** Error kinds *)

(** Modelled from the spec: the declaration of [CSVErrorType] (csv_error.hpp)
    is not part of the sources; the spec lists the six kinds the two tables
    below name and says there are "other kinds not eligible for persistence",
    which [OTHER_CSV_ERROR] stands for, one per enumerator code. *)
Inductive CSVErrorType : Type :=
| CAST_ERROR
| TOO_MANY_COLUMNS
| TOO_FEW_COLUMNS
| MAXIMUM_LINE_SIZE
| UNTERMINATED_QUOTES
| INVALID_UNICODE
| OTHER_CSV_ERROR (code : N).

Definition IsCSVErrorAcceptedReject (type : CSVErrorType) : bool :=
  match type with
  | CAST_ERROR
  | TOO_MANY_COLUMNS
  | TOO_FEW_COLUMNS
  | MAXIMUM_LINE_SIZE
  | UNTERMINATED_QUOTES
  | INVALID_UNICODE => true
  | _ => false
  end.

Definition CSVErrorTypeToEnum (type : CSVErrorType) : result string :=
  match type with
  | CAST_ERROR => Ok "CAST"%string
  | TOO_FEW_COLUMNS => Ok "MISSING COLUMNS"%string
  | TOO_MANY_COLUMNS => Ok "TOO MANY COLUMNS"%string
  | MAXIMUM_LINE_SIZE => Ok "LINE SIZE OVER MAXIMUM"%string
  | UNTERMINATED_QUOTES => Ok "UNQUOTED VALUE"%string
  | INVALID_UNICODE => Ok "INVALID UNICODE"%string
  | _ => Throw (InternalException "CSV Error is not valid to be stored in a Rejects Table")
  end.

(** ** Data model *)

(** [LinesPerBoundary]: where in the scan an error was found. *)
Record LinesPerBoundary : Type := {
  lpb_boundary_idx : idx_t;
  lines_in_batch : idx_t
}.

(** [CSVError], the fields [FillRejectsTable] reads. *)
Record CSVError : Type := {
  type : CSVErrorType;
  column_idx : idx_t;
  byte_position : idx_t;
  csv_row : string;
  error_message : string;
  error_info : LinesPerBoundary
}.

(** [CSVErrorHandler]: the errors grouped by line, in the order the loop of
    [FillRejectsTable] meets them, and the longest line seen. *)
Record CSVErrorHandler : Type := {
  errors : list (idx_t * list CSVError);
  max_line_length : idx_t;
  lines_per_batch_map : list (idx_t * idx_t)
}.

Definition GetMaxLineLength (h : CSVErrorHandler) : idx_t := max_line_length h.

(** [CSVBufferManager]: the path it reads, the size of the file and the
    [actual_size] of each of its buffers. *)
Record CSVBufferManager : Type := {
  bm_file_path : string;
  bm_file_size : idx_t;
  bm_actual_sizes : list idx_t
}.

Definition GetFilePath (bm : CSVBufferManager) : string := bm_file_path bm.

(** [GetBuffer(i)->actual_size]; a buffer manager of an opened file always has
    buffer 0. *)
Definition GetBuffer_actual_size (bm : CSVBufferManager) (i : idx_t) : idx_t :=
  nth (Z.to_nat i) (bm_actual_sizes bm) 0.

(** [CSVFileScan], the per-file context. *)
Record CSVFileScan : Type := {
  file_path : string;
  file_idx : idx_t;
  file_size : idx_t;
  bytes_read : idx_t;
  error_handler : CSVErrorHandler;
  buffer_manager : CSVBufferManager
}.

(** Modelled from the spec: the class [CSVIterator] (scanner_boundary.hpp) is
    not part of the sources. The spec's Boundary Cursor has a file index, a
    buffer index, a begin offset and a position within the buffer; "a
    degenerate/empty cursor value denotes single-threaded mode and is never
    advanced". The five-argument constructor stores its arguments, the default
    one is the degenerate cursor. *)
Record CSVIterator : Type := {
  is_set : bool;
  it_file_idx : idx_t;
  it_buffer_idx : idx_t;
  it_buffer_pos : idx_t;
  it_boundary_idx : idx_t;
  it_buffer_size : idx_t
}.

Definition CSVIterator_default : CSVIterator :=
  {| is_set := false; it_file_idx := 0; it_buffer_idx := 0; it_buffer_pos := 0;
     it_boundary_idx := 0; it_buffer_size := 0 |}.

Definition CSVIterator_new (file_idx buffer_idx buffer_pos boundary_idx buffer_size : idx_t)
  : CSVIterator :=
  {| is_set := true; it_file_idx := file_idx; it_buffer_idx := buffer_idx;
     it_buffer_pos := buffer_pos; it_boundary_idx := boundary_idx;
     it_buffer_size := buffer_size |}.

Definition GetFileIdx (it : CSVIterator) : idx_t := it_file_idx it.
Definition GetBufferIdx (it : CSVIterator) : idx_t := it_buffer_idx it.

(** A shared pointer to a [CSVFileScan] is an address in the heap of file
    contexts: the coordinator's [file_scans] and the scanners handed out by
    [Next] hold addresses, and the workers update the contexts through them. *)
Abbreviation file_ptr := nat (only parsing).

(** [CSVBufferUsage]: the buffer a scan unit keeps alive. *)
Record CSVBufferUsage : Type := {
  usage_file : string;
  buffer_idx : idx_t
}.

Definition CSVBufferUsage_new (bm : CSVBufferManager) (i : idx_t) : CSVBufferUsage :=
  {| usage_file := bm_file_path bm; buffer_idx := i |}.

(** [StringValueScanner], the scan unit [Next] returns: the file context it is
    bound to, the boundary it must process and the buffer it keeps alive. *)
Record StringValueScanner : Type := {
  scanner_id : idx_t;
  scanner_file : file_ptr;
  scanner_boundary : CSVIterator;
  buffer_tracker : option CSVBufferUsage
}.

(** [CSVReaderOptions], the options the coordinator reads. *)
Record CSVReaderOptions : Type := {
  parallel : bool;
  store_rejects : bool;
  rejects_limit : idx_t;
  rejects_table_name : string
}.

(** [ReadCSVData], the bind data. *)
Record ReadCSVData : Type := {
  files : list string;
  options : CSVReaderOptions;
  return_names : list string
}.

(** A row of the errors table, in the order of its nine columns; the column
    name is [None] where the code appends the NULL [Value()]. *)
Record RejectRow : Type := {
  row_scan_id : idx_t;
  row_file_id : idx_t;
  row_line : idx_t;
  row_byte_position : idx_t;
  row_column_idx : idx_t;
  row_column_name : option string;
  row_error_type : string;
  row_csv_row : string;
  row_error_message : string
}.

(** [CSVRejectsTable]: the count of rejects stored so far and the rows of its
    errors table, oldest first. The appender's [BeginRow] ... [EndRow] add one
    row; [Close] flushes and leaves the rows as they are. *)
Record CSVRejectsTable : Type := {
  count : idx_t;
  errors_table : list RejectRow
}.

(** The part of [ClientData] the coordinator touches. *)
Record ClientData : Type := {
  debug_set_max_line_length : bool;
  debug_max_line_length : idx_t
}.

(** What the calls of [DecrementThread] did, for the statements about
    finalization: the thread that entered the finalization block. *)
Inductive event : Type :=
| Finalized (thread : nat).

(** Everything outside the coordinator object: the heap of file contexts, the
    rejects table [CSVRejectsTable::GetOrCreate] returns, the client data, the
    active query, the files that can be opened, and the log of finalizations. *)
Record World : Type := {
  heap : list CSVFileScan;
  rejects : CSVRejectsTable;
  client_data : ClientData;
  active_query : idx_t;
  file_system : string -> CSVBufferManager;
  log : list event
}.

(** The coordinator. *)
Record CSVGlobalState : Type := {
  system_threads : idx_t;
  bind_data : ReadCSVData;
  file_scans : list file_ptr;
  single_threaded : bool;
  last_file_idx : idx_t;
  scanner_idx : idx_t;
  running_threads : idx_t;
  current_boundary : CSVIterator;
  current_buffer_in_use : CSVBufferUsage;
  finished : bool
}.

(** What the sources use and do not define. *)
Record Externals : Type := {
  (** [CSVIterator::BYTES_PER_THREAD] *)
  BYTES_PER_THREAD : idx_t;
  (** [CSVIterator::Next]: whether there is a next boundary in the file, and
      the cursor after the call *)
  CSVIterator_Next : CSVBufferManager -> CSVIterator -> bool * CSVIterator;
  (** [CSVErrorHandler::GetLine] *)
  GetLine : CSVErrorHandler -> LinesPerBoundary -> idx_t;
  (** whether [D_ASSERT] is compiled in (a debug build) *)
  assertions_enabled : bool
}.

(** ** Field updates *)

Definition set_file_scans (v : list file_ptr) (g : CSVGlobalState) : CSVGlobalState :=
  {| system_threads := system_threads g; bind_data := bind_data g; file_scans := v;
     single_threaded := single_threaded g; last_file_idx := last_file_idx g;
     scanner_idx := scanner_idx g; running_threads := running_threads g;
     current_boundary := current_boundary g;
     current_buffer_in_use := current_buffer_in_use g; finished := finished g |}.

Definition set_last_file_idx (v : idx_t) (g : CSVGlobalState) : CSVGlobalState :=
  {| system_threads := system_threads g; bind_data := bind_data g;
     file_scans := file_scans g; single_threaded := single_threaded g;
     last_file_idx := v; scanner_idx := scanner_idx g;
     running_threads := running_threads g; current_boundary := current_boundary g;
     current_buffer_in_use := current_buffer_in_use g; finished := finished g |}.

Definition set_scanner_idx (v : idx_t) (g : CSVGlobalState) : CSVGlobalState :=
  {| system_threads := system_threads g; bind_data := bind_data g;
     file_scans := file_scans g; single_threaded := single_threaded g;
     last_file_idx := last_file_idx g; scanner_idx := v;
     running_threads := running_threads g; current_boundary := current_boundary g;
     current_buffer_in_use := current_buffer_in_use g; finished := finished g |}.

Definition set_running_threads (v : idx_t) (g : CSVGlobalState) : CSVGlobalState :=
  {| system_threads := system_threads g; bind_data := bind_data g;
     file_scans := file_scans g; single_threaded := single_threaded g;
     last_file_idx := last_file_idx g; scanner_idx := scanner_idx g;
     running_threads := v; current_boundary := current_boundary g;
     current_buffer_in_use := current_buffer_in_use g; finished := finished g |}.

Definition set_current_boundary (v : CSVIterator) (g : CSVGlobalState) : CSVGlobalState :=
  {| system_threads := system_threads g; bind_data := bind_data g;
     file_scans := file_scans g; single_threaded := single_threaded g;
     last_file_idx := last_file_idx g; scanner_idx := scanner_idx g;
     running_threads := running_threads g; current_boundary := v;
     current_buffer_in_use := current_buffer_in_use g; finished := finished g |}.

Definition set_current_buffer_in_use (v : CSVBufferUsage) (g : CSVGlobalState)
  : CSVGlobalState :=
  {| system_threads := system_threads g; bind_data := bind_data g;
     file_scans := file_scans g; single_threaded := single_threaded g;
     last_file_idx := last_file_idx g; scanner_idx := scanner_idx g;
     running_threads := running_threads g; current_boundary := current_boundary g;
     current_buffer_in_use := v; finished := finished g |}.

Definition set_finished (v : bool) (g : CSVGlobalState) : CSVGlobalState :=
  {| system_threads := system_threads g; bind_data := bind_data g;
     file_scans := file_scans g; single_threaded := single_threaded g;
     last_file_idx := last_file_idx g; scanner_idx := scanner_idx g;
     running_threads := running_threads g; current_boundary := current_boundary g;
     current_buffer_in_use := current_buffer_in_use g; finished := v |}.

Definition set_heap (v : list CSVFileScan) (w : World) : World :=
  {| heap := v; rejects := rejects w; client_data := client_data w;
     active_query := active_query w; file_system := file_system w; log := log w |}.

Definition set_rejects (v : CSVRejectsTable) (w : World) : World :=
  {| heap := heap w; rejects := v; client_data := client_data w;
     active_query := active_query w; file_system := file_system w; log := log w |}.

Definition set_client_data (v : ClientData) (w : World) : World :=
  {| heap := heap w; rejects := rejects w; client_data := v;
     active_query := active_query w; file_system := file_system w; log := log w |}.

Definition set_log (v : list event) (w : World) : World :=
  {| heap := heap w; rejects := rejects w; client_data := client_data w;
     active_query := active_query w; file_system := file_system w; log := v |}.

Definition set_bytes_read (v : idx_t) (f : CSVFileScan) : CSVFileScan :=
  {| file_path := file_path f; file_idx := file_idx f; file_size := file_size f;
     bytes_read := v; error_handler := error_handler f;
     buffer_manager := buffer_manager f |}.

Definition set_error_handler (v : CSVErrorHandler) (f : CSVFileScan) : CSVFileScan :=
  {| file_path := file_path f; file_idx := file_idx f; file_size := file_size f;
     bytes_read := bytes_read f; error_handler := v;
     buffer_manager := buffer_manager f |}.

(** ** Shared pointers and checked vector access *)

(** [make_shared<CSVFileScan>(...)]: a fresh address holding the context. *)
Definition make_shared (f : CSVFileScan) (w : World) : file_ptr * World :=
  (length (heap w), set_heap (heap w ++ [f]) w).

(** [*p]. Every address the coordinator holds was returned by [make_shared];
    an address outside the heap has no counterpart in the program. *)
Definition deref (w : World) (p : file_ptr) : result CSVFileScan :=
  match heap w !! p with
  | Some f => Ok f
  | None => Throw (InternalException "Attempted to dereference shared_ptr that is NULL")
  end.

(** [v.back()] on a [duckdb::vector]. *)
Definition back {A : Type} (v : list A) : result A :=
  match last v with
  | Some a => Ok a
  | None => Throw (InternalException "'back' called on an empty vector!")
  end.

(** [v.size()] *)
Definition vector_size {A : Type} (v : list A) : idx_t := Z.of_nat (length v).

(** Modelled from the spec: the constructors of [CSVFileScan]
    (csv_file_scanner.cpp) are not part of the sources. A FileScanContext has
    "file path, ordinal index among input files, total byte size, bytes read so
    far, an ErrorCollector, a reference to the buffer source"; a new one has
    read nothing and collected nothing. The constructor taking the buffer
    manager of the sniffer is the one of the first file. *)
Definition empty_error_handler : CSVErrorHandler :=
  {| errors := []; max_line_length := 0; lines_per_batch_map := [] |}.

Definition CSVFileScan_of_buffer_manager (bm : CSVBufferManager) : CSVFileScan :=
  {| file_path := bm_file_path bm; file_idx := 0; file_size := bm_file_size bm;
     bytes_read := 0; error_handler := empty_error_handler; buffer_manager := bm |}.

Definition CSVFileScan_open (w : World) (path : string) (idx : idx_t) : CSVFileScan :=
  {| file_path := path; file_idx := idx; file_size := bm_file_size (file_system w path);
     bytes_read := 0; error_handler := empty_error_handler;
     buffer_manager := file_system w path |}.

(** ** Double arithmetic *)

(** [GetProgress] computes in [double]. Its body is written over the operations
    it uses; the program runs it in IEEE 754 binary64 ([binary64], on Rocq's
    primitive floats). *)
Record DoubleArith : Type := {
  dbl : Type;
  of_idx : idx_t -> dbl;
  dadd : dbl -> dbl -> dbl;
  dmul : dbl -> dbl -> dbl;
  ddiv : dbl -> dbl -> dbl;
  dltb : dbl -> dbl -> bool
}.

(** [std::min(a, b)]: [b] when [b < a], else [a]. *)
Definition std_min (D : DoubleArith) (a b : dbl D) : dbl D :=
  if dltb D b a then b else a.

(** [double(n)] for an unsigned integer: the nearest binary64 value. *)
Definition double_of_idx (n : idx_t) : float :=
  SF2Prim (binary_normalize 53 1024 n 0 false).

Definition binary64 : DoubleArith :=
  {| dbl := float; of_idx := double_of_idx; dadd := PrimFloat.add;
     dmul := PrimFloat.mul; ddiv := PrimFloat.div; dltb := PrimFloat.ltb |}.

(** ** The coordinator's operations *)

Section Coordinator.

Variable ext : Externals.

(** [CSVGlobalState::MaxThreads] *)
Definition MaxThreads (g : CSVGlobalState) (w : World) : result idx_t :=
  if single_threaded g then Ok (system_threads g)
  else
    do p <- back (file_scans g);
    do f <- deref w p;
    let total_threads := wrap (file_size f / BYTES_PER_THREAD ext + 1) in
    if total_threads <? system_threads g then Ok total_threads
    else Ok (system_threads g).

(** The constructor [CSVGlobalState::CSVGlobalState]. [buffer_manager_p] is
    [None] for a null pointer. *)
Definition CSVGlobalState_new (w : World) (buffer_manager_p : option CSVBufferManager)
    (options_p : CSVReaderOptions) (system_threads_p : idx_t) (files_p : list string)
    (bind_data_p : ReadCSVData) : result (CSVGlobalState * World) :=
  do first_file <- vector_at files_p 0;
  let scan :=
    match buffer_manager_p with
    | Some bm =>
        if String.eqb (GetFilePath bm) first_file
        then CSVFileScan_of_buffer_manager bm
        else CSVFileScan_open w first_file 0
    | None => CSVFileScan_open w first_file 0
    end in
  let '(p, w1) := make_shared scan w in
  let many_csv_files :=
    (1 <? vector_size files_p) && (wrap (system_threads_p * 2) <? vector_size files_p) in
  let g0 :=
    {| system_threads := system_threads_p; bind_data := bind_data_p;
       file_scans := [p];
       single_threaded := many_csv_files || negb (parallel options_p);
       last_file_idx := 0; scanner_idx := 0; running_threads := 0;
       current_boundary := CSVIterator_default;
       current_buffer_in_use := CSVBufferUsage_new (buffer_manager scan) 0;
       finished := false |} in
  do max_threads <- MaxThreads g0 w1;
  let g1 := set_running_threads max_threads g0 in
  do p_back <- back (file_scans g1);
  do f_back <- deref w1 p_back;
  let g2 :=
    if single_threaded g1 then set_current_boundary CSVIterator_default g1
    else
      let buffer_size := GetBuffer_actual_size (buffer_manager f_back) 0 in
      set_current_boundary (CSVIterator_new 0 0 0 0 buffer_size) g1 in
  Ok (set_current_buffer_in_use (CSVBufferUsage_new (buffer_manager f_back) 0) g2, w1).

(** [CSVGlobalState::GetProgress], over the arithmetic [D]. *)
Definition GetProgress (D : DoubleArith) (g : CSVGlobalState) (w : World)
  : result (dbl D) :=
  let total_files := vector_size (files (bind_data g)) in
  do p <- back (file_scans g);
  do f <- deref w p;
  let progress :=
    if file_size f =? 0 then of_idx D 1
    else std_min D (of_idx D 1) (ddiv D (of_idx D (bytes_read f)) (of_idx D (file_size f))) in
  let percentage := ddiv D (of_idx D (GetFileIdx (current_boundary g))) (of_idx D total_files) in
  let percentage :=
    dadd D percentage (dmul D (ddiv D (of_idx D 1) (of_idx D total_files)) progress) in
  Ok (dmul D percentage (of_idx D 100)).

(** [CSVGlobalState::Next]: the scan unit or [None] for the null pointer, and
    the coordinator and the world after the call. *)
Definition Next (g : CSVGlobalState) (w : World)
  : result (option StringValueScanner * CSVGlobalState * World) :=
  if single_threaded g then
    let cur_idx := last_file_idx g in
    let g := set_last_file_idx (wrap (last_file_idx g + 1)) g in
    if vector_size (files (bind_data g)) <=? cur_idx then Ok (None, g, w)
    else
      do '(current_file, w) <-
        (if cur_idx =? 0 then
           do p <- back (file_scans g); Ok (p, w)
         else
           do path <- vector_at (files (bind_data g)) cur_idx;
           Ok (make_shared (CSVFileScan_open w path cur_idx) w));
      let csv_scanner :=
        {| scanner_id := scanner_idx g; scanner_file := current_file;
           scanner_boundary := current_boundary g; buffer_tracker := None |} in
      Ok (Some csv_scanner, set_scanner_idx (wrap (scanner_idx g + 1)) g, w)
  else if finished g then Ok (None, g, w)
  else
    do p <- back (file_scans g);
    do current_file <- deref w p;
    let g :=
      if negb (buffer_idx (current_buffer_in_use g) =? GetBufferIdx (current_boundary g))
      then set_current_buffer_in_use
             (CSVBufferUsage_new (buffer_manager current_file)
                (GetBufferIdx (current_boundary g))) g
      else g in
    let csv_scanner :=
      {| scanner_id := scanner_idx g; scanner_file := p;
         scanner_boundary := current_boundary g;
         buffer_tracker := Some (current_buffer_in_use g) |} in
    let g := set_scanner_idx (wrap (scanner_idx g + 1)) g in
    let '(has_next, boundary) :=
      CSVIterator_Next ext (buffer_manager current_file) (current_boundary g) in
    let g := set_current_boundary boundary g in
    if negb has_next then
      let current_file_idx := wrap (file_idx current_file + 1) in
      if current_file_idx <? vector_size (files (bind_data g)) then
        do path <- vector_at (files (bind_data g)) current_file_idx;
        let '(p', w) := make_shared (CSVFileScan_open w path current_file_idx) w in
        let g := set_file_scans (file_scans g ++ [p']) g in
        do f' <- deref w p';
        let buffer_size := GetBuffer_actual_size (buffer_manager f') 0 in
        let g := set_current_boundary (CSVIterator_new current_file_idx 0 0 0 buffer_size) g in
        let g := set_current_buffer_in_use (CSVBufferUsage_new (buffer_manager f') 0) g in
        Ok (Some csv_scanner, g, w)
      else Ok (Some csv_scanner, set_finished true g, w)
    else Ok (Some csv_scanner, g, w).

(** [D_ASSERT(cond)]: an exception in a debug build, nothing otherwise. *)
Definition D_ASSERT (cond : bool) : result unit :=
  if assertions_enabled ext && negb cond
  then Throw (InternalException "Assertion triggered")
  else Ok tt.

(** The string between double quotes, as the code builds the column name. *)
Definition quoted (name : string) : string :=
  String (Ascii.ascii_of_nat 34) (name +:+ String (Ascii.ascii_of_nat 34) EmptyString).

(** Column 6 of a reject row: the [switch] on the error's type. *)
Definition column_name_of (g : CSVGlobalState) (error : CSVError)
  : result (option string) :=
  let col_idx := column_idx error in
  match type error with
  | TOO_MANY_COLUMNS => Ok None
  | TOO_FEW_COLUMNS =>
      do _ <- D_ASSERT (wrap (col_idx + 1) <? vector_size (return_names (bind_data g)));
      do name <- vector_at (return_names (bind_data g)) (wrap (col_idx + 1));
      Ok (Some (quoted name))
  | _ =>
      do name <- vector_at (return_names (bind_data g)) col_idx;
      Ok (Some (quoted name))
  end.

(** [BeginRow] ... [EndRow] for one error: the nine appended values. *)
Definition reject_row (g : CSVGlobalState) (scan_id file_id : idx_t) (file : CSVFileScan)
    (error : CSVError) : result RejectRow :=
  let row_line := GetLine ext (error_handler file) (error_info error) in
  let col_idx := column_idx error in
  do name <- column_name_of g error;
  do label <- CSVErrorTypeToEnum (type error);
  Ok {| row_scan_id := scan_id; row_file_id := file_id; row_line := row_line;
        row_byte_position := byte_position error;
        row_column_idx := wrap (col_idx + 1); row_column_name := name;
        row_error_type := label; row_csv_row := csv_row error;
        row_error_message := error_message error |}.

(** The innermost loop of [FillRejectsTable], over the errors of one line.
    [continue] goes on with the rest, [break] leaves this loop only. The
    [errors_appender.Close()] after each eligible error flushes the appender
    and changes no row. *)
Fixpoint fill_error_vector (g : CSVGlobalState) (scan_id file_id limit : idx_t)
    (file : CSVFileScan) (error_vector : list CSVError) (rej : CSVRejectsTable)
  : result CSVRejectsTable :=
  match error_vector with
  | [] => Ok rej
  | error :: rest =>
      if negb (IsCSVErrorAcceptedReject (type error)) then
        fill_error_vector g scan_id file_id limit file rest rej
      else if (limit =? 0) || (count rej <? limit) then
        if negb (limit =? 0) && (limit <=? count rej) then Ok rej
        else
          let rej := {| count := wrap (count rej + 1); errors_table := errors_table rej |} in
          do row <- reject_row g scan_id file_id file error;
          let rej := {| count := count rej; errors_table := errors_table rej ++ [row] |} in
          fill_error_vector g scan_id file_id limit file rest rej
      else fill_error_vector g scan_id file_id limit file rest rej
  end.

(** The loop over the lines of one file's error collector. *)
Fixpoint fill_errors (g : CSVGlobalState) (scan_id file_id limit : idx_t)
    (file : CSVFileScan) (errs : list (idx_t * list CSVError)) (rej : CSVRejectsTable)
  : result CSVRejectsTable :=
  match errs with
  | [] => Ok rej
  | error_vector :: rest =>
      do rej <- fill_error_vector g scan_id file_id limit file (snd error_vector) rej;
      fill_errors g scan_id file_id limit file rest rej
  end.

(** The loop over [file_scans]. *)
Fixpoint fill_file_scans (g : CSVGlobalState) (w : World) (scan_id file_id limit : idx_t)
    (scans : list file_ptr) (rej : CSVRejectsTable) : result CSVRejectsTable :=
  match scans with
  | [] => Ok rej
  | p :: rest =>
      do file <- deref w p;
      do rej <- fill_errors g scan_id file_id limit file (errors (error_handler file)) rej;
      fill_file_scans g w scan_id file_id limit rest rej
  end.

(** [CSVGlobalState::FillRejectsTable] *)
Definition FillRejectsTable (g : CSVGlobalState) (w : World) : result World :=
  let options := options (bind_data g) in
  if store_rejects options then
    let limit := rejects_limit options in
    let scan_id := active_query w in
    let file_id := 0 in
    do rej <- fill_file_scans g w scan_id file_id limit (file_scans g) (rejects w);
    Ok (set_rejects rej w)
  else Ok w.

(** [CSVGlobalState::DecrementThread], called by [thread]. Entering the block
    under [running_threads == 0] is noted in the world's log; the rest is the
    code. *)
Definition DecrementThread (thread : nat) (g : CSVGlobalState) (w : World)
  : result (CSVGlobalState * World) :=
  do _ <- D_ASSERT (0 <? running_threads g);
  let g := set_running_threads (wrap (running_threads g - 1)) g in
  if running_threads g =? 0 then
    let w := set_log (log w ++ [Finalized thread]) w in
    do w <- FillRejectsTable g w;
    if debug_set_max_line_length (client_data w) then
      do p0 <- vector_at (file_scans g) 0;
      do f0 <- deref w p0;
      Ok (g, set_client_data
               {| debug_set_max_line_length := debug_set_max_line_length (client_data w);
                  debug_max_line_length := GetMaxLineLength (error_handler f0) |} w)
    else Ok (g, w)
  else Ok (g, w).

(** ** The coordinator among its workers *)

(** Modelled from the spec: the scanners are not part of the sources. A
    worker calls [Next], scans the unit it got, and retires with
    [DecrementThread]; while scanning it adds to the [bytes_read] counter of
    the unit's file ("monotonically increasing, updated by the parsing
    collaborator") and records errors in that file's collector. *)
Inductive action : Type :=
| CallNext
| CallDecrementThread (thread : nat)
| ReadBytes (p : file_ptr) (n : idx_t)
| RecordError (p : file_ptr) (line : idx_t) (error : CSVError).

Definition read_bytes (n : idx_t) (f : CSVFileScan) : CSVFileScan :=
  if (0 <=? n) && (bytes_read f + n <? IDX_MODULUS)
  then set_bytes_read (bytes_read f + n) f
  else f.

Definition record_error (line : idx_t) (error : CSVError) (f : CSVFileScan) : CSVFileScan :=
  let h := error_handler f in
  set_error_handler
    {| errors := errors h ++ [(line, [error])]; max_line_length := max_line_length h;
       lines_per_batch_map := lines_per_batch_map h |} f.

Definition step (a : action) (s : CSVGlobalState * World)
  : result (CSVGlobalState * World) :=
  let '(g, w) := s in
  match a with
  | CallNext => do '(ret, w') <- Next g w; Ok (snd ret, w')
  | CallDecrementThread thread => DecrementThread thread g w
  | ReadBytes p n => Ok (g, set_heap (alter (read_bytes n) p (heap w)) w)
  | RecordError p line error => Ok (g, set_heap (alter (record_error line error) p (heap w)) w)
  end.

Fixpoint run (trace : list action) (s : CSVGlobalState * World)
  : result (CSVGlobalState * World) :=
  match trace with
  | [] => Ok s
  | a :: rest => do s' <- step a s; run rest s'
  end.

End Coordinator.

(** The sizes a buffer source reports are unsigned; so is the size of a
    vector, which [reachable] asks of the file list. *)
Definition world_typed (w : World) : Prop :=
  forall path, 0 <= bm_file_size (file_system w path).

(** The states the coordinator can be in: constructed the way the scan
    function constructs it (the file list is the bind data's), then used by
    its workers. *)
Definition reachable (ext : Externals) (s : CSVGlobalState * World) : Prop :=
  exists w0 buffer_manager_p options_p system_threads_p bind_data_p s0 trace,
    world_typed w0
    /\ (forall bm, buffer_manager_p = Some bm -> 0 <= bm_file_size bm)
    /\ vector_size (files bind_data_p) < IDX_MODULUS
    /\ CSVGlobalState_new ext w0 buffer_manager_p options_p system_threads_p
         (files bind_data_p) bind_data_p = Ok s0
    /\ run ext trace s0 = Ok s.

(** [n] successive calls of [Next]: what each returned, and the state after
    the last. *)
Fixpoint Next_calls (ext : Externals) (n : nat) (g : CSVGlobalState) (w : World)
  : result (list (option StringValueScanner) * (CSVGlobalState * World)) :=
  match n with
  | O => Ok ([], (g, w))
  | S n' =>
      do '(ret, w1) <- Next ext g w;
      do '(rets, s) <- Next_calls ext n' (snd ret) w1;
      Ok (fst ret :: rets, s)
  end.

(** The calls of [DecrementThread] in a trace. *)
Definition decrementer (a : action) : option nat :=
  match a with
  | CallDecrementThread thread => Some thread
  | _ => None
  end.

Definition decrementers (trace : list action) : list nat := omap decrementer trace.

(** The errors [FillRejectsTable] walks over, in the order of its three
    loops, each with the file context it belongs to. *)
Definition errors_of_file (f : CSVFileScan) : list (CSVFileScan * CSVError) :=
  map (pair f) (concat (map snd (errors (error_handler f)))).

Definition collected_errors (w : World) (scans : list file_ptr)
  : list (CSVFileScan * CSVError) :=
  concat (map errors_of_file (omap (fun p => heap w !! p) scans)).

Definition eligible (es : list (CSVFileScan * CSVError)) : list (CSVFileScan * CSVError) :=
  filter (fun fe => IsCSVErrorAcceptedReject (type (snd fe)) = true) es.

Definition eligible_errors (w : World) (scans : list file_ptr)
  : list (CSVFileScan * CSVError) :=
  eligible (collected_errors w scans).

(** The column name [FillRejectsTable] can look up for an error: the index it
    reads in [return_names] is within the vector. *)
Definition name_in_range (g : CSVGlobalState) (error : CSVError) : Prop :=
  match type error with
  | TOO_MANY_COLUMNS => True
  | TOO_FEW_COLUMNS =>
      0 <= wrap (column_idx error + 1) < vector_size (return_names (bind_data g))
  | _ => 0 <= column_idx error < vector_size (return_names (bind_data g))
  end.

(** The spec's rounding of the thread count, [ceil(a / b)]. *)
Definition spec_ceil_div (a b : Z) : Z := (a + b - 1) / b.

(** ** A concrete environment *)

(** Modelled from the spec: [CSVIterator::Next] (scanner_boundary.cpp) is not
    part of the sources. "Advance the cursor by one quantum. If advancing would
    run past the current file's content", the file is done; the degenerate
    cursor "is never advanced"; "an empty file's boundary still yields exactly
    one scan unit". The statements below hold for every [CSVIterator_Next];
    this one serves the concrete runs. *)
Definition quantum_Next (quantum : idx_t) (bm : CSVBufferManager) (it : CSVIterator)
  : bool * CSVIterator :=
  if negb (is_set it) then (false, it)
  else
    let it := {| is_set := true; it_file_idx := it_file_idx it;
                 it_buffer_idx := it_buffer_idx it; it_buffer_pos := it_buffer_pos it;
                 it_boundary_idx := wrap (it_boundary_idx it + 1);
                 it_buffer_size := it_buffer_size it |} in
    if it_buffer_pos it + quantum <? GetBuffer_actual_size bm (it_buffer_idx it) then
      (true, {| is_set := true; it_file_idx := it_file_idx it;
                it_buffer_idx := it_buffer_idx it;
                it_buffer_pos := it_buffer_pos it + quantum;
                it_boundary_idx := it_boundary_idx it;
                it_buffer_size := it_buffer_size it |})
    else if it_buffer_idx it + 1 <? vector_size (bm_actual_sizes bm) then
      (true, {| is_set := true; it_file_idx := it_file_idx it;
                it_buffer_idx := it_buffer_idx it + 1; it_buffer_pos := 0;
                it_boundary_idx := it_boundary_idx it;
                it_buffer_size := it_buffer_size it |})
    else (false, it).

Definition demo_ext : Externals :=
  {| BYTES_PER_THREAD := 8000000;
     CSVIterator_Next := quantum_Next 8000000;
     GetLine := fun _ info => wrap (1 + lines_in_batch info);
     assertions_enabled := true |}.

(** Files of 10 bytes in one buffer, but for "empty.csv". *)
Definition demo_file_system (path : string) : CSVBufferManager :=
  if String.eqb path "empty.csv"
  then {| bm_file_path := path; bm_file_size := 0; bm_actual_sizes := [0] |}
  else {| bm_file_path := path; bm_file_size := 10; bm_actual_sizes := [10] |}.

Definition demo_world : World :=
  {| heap := [];
     rejects := {| count := 0; errors_table := [] |};
     client_data := {| debug_set_max_line_length := true; debug_max_line_length := 0 |};
     active_query := 7;
     file_system := demo_file_system;
     log := [] |}.

Definition demo_options (parallel_p : bool) (limit : idx_t) : CSVReaderOptions :=
  {| parallel := parallel_p; store_rejects := true; rejects_limit := limit;
     rejects_table_name := "reject_errors" |}.

Definition demo_bind_data (files_p : list string) (parallel_p : bool) (limit : idx_t)
  : ReadCSVData :=
  {| files := files_p; options := demo_options parallel_p limit;
     return_names := ["a"; "b"; "c"]%string |}.

(** The coordinator as the scan function builds it over [files_p]. *)
Definition demo_new (files_p : list string) (parallel_p : bool) (limit threads : idx_t)
  : result (CSVGlobalState * World) :=
  CSVGlobalState_new demo_ext demo_world None (demo_options parallel_p limit) threads
    files_p (demo_bind_data files_p parallel_p limit).

Definition demo_error (t : CSVErrorType) (col : idx_t) : CSVError :=
  {| type := t; column_idx := col; byte_position := 42; csv_row := "1;2";
     error_message := "bad row";
     error_info := {| lpb_boundary_idx := 0; lines_in_batch := 3 |} |}.

(** One file whose collector holds five errors, four of them eligible. *)
Definition demo_trace_errors : list action :=
  [RecordError 0 1 (demo_error CAST_ERROR 0);
   RecordError 0 1 (demo_error TOO_FEW_COLUMNS 1);
   RecordError 0 2 (demo_error TOO_MANY_COLUMNS 7);
   RecordError 0 3 (demo_error (OTHER_CSV_ERROR 5) 0);
   RecordError 0 4 (demo_error INVALID_UNICODE 2)].

Definition demo_with_errors (limit : idx_t) : result (CSVGlobalState * World) :=
  bind (demo_new ["a.csv"%string] true limit 4) (run demo_ext demo_trace_errors).

(** The state of [demo_with_errors] once a scanner has met a line of 4096
    bytes in the file: the scanners keep [max_line_length] of the file's
    collector up to date, and they are not part of the sources. *)
Definition demo_long_line (limit : idx_t) : result (CSVGlobalState * World) :=
  do '(g, w) <- demo_with_errors limit;
  Ok (g, set_heap
           (alter (fun f =>
                     set_error_handler
                       {| errors := errors (error_handler f); max_line_length := 4096;
                          lines_per_batch_map := lines_per_batch_map (error_handler f) |} f)
              0%nat (heap w)) w).

(** Two statements with a limit of 1 that share the rejects table: the first
    scans "a.csv", stores its one error and finalizes; the second is
    constructed in the world the first left, scans "b.csv" and finds two
    errors. *)
Definition demo_second_statement : result (CSVGlobalState * World) :=
  do '(_, w1) <-
    bind (demo_new ["a.csv"%string] true 1 1)
      (run demo_ext [CallNext; RecordError 0 1 (demo_error CAST_ERROR 0);
                     CallDecrementThread 0]);
  do s2 <-
    CSVGlobalState_new demo_ext w1 None (demo_options true 1) 1 ["b.csv"%string]
      (demo_bind_data ["b.csv"%string] true 1);
  run demo_ext [CallNext; RecordError 1 1 (demo_error CAST_ERROR 0);
                RecordError 1 2 (demo_error INVALID_UNICODE 1)] s2.

(** Two files scanned in range-parallel mode; the options with
    [store_rejects] off. *)
Definition demo_two_files : list string := ["a.csv"; "b.csv"]%string.

Definition demo_options_no_rejects : CSVReaderOptions :=
  {| parallel := true; store_rejects := false; rejects_limit := 0;
     rejects_table_name := "reject_errors" |}.

Definition demo_new_no_rejects : result (CSVGlobalState * World) :=
  CSVGlobalState_new demo_ext demo_world None demo_options_no_rejects 4 ["a.csv"%string]
    {| files := ["a.csv"%string]; options := demo_options_no_rejects;
       return_names := ["a"; "b"; "c"]%string |}.

(** A world whose client data hold a line length from an earlier scan. *)
Definition demo_world_debug : World :=
  set_client_data
    {| debug_set_max_line_length := true; debug_max_line_length := 99 |} demo_world.

(** ** Vocabulary of the statements *)

(** The six kinds [IsCSVErrorAcceptedReject] lists. *)
Definition accepted_kinds : list CSVErrorType :=
  [CAST_ERROR; TOO_MANY_COLUMNS; TOO_FEW_COLUMNS; MAXIMUM_LINE_SIZE;
   UNTERMINATED_QUOTES; INVALID_UNICODE].

(** What a call of [Next] does in range-parallel mode: nothing once
    [finished]; else it hands out the current boundary and either stays in the
    file (or finishes), or opens the next file. *)
Inductive Next_parallel_outcome (ext : Externals) (g : CSVGlobalState) (w : World)
    (g' : CSVGlobalState) (w' : World) : Prop :=
| next_finished :
    finished g = true -> g' = g -> w' = w -> Next_parallel_outcome ext g w g' w'
| next_same_file p f has_next boundary :
    back (file_scans g) = Ok p -> deref w p = Ok f ->
    CSVIterator_Next ext (buffer_manager f) (current_boundary g) = (has_next, boundary) ->
    file_scans g' = file_scans g -> current_boundary g' = boundary -> w' = w ->
    Next_parallel_outcome ext g w g' w'
| next_new_file p f boundary path :
    back (file_scans g) = Ok p -> deref w p = Ok f ->
    CSVIterator_Next ext (buffer_manager f) (current_boundary g) = (false, boundary) ->
    wrap (file_idx f + 1) < vector_size (files (bind_data g)) ->
    vector_at (files (bind_data g)) (wrap (file_idx f + 1)) = Ok path ->
    file_scans g' = file_scans g ++ [length (heap w)] ->
    w' = set_heap (heap w ++ [CSVFileScan_open w path (wrap (file_idx f + 1))]) w ->
    current_boundary g' =
      CSVIterator_new (wrap (file_idx f + 1)) 0 0 0
        (GetBuffer_actual_size (file_system w path) 0) ->
    Next_parallel_outcome ext g w g' w'.

(** The state of a single-threaded coordinator that has handed out the first
    [i] files. *)
Definition dispatched (bd : ReadCSVData) (p0 : file_ptr) (i : nat)
    (g : CSVGlobalState) (w : World) : Prop :=
  single_threaded g = true
  /\ bind_data g = bd
  /\ last_file_idx g = Z.of_nat i
  /\ file_scans g = [p0]
  /\ current_boundary g = CSVIterator_default
  /\ exists f0, heap w !! p0 = Some f0 /\ file_idx f0 = 0
                /\ files bd !! 0%nat = Some (file_path f0).

(** The two terms of [GetProgress]: the progress within a file, and the
    percentage for a cursor in file [idx] of [total]. *)
Definition file_progress (D : DoubleArith) (f : CSVFileScan) : dbl D :=
  if file_size f =? 0 then of_idx D 1
  else std_min D (of_idx D 1) (ddiv D (of_idx D (bytes_read f)) (of_idx D (file_size f))).

Definition percentage_of (D : DoubleArith) (idx total : idx_t) (progress : dbl D) : dbl D :=
  dmul D
    (dadd D (ddiv D (of_idx D idx) (of_idx D total))
       (dmul D (ddiv D (of_idx D 1) (of_idx D total)) progress))
    (of_idx D 100).

(** [CSVIterator::Next] moves the cursor within its file. *)
Definition keeps_file (ext : Externals) : Prop :=
  forall bm it, GetFileIdx (snd (CSVIterator_Next ext bm it)) = GetFileIdx it.

(** What holds of the file at the back of [file_scans] in every reachable
    state: it is the file the cursor is in, one of the files of the list, and
    its counters are unsigned. *)
Definition progress_inv (s : CSVGlobalState * World) : Prop :=
  world_typed (snd s)
  /\ vector_size (files (bind_data (fst s))) < IDX_MODULUS
  /\ exists p f,
       back (file_scans (fst s)) = Ok p /\ deref (snd s) p = Ok f
       /\ 0 <= bytes_read f /\ 0 <= file_size f
       /\ GetFileIdx (current_boundary (fst s)) = file_idx f
       /\ 0 <= file_idx f < vector_size (files (bind_data (fst s))).

(** The three loops of [FillRejectsTable] as one loop over the errors in the
    order they are met, without the [break] that is never reached. *)
Fixpoint fill_flat (ext : Externals) (g : CSVGlobalState) (scan_id file_id limit : idx_t)
    (es : list (CSVFileScan * CSVError)) (rej : CSVRejectsTable)
  : result CSVRejectsTable :=
  match es with
  | [] => Ok rej
  | fe :: rest =>
      if negb (IsCSVErrorAcceptedReject (type (snd fe))) then
        fill_flat ext g scan_id file_id limit rest rej
      else if (limit =? 0) || (count rej <? limit) then
        do row <- reject_row ext g scan_id file_id (fst fe) (snd fe);
        fill_flat ext g scan_id file_id limit rest
          {| count := wrap (count rej + 1); errors_table := errors_table rej ++ [row] |}
      else fill_flat ext g scan_id file_id limit rest rej
  end.

(** Column 6 of the row of an error, as the claim words it. *)
Definition column_name_matches (g : CSVGlobalState) (e : CSVError) (row : RejectRow)
  : Prop :=
  match type e with
  | TOO_MANY_COLUMNS => row_column_name row = None
  | TOO_FEW_COLUMNS =>
      exists name,
        return_names (bind_data g) !! Z.to_nat (wrap (column_idx e + 1)) = Some name
        /\ row_column_name row = Some (quoted name)
  | _ =>
      exists name,
        return_names (bind_data g) !! Z.to_nat (column_idx e) = Some name
        /\ row_column_name row = Some (quoted name)
  end.

(** The scan units among what successive calls of [Next] returned. *)
Definition units (rets : list (option StringValueScanner)) : list StringValueScanner :=
  omap id rets.

(** [file_scans] holds the contexts of the first files of the list, in the
    order of the list: entry [i] is the context of file [i]. *)
Definition scans_in_order (s : CSVGlobalState * World) : Prop :=
  forall i p, file_scans (fst s) !! i = Some p ->
    exists f, heap (snd s) !! p = Some f /\ file_idx f = Z.of_nat i
              /\ files (bind_data (fst s)) !! i = Some (file_path f).

(** What holds of [file_scans], [finished] and the buffer in use in every
    reachable state. *)
Definition registry_inv (s : CSVGlobalState * World) : Prop :=
  vector_size (files (bind_data (fst s))) < IDX_MODULUS
  /\ file_scans (fst s) <> []
  /\ scans_in_order s
  /\ (single_threaded (fst s) = true -> finished (fst s) = false)
  /\ (finished (fst s) = true ->
      length (file_scans (fst s)) = length (files (bind_data (fst s))))
  /\ (single_threaded (fst s) = false ->
      exists p f, back (file_scans (fst s)) = Ok p /\ deref (snd s) p = Ok f
                  /\ usage_file (current_buffer_in_use (fst s))
                     = bm_file_path (buffer_manager f)).

(** The steps that are calls of the coordinator's own methods. *)
Definition coordinator_call (a : action) : bool :=
  match a with
  | CallNext | CallDecrementThread _ => true
  | ReadBytes _ _ | RecordError _ _ _ => false
  end.

(** What a file context keeps for as long as it exists: the file it is the
    context of; its counter of bytes read and its collector only grow. *)
Definition context_kept (f f' : CSVFileScan) : Prop :=
  file_path f' = file_path f /\ file_idx f' = file_idx f
  /\ file_size f' = file_size f /\ buffer_manager f' = buffer_manager f
  /\ bytes_read f <= bytes_read f'
  /\ errors (error_handler f) `prefix_of` errors (error_handler f').

(** ** The values of doubles *)

(** The statements about [GetProgress] are about the [double] it returns;
    their proofs compare doubles through the rationals they stand for. A
    positive normal double is [m * 2^e] with a mantissa [m] of 53 binary
    digits; an operation returns the rounding to nearest, ties to even, of the
    exact result, which is what [SpecFloat] computes through [shr] and
    [round_nearest_even]. *)
Definition pow2 (e : Z) : Q := Qpower 2 e.

(** [m] is the integer part of [y], and [l] says where [y] lies between [m]
    and [m + 1]: on [m], below, on or above the middle. *)
Definition located (y : Q) (m : Z) (l : location) : Prop :=
  match l with
  | loc_Exact => (y == inject_Z m)%Q
  | loc_Inexact Lt => (inject_Z m < y /\ y < inject_Z m + (1 # 2))%Q
  | loc_Inexact Eq => (y == inject_Z m + (1 # 2))%Q
  | loc_Inexact Gt => (inject_Z m + (1 # 2) < y /\ y < inject_Z m + 1)%Q
  end.

(** [r] is [x > 0] rounded to 53 binary digits, to nearest, ties to even. *)
Definition rounds53 (x r : Q) : Prop :=
  exists m e l,
    located (x * pow2 (- e)) m l /\ 2 ^ 52 <= m < 2 ^ 53
    /\ (r == inject_Z (round_nearest_even m l) * pow2 e)%Q.

Definition rnd (x r : Q) : Prop :=
  ((x == 0)%Q /\ (r == 0)%Q) \/ ((0 < x)%Q /\ rounds53 x r).

(** The state of [shr] after [n] of its steps on the mantissa [m0] of [y0]. *)
Definition shifted (m0 : Z) (y0 : Q) (n : Z) (mrs : shr_record) : Prop :=
  shr_m mrs = m0 / 2 ^ n
  /\ located (y0 * pow2 (- n)) (shr_m mrs) (loc_of_shr_record mrs).

(** [q] is the value of [s], which is +0 or a positive normal number. *)
Definition sfval (s : spec_float) (q : Q) : Prop :=
  (s = S754_zero false /\ (q == 0)%Q)
  \/ exists m e, s = S754_finite false m e /\ Z.pos (digits2_pos m) = 53
                 /\ -1074 <= e <= 971 /\ (q == inject_Z (Z.pos m) * pow2 e)%Q.

Definition fval (f : float) (q : Q) : Prop := sfval (Prim2SF f) q.

(** [q] is 0 or lies between [2^-k] and [2^k]. *)
Definition small (k : Z) (q : Q) : Prop :=
  (q == 0)%Q \/ (pow2 (- k) <= q /\ q <= pow2 k)%Q.

(** [x] and [x'] are doubles of such values, the one of [x] not above the one
    of [x']. *)
Definition fle (k : Z) (x x' : float) : Prop :=
  exists q q', fval x q /\ fval x' q' /\ small k q /\ small k q' /\ (q <= q')%Q.

(** The real number a double stands for (0 for an infinity and for what is
    not a number). *)
Definition double_value (f : float) : Q :=
  match Prim2SF f with
  | S754_finite s m e =>
      if s then (- (inject_Z (Z.pos m) * pow2 e))%Q else (inject_Z (Z.pos m) * pow2 e)%Q
  | _ => 0%Q
  end.

(** One rounding changes a value by a factor between [1 - 2^-53] and its
    inverse; [near k x q]: [q] is [x] up to [k] such factors. *)
Definition half_ulp : Q := 1 # 9007199254740992.

Fixpoint roundings (k : nat) : Q :=
  match k with
  | O => 1
  | S k' => (1 - half_ulp) * roundings k'
  end.

Definition near (k : nat) (x q : Q) : Prop :=
  (0 <= x)%Q /\ (0 <= q)%Q /\ (x * roundings k <= q)%Q /\ (q * roundings k <= x)%Q.

(** [f] is a double of value 0 or between [2^-k] and [2^k], and [x] up to
    [e] roundings. *)
Definition tracks (k : Z) (e : nat) (x : Q) (f : float) : Prop :=
  exists q, fval f q /\ small k q /\ near e x q.

(** The sizes the file system reports and the sizes and counters of the file
    contexts are [idx_t] values. *)
Definition sizes_typed (w : World) : Prop :=
  (forall path, bm_file_size (file_system w path) < IDX_MODULUS)
  /\ Forall (fun f => file_size f < IDX_MODULUS /\ bytes_read f < IDX_MODULUS) (heap w).

(** The value [GetProgress] computes for the last of [n] files fully read is
    100: the check for one [n], and for [k] successive ones from [n] on. *)
Definition full_progress (n : idx_t) : bool :=
  PrimFloat.eqb (percentage_of binary64 (n - 1) n (double_of_idx 1)) (double_of_idx 100).

Fixpoint all_full_progress (k : nat) (n : idx_t) : bool :=
  match k with
  | O => true
  | S k' => full_progress n && all_full_progress k' (n + 1)
  end.

(** * The C API for scalar functions
    (src/main/capi/scalar_function-c.cpp)

    The functions a C caller configures and registers a scalar function with.
    A handle ([duckdb_scalar_function], [duckdb_logical_type],
    [duckdb_connection]) is a pointer that may be null: [None], or the object
    it points to, and each function returns the object after the call. The
    classes the file uses and does not define ([LogicalType],
    [ScalarFunction], the catalog) are modelled as far as the file reads and
    writes them. [duckdb_destroy_scalar_function] and the destructor of
    [CScalarFunctionInfo] are left out: whether the delete callback runs
    depends on the references the catalog keeps to the function's info. *)

(** [LogicalTypeId]: the file names [INVALID]; [TYPE_ID] stands for every
    other enumerator. *)
Inductive LogicalTypeId : Type :=
| INVALID
| TYPE_ID (code : N).

(** [LogicalType]: its [id()] and whatever else it holds. *)
Record LogicalType : Type := {
  LogicalType_id : LogicalTypeId;
  type_info : N
}.

(** [LogicalType::INVALID] *)
Definition LogicalType_INVALID : LogicalType :=
  {| LogicalType_id := INVALID; type_info := 0 |}.

(** [CScalarFunctionInfo]: the callback that computes the function, the
    caller's own data and the callback that frees it; each an address, all
    null in a new object. *)
Record CScalarFunctionInfo : Type := {
  function : option nat;
  extra_info : option nat;
  delete_callback : option nat
}.

(** [ScalarFunction], the fields the file reads and writes. *)
Record ScalarFunction : Type := {
  name : string;
  arguments : list LogicalType;
  return_type : LogicalType;
  function_info : CScalarFunctionInfo
}.

Inductive duckdb_state : Type :=
| DuckDBSuccess
| DuckDBError.

(** [duckdb_create_scalar_function]: the handle [new] returns is not null. *)
Definition duckdb_create_scalar_function : option ScalarFunction :=
  Some {| name := EmptyString; arguments := []; return_type := LogicalType_INVALID;
          function_info :=
            {| function := None; extra_info := None; delete_callback := None |} |}.

(** [duckdb_scalar_function_set_name] *)
Definition duckdb_scalar_function_set_name (function_p : option ScalarFunction)
    (name_p : option string) : option ScalarFunction :=
  match function_p, name_p with
  | Some scalar_function, Some n =>
      Some {| name := n; arguments := arguments scalar_function;
              return_type := return_type scalar_function;
              function_info := function_info scalar_function |}
  | _, _ => function_p
  end.

(** [duckdb_scalar_function_add_parameter] *)
Definition duckdb_scalar_function_add_parameter (function_p : option ScalarFunction)
    (type_p : option LogicalType) : option ScalarFunction :=
  match function_p, type_p with
  | Some scalar_function, Some logical_type =>
      Some {| name := name scalar_function;
              arguments := arguments scalar_function ++ [logical_type];
              return_type := return_type scalar_function;
              function_info := function_info scalar_function |}
  | _, _ => function_p
  end.

(** [duckdb_scalar_function_set_return_type] *)
Definition duckdb_scalar_function_set_return_type (function_p : option ScalarFunction)
    (type_p : option LogicalType) : option ScalarFunction :=
  match function_p, type_p with
  | Some scalar_function, Some logical_type =>
      Some {| name := name scalar_function; arguments := arguments scalar_function;
              return_type := logical_type;
              function_info := function_info scalar_function |}
  | _, _ => function_p
  end.

(** [duckdb_scalar_function_set_extra_info] *)
Definition duckdb_scalar_function_set_extra_info (function_p : option ScalarFunction)
    (extra_info_p : option nat) (destroy : option nat) : option ScalarFunction :=
  match function_p, extra_info_p with
  | Some scalar_function, Some e =>
      let info := function_info scalar_function in
      Some {| name := name scalar_function; arguments := arguments scalar_function;
              return_type := return_type scalar_function;
              function_info :=
                {| function := function info; extra_info := Some e;
                   delete_callback := destroy |} |}
  | _, _ => function_p
  end.

(** [duckdb_scalar_function_set_function] *)
Definition duckdb_scalar_function_set_function (function_p : option ScalarFunction)
    (execute_func : option nat) : option ScalarFunction :=
  match function_p, execute_func with
  | Some scalar_function, Some fn =>
      let info := function_info scalar_function in
      Some {| name := name scalar_function; arguments := arguments scalar_function;
              return_type := return_type scalar_function;
              function_info :=
                {| function := Some fn; extra_info := extra_info info;
                   delete_callback := delete_callback info |} |}
  | _, _ => function_p
  end.

(** [name.empty()] *)
Definition string_empty (s : string) : bool :=
  match s with
  | EmptyString => true
  | String _ _ => false
  end.

Definition is_INVALID (i : LogicalTypeId) : bool :=
  match i with
  | INVALID => true
  | TYPE_ID _ => false
  end.

Section Registration.

(** The system catalog behind a connection, and its [CreateFunction] run in
    a transaction: the catalog with the function in it, or the exception it
    throws. *)
Variable Catalog : Type.
Variable CreateFunction : Catalog -> ScalarFunction -> result Catalog.

(** [duckdb_register_scalar_function]: the state returned and the catalog
    behind the connection after the call. *)
Definition duckdb_register_scalar_function (connection : option Catalog)
    (function_p : option ScalarFunction) : result (duckdb_state * option Catalog) :=
  match connection, function_p with
  | Some con, Some scalar_function =>
      let info := function_info scalar_function in
      if string_empty (name scalar_function)
         || negb (bool_decide (is_Some (function info)))
         || is_INVALID (LogicalType_id (return_type scalar_function))
      then Ok (DuckDBError, connection)
      else
        do catalog <- CreateFunction con scalar_function;
        Ok (DuckDBSuccess, Some catalog)
  | _, _ => Ok (DuckDBError, connection)
  end.

End Registration.

Arguments duckdb_register_scalar_function {Catalog} CreateFunction connection function_p.

(** ** A caller configuring a function *)

(** The calls a caller configures a function with, each with the arguments it
    passes, null or not. *)
Inductive config_call : Type :=
| SetName (name_p : option string)
| AddParameter (type_p : option LogicalType)
| SetReturnType (type_p : option LogicalType)
| SetExtraInfo (extra_info_p : option nat) (destroy : option nat)
| SetFunction (execute_func : option nat).

Definition configure_call (function_p : option ScalarFunction) (c : config_call)
  : option ScalarFunction :=
  match c with
  | SetName name_p => duckdb_scalar_function_set_name function_p name_p
  | AddParameter type_p => duckdb_scalar_function_add_parameter function_p type_p
  | SetReturnType type_p => duckdb_scalar_function_set_return_type function_p type_p
  | SetExtraInfo extra_info_p destroy =>
      duckdb_scalar_function_set_extra_info function_p extra_info_p destroy
  | SetFunction execute_func => duckdb_scalar_function_set_function function_p execute_func
  end.

Definition configure (calls : list config_call) (function_p : option ScalarFunction)
  : option ScalarFunction :=
  foldl configure_call function_p calls.

(** What the calls passed that was not null, in the order of the calls. *)
Definition names_set (calls : list config_call) : list string :=
  omap (fun c => match c with SetName name_p => name_p | _ => None end) calls.

Definition parameters_added (calls : list config_call) : list LogicalType :=
  omap (fun c => match c with AddParameter type_p => type_p | _ => None end) calls.

Definition return_types_set (calls : list config_call) : list LogicalType :=
  omap (fun c => match c with SetReturnType type_p => type_p | _ => None end) calls.

Definition functions_set (calls : list config_call) : list nat :=
  omap (fun c => match c with SetFunction execute_func => execute_func | _ => None end) calls.

Definition extra_infos_set (calls : list config_call) : list (nat * option nat) :=
  omap (fun c => match c with
                 | SetExtraInfo (Some e) destroy => Some (e, destroy)
                 | _ => None
                 end) calls.

(** Whether the calls leave a function that can be registered: the last name
    set is not empty, a callback was set, and the last return type set is not
    the invalid type. *)
Definition registrable (calls : list config_call) : bool :=
  match last (names_set calls) with
  | Some n => negb (string_empty n)
  | None => false
  end
  && bool_decide (is_Some (last (functions_set calls)))
  && match last (return_types_set calls) with
     | Some t => negb (is_INVALID (LogicalType_id t))
     | None => false
     end.

(** * Properties *)

(** ** Basic facts *)

Lemma wrap_idx z : is_idx z -> wrap z = z.
Proof. unfold is_idx, wrap. intros H. apply Z.mod_small. exact H. Qed.

Lemma wrap_is_idx z : is_idx (wrap z).
Proof. unfold is_idx, wrap, IDX_MODULUS. apply Z.mod_pos_bound. reflexivity. Qed.

Lemma bind_Ok {A B : Type} (r : result A) (k : A -> result B) (b : B) :
  bind r k = Ok b -> exists a, r = Ok a /\ k a = Ok b.
Proof. destruct r as [a|e]; simpl; [eauto | discriminate]. Qed.

Lemma vector_at_Ok {A : Type} (v : list A) (i : idx_t) (a : A) :
  vector_at v i = Ok a <-> 0 <= i /\ v !! Z.to_nat i = Some a.
Proof.
  unfold vector_at. destruct (v !! Z.to_nat i) as [x|] eqn:E.
  - destruct (Z.leb_spec 0 i); split.
    + intros [= ->]. auto.
    + intros [_ [= ->]]. reflexivity.
    + discriminate.
    + lia.
  - split; [discriminate | intros [_ ?]; discriminate].
Qed.

Lemma vector_at_in_range {A : Type} (v : list A) (i : idx_t) :
  0 <= i < vector_size v -> exists a, vector_at v i = Ok a.
Proof.
  unfold vector_size. intros H.
  destruct (lookup_lt_is_Some_2 v (Z.to_nat i)) as [a Ha]; [lia|].
  exists a. apply vector_at_Ok. split; [lia | exact Ha].
Qed.

Lemma deref_Ok w p f : deref w p = Ok f <-> heap w !! p = Some f.
Proof.
  unfold deref. destruct (heap w !! p); split; intros H; inversion H; reflexivity.
Qed.

Lemma back_Ok {A : Type} (v : list A) (a : A) : back v = Ok a <-> last v = Some a.
Proof.
  unfold back. destruct (last v); split; intros H; inversion H; reflexivity.
Qed.

Lemma back_snoc {A : Type} (v : list A) (a : A) : back (v ++ [a]) = Ok a.
Proof. apply back_Ok. apply last_snoc. Qed.

Lemma deref_make_shared f w :
  deref (snd (make_shared f w)) (fst (make_shared f w)) = Ok f.
Proof.
  apply deref_Ok. simpl. rewrite lookup_app_r by lia.
  replace (length (heap w) - length (heap w))%nat with O by lia. reflexivity.
Qed.

(** ** C8: the two error-kind tables *)

(** C8. [IsCSVErrorAcceptedReject] is true exactly on the six kinds cast
    failure, too many columns, too few columns, maximum line size,
    unterminated quotes and invalid unicode; [CSVErrorTypeToEnum] maps each of
    them to its label and raises an internal exception on every other kind. *)
Theorem accepted_kinds_and_labels :
  (forall t, IsCSVErrorAcceptedReject t = true <-> In t accepted_kinds)
  /\ (forall t, ~ In t accepted_kinds ->
        IsCSVErrorAcceptedReject t = false
        /\ CSVErrorTypeToEnum t =
             Throw (InternalException
                      "CSV Error is not valid to be stored in a Rejects Table"))
  /\ CSVErrorTypeToEnum CAST_ERROR = Ok "CAST"%string
  /\ CSVErrorTypeToEnum TOO_MANY_COLUMNS = Ok "TOO MANY COLUMNS"%string
  /\ CSVErrorTypeToEnum TOO_FEW_COLUMNS = Ok "MISSING COLUMNS"%string
  /\ CSVErrorTypeToEnum MAXIMUM_LINE_SIZE = Ok "LINE SIZE OVER MAXIMUM"%string
  /\ CSVErrorTypeToEnum UNTERMINATED_QUOTES = Ok "UNQUOTED VALUE"%string
  /\ CSVErrorTypeToEnum INVALID_UNICODE = Ok "INVALID UNICODE"%string.
Proof.
  split; [|split].
  - intros t. unfold accepted_kinds. destruct t; simpl; split; intros H;
      try reflexivity; try discriminate; try tauto.
    repeat (destruct H as [H|H]; [discriminate|]). destruct H.
  - intros t Hnot. destruct t; simpl in Hnot; try (exfalso; tauto).
    split; reflexivity.
  - repeat split.
Qed.


(** ** The constructor *)

Section Construction.

Variable ext : Externals.

(** The mode the constructor selects, and the thread count it stores. *)
Lemma CSVGlobalState_new_inv w bm opts t fs bd g w' :
  CSVGlobalState_new ext w bm opts t fs bd = Ok (g, w') ->
  exists first scan,
    fs !! 0%nat = Some first
    /\ w' = set_heap (heap w ++ [scan]) w
    /\ file_idx scan = 0 /\ file_path scan = first /\ bytes_read scan = 0
    /\ (file_size scan = bm_file_size (buffer_manager scan))
    /\ (buffer_manager scan = file_system w first \/ bm = Some (buffer_manager scan))
    /\ let st := (1 <? vector_size fs) && (wrap (t * 2) <? vector_size fs)
                 || negb (parallel opts) in
       let total := wrap (file_size scan / BYTES_PER_THREAD ext + 1) in
       g = {| system_threads := t; bind_data := bd;
              file_scans := [length (heap w)];
              single_threaded := st;
              last_file_idx := 0; scanner_idx := 0;
              running_threads := if st then t else if total <? t then total else t;
              current_boundary :=
                if st then CSVIterator_default
                else CSVIterator_new 0 0 0 0 (GetBuffer_actual_size (buffer_manager scan) 0);
              current_buffer_in_use := CSVBufferUsage_new (buffer_manager scan) 0;
              finished := false |}.
Proof.
  unfold CSVGlobalState_new. intros H.
  apply bind_Ok in H as (first & Hfirst & H).
  apply vector_at_Ok in Hfirst as [_ Hfirst]. simpl in Hfirst.
  exists first.
  match type of H with context [make_shared ?s w] => exists s; set (scan := s) in * end.
  assert (Hscan : file_idx scan = 0 /\ file_path scan = first /\ bytes_read scan = 0
                  /\ file_size scan = bm_file_size (buffer_manager scan)
                  /\ (buffer_manager scan = file_system w first \/ bm = Some (buffer_manager scan))).
  { subst scan. destruct bm as [b|]; [destruct (String.eqb (GetFilePath b) first) eqn:E|]; simpl; auto 10.
    apply String.eqb_eq in E. unfold GetFilePath in E. auto 10. }
  destruct Hscan as (? & ? & ? & ? & ?).
  unfold make_shared in H. cbv zeta in H.
  unfold MaxThreads in H. simpl in H.
  assert (Hd : deref (set_heap (heap w ++ [scan]) w) (length (heap w)) = Ok scan)
    by exact (deref_make_shared scan w).
  destruct ((1 <? vector_size fs) && (wrap (t * 2) <? vector_size fs) || negb (parallel opts)) eqn:Est;
    simpl in H; rewrite ?Hd in H; simpl in H.
  - injection H as <- <-. repeat split; auto.
  - destruct (wrap (file_size scan / BYTES_PER_THREAD ext + 1) <? t) eqn:El; simpl in H;
      rewrite ?Hd in H; simpl in H; injection H as <- <-; repeat split; auto.
Qed.

Lemma CSVGlobalState_new_returns w bm opts t fs bd :
  fs <> [] -> exists g w', CSVGlobalState_new ext w bm opts t fs bd = Ok (g, w').
Proof.
  intros Hne. destruct fs as [|first rest]; [congruence|].
  unfold CSVGlobalState_new.
  replace (vector_at (first :: rest) 0) with (Ok first) by reflexivity.
  unfold bind at 1.
  match goal with |- context [make_shared ?s w] => set (scan := s) end.
  unfold make_shared. cbv zeta. unfold MaxThreads. simpl.
  assert (Hd : deref (set_heap (heap w ++ [scan]) w) (length (heap w)) = Ok scan)
    by exact (deref_make_shared scan w).
  destruct ((1 <? vector_size (first :: rest)) && (wrap (t * 2) <? vector_size (first :: rest)) || negb (parallel opts)) eqn:Est;
    simpl; rewrite ?Hd; simpl.
  - eauto.
  - destruct (wrap (file_size scan / BYTES_PER_THREAD ext + 1) <? t); simpl; rewrite ?Hd; simpl; eauto.
Qed.

(** C2. The constructor of a non-empty file list selects single-threaded mode
    exactly when the list has more than one file and more files than twice the
    thread budget (the product taken in [idx_t]), or [parallel] is off;
    otherwise range-parallel mode. For a thread budget from 1 to 2^63 - 1 that
    is the condition of the claim: more files than twice the budget, or
    [parallel] off. A budget of 0 is none a scan can run with (the first
    [DecrementThread] then fails its [D_ASSERT]), and from 2^63 on the product
    [system_threads * 2] wraps around. *)
Theorem thread_mode_selection w bm opts t fs bd :
  fs <> [] ->
  exists g w', CSVGlobalState_new ext w bm opts t fs bd = Ok (g, w')
    /\ (single_threaded g = true <->
          (1 < vector_size fs /\ wrap (t * 2) < vector_size fs) \/ parallel opts = false)
    /\ (1 <= t < 2 ^ 63 ->
          (single_threaded g = true <->
             2 * t < vector_size fs \/ parallel opts = false)).
Proof.
  intros Hne. destruct (CSVGlobalState_new_returns w bm opts t fs bd Hne) as (g & w' & H).
  exists g, w'. split; [exact H|].
  apply CSVGlobalState_new_inv in H as (first & scan & _ & _ & _ & _ & _ & _ & _ & ->).
  cbv zeta. simpl.
  assert (Hgen : (1 <? vector_size fs) && (wrap (t * 2) <? vector_size fs)
                 || negb (parallel opts) = true <->
                 (1 < vector_size fs /\ wrap (t * 2) < vector_size fs)
                 \/ parallel opts = false).
  { rewrite orb_true_iff, andb_true_iff, negb_true_iff, !Z.ltb_lt. reflexivity. }
  split; [exact Hgen|].
  intros Ht. rewrite Hgen.
  assert (Hw : wrap (t * 2) = t * 2).
  { apply wrap_idx. unfold is_idx, IDX_MODULUS. lia. }
  rewrite Hw. intuition lia.
Qed.

(** C3, as the code has it. [MaxThreads] returns the thread budget in
    single-threaded mode; in range-parallel mode it returns the smaller of the
    budget and [file_size / BYTES_PER_THREAD + 1], the quotient rounded down,
    for the file at the back of [file_scans] (the first file when the
    constructor calls it). *)
Theorem MaxThreads_value g w p f :
  back (file_scans g) = Ok p ->
  deref w p = Ok f ->
  0 < BYTES_PER_THREAD ext ->
  0 <= file_size f ->
  file_size f / BYTES_PER_THREAD ext + 1 < IDX_MODULUS ->
  MaxThreads ext g w =
    Ok (if single_threaded g then system_threads g
        else Z.min (system_threads g) (file_size f / BYTES_PER_THREAD ext + 1)).
Proof.
  intros Hp Hf Hbpt Hsize Hfit. unfold MaxThreads.
  destruct (single_threaded g); [reflexivity|].
  rewrite Hp. simpl. rewrite Hf. simpl.
  assert (Hq : 0 <= file_size f / BYTES_PER_THREAD ext) by (apply Z.div_pos; lia).
  rewrite wrap_idx by (unfold is_idx; lia).
  destruct (Z.ltb_spec (file_size f / BYTES_PER_THREAD ext + 1) (system_threads g)).
  - rewrite Z.min_r by lia. reflexivity.
  - rewrite Z.min_l by lia. reflexivity.
Qed.

(** The constructor stores what [MaxThreads] returns in [running_threads]. *)
Lemma running_threads_is_MaxThreads w bm opts t fs bd g w' :
  CSVGlobalState_new ext w bm opts t fs bd = Ok (g, w') ->
  MaxThreads ext g w' = Ok (running_threads g).
Proof.
  intros H.
  apply CSVGlobalState_new_inv in H as (first & scan & _ & -> & _ & _ & _ & _ & _ & ->).
  cbv zeta. unfold MaxThreads. simpl.
  destruct ((1 <? vector_size fs) && (wrap (t * 2) <? vector_size fs)
            || negb (parallel opts)); [reflexivity|].
  pose proof (deref_make_shared scan w) as Hd. simpl in Hd. rewrite Hd. simpl.
  destruct (wrap (file_size scan / BYTES_PER_THREAD ext + 1) <? t); reflexivity.
Qed.

End Construction.

Lemma thread_mode_selection_witness :
  ["a.csv"; "b.csv"; "c.csv"]%string <> []
  /\ 1 <= 1 < 2 ^ 63
  /\ exists g w',
       CSVGlobalState_new demo_ext demo_world None (demo_options true 0) 1
         ["a.csv"; "b.csv"; "c.csv"]%string
         (demo_bind_data ["a.csv"; "b.csv"; "c.csv"]%string true 0) = Ok (g, w')
       /\ 2 * 1 < vector_size ["a.csv"; "b.csv"; "c.csv"]%string
       /\ parallel (demo_options true 0) = true
       /\ single_threaded g = true.
Proof.
  split; [discriminate|]. split; [lia|].
  destruct (thread_mode_selection demo_ext demo_world None (demo_options true 0) 1
              ["a.csv"; "b.csv"; "c.csv"]%string
              (demo_bind_data ["a.csv"; "b.csv"; "c.csv"]%string true 0))
    as (g & w' & Hnew & _ & Hclaim).
  - discriminate.
  - exists g, w'. split; [exact Hnew|]. split; [reflexivity|]. split; [reflexivity|].
    apply (Hclaim ltac:(lia)). left. reflexivity.
Defined.

(** C3 fails as stated: a first file of 10 bytes, 8000000 bytes per thread
    and a budget of 4. The code returns 10 / 8000000 + 1 = 1; rounding the
    quotient up gives 2. *)
Lemma MaxThreads_counterexample :
  exists g w f,
    demo_new ["a.csv"%string] true 0 4 = Ok (g, w)
    /\ single_threaded g = false
    /\ heap w !! 0%nat = Some f
    /\ MaxThreads demo_ext g w = Ok 1
    /\ Z.min (system_threads g)
         (spec_ceil_div (file_size f) (BYTES_PER_THREAD demo_ext) + 1) = 2.
Proof.
  eexists _, _, _. split; [vm_compute; reflexivity|].
  repeat split.
Qed.

Lemma MaxThreads_value_witness :
  exists g w p f,
    demo_new ["a.csv"%string] true 0 4 = Ok (g, w)
    /\ back (file_scans g) = Ok p /\ deref w p = Ok f
    /\ MaxThreads demo_ext g w =
         Ok (if single_threaded g then system_threads g
             else Z.min (system_threads g) (file_size f / BYTES_PER_THREAD demo_ext + 1)).
Proof.
  eexists _, _, _, _. split; [vm_compute; reflexivity|].
  split; [reflexivity|]. split; [reflexivity|].
  eapply (MaxThreads_value demo_ext); [reflexivity | reflexivity | | | ]; vm_compute;
    first [reflexivity | discriminate].
Defined.

(** ** [Next] *)

Section NextFacts.

Variable ext : Externals.

Lemma Next_parallel g w ret g' w' :
  single_threaded g = false ->
  Next ext g w = Ok (ret, g', w') ->
  Next_parallel_outcome ext g w g' w'.
Proof.
  intros Hmode H. unfold Next in H. rewrite Hmode in H.
  destruct (finished g) eqn:Hfin.
  { injection H as <- <- <-. apply next_finished; auto. }
  apply bind_Ok in H as (p & Hp & H).
  apply bind_Ok in H as (f & Hf & H).
  match type of H with context [CSVIterator_Next ext ?b ?i] =>
    replace i with (current_boundary g) in H by (destruct (negb _); reflexivity);
    destruct (CSVIterator_Next ext b (current_boundary g))
      as [has_next boundary] eqn:Hnext
  end.
  destruct has_next; simpl in H.
  - injection H as <- <- <-.
    eapply next_same_file; eauto.
    + destruct (negb _); reflexivity.
  - match type of H with context [?a <? ?b] => destruct (Z.ltb_spec a b) as [Hlt|Hge] end.
    + apply bind_Ok in H as (path & Hpath & H).
      unfold make_shared in H. cbv zeta in H.
      apply bind_Ok in H as (f' & Hf' & H).
      injection H as <- <- <-.
      pose proof (deref_make_shared (CSVFileScan_open w path (wrap (file_idx f + 1))) w) as Hd.
      simpl in Hd, Hf'. rewrite Hd in Hf'. injection Hf' as <-.
      eapply next_new_file; eauto.
      * destruct (negb _); simpl in *; exact Hlt.
      * destruct (negb _); simpl in *; exact Hpath.
      * destruct (negb _); reflexivity.
    + injection H as <- <- <-.
      eapply next_same_file; eauto.
      * destruct (negb _); reflexivity.
Qed.
(** What a call of [Next] does in single-threaded mode. *)
Lemma Next_single_threaded g w :
  single_threaded g = true ->
  Next ext g w =
    let g1 := set_last_file_idx (wrap (last_file_idx g + 1)) g in
    if vector_size (files (bind_data g)) <=? last_file_idx g then Ok (None, g1, w)
    else
      let unit_of p := {| scanner_id := scanner_idx g; scanner_file := p;
                          scanner_boundary := current_boundary g;
                          buffer_tracker := None |} in
      let g2 := set_scanner_idx (wrap (scanner_idx g + 1)) g1 in
      if last_file_idx g =? 0 then
        bind (back (file_scans g)) (fun p => Ok (Some (unit_of p), g2, w))
      else
        bind (vector_at (files (bind_data g)) (last_file_idx g)) (fun path =>
          Ok (Some (unit_of (length (heap w))), g2,
              set_heap (heap w ++ [CSVFileScan_open w path (last_file_idx g)]) w)).
Proof.
  intros Hmode. unfold Next. rewrite Hmode. cbv zeta. simpl.
  destruct (vector_size (files (bind_data g)) <=? last_file_idx g); [reflexivity|].
  destruct (last_file_idx g =? 0).
  - destruct (back (file_scans g)); reflexivity.
  - destruct (vector_at (files (bind_data g)) (last_file_idx g)); reflexivity.
Qed.

Lemma Next_calls_single_threaded bd p0 n : forall i g w,
  dispatched bd p0 i g w ->
  Z.of_nat (i + n) < IDX_MODULUS ->
  exists rets g' w' extra,
    Next_calls ext n g w = Ok (rets, (g', w'))
    /\ length rets = n
    /\ heap w' = heap w ++ extra
    /\ dispatched bd p0 (i + n) g' w'
    /\ forall k, (k < n)%nat ->
         if decide (i + k < length (files bd))%nat then
           exists u f, rets !! k = Some (Some u)
             /\ heap w' !! scanner_file u = Some f
             /\ file_idx f = Z.of_nat (i + k)
             /\ files bd !! (i + k)%nat = Some (file_path f)
             /\ scanner_boundary u = CSVIterator_default
         else rets !! k = Some None.
Proof.
  induction n as [|n IH]; intros i g w Hd Hbound.
  - exists [], g, w, []. simpl. rewrite app_nil_r, Nat.add_0_r.
    split; [reflexivity|]. split; [reflexivity|]. split; [reflexivity|].
    split; [exact Hd|]. intros k Hk. lia.
  - destruct Hd as (Hmode & Hbd & Hlast & Hscans & Hcb & f0 & Hf0 & Hidx0 & Hpath0).
    simpl. rewrite (Next_single_threaded g w Hmode). cbv zeta.
    rewrite Hbd, Hlast. unfold vector_size.
    assert (Hw : wrap (Z.of_nat i + 1) = Z.of_nat (S i)).
    { rewrite wrap_idx; [lia|]. unfold is_idx. lia. }
    destruct (Z.leb_spec (Z.of_nat (length (files bd))) (Z.of_nat i)) as [Hdone|Hmore].
    + (* no more files *)
      simpl.
      destruct (IH (S i) (set_last_file_idx (wrap (Z.of_nat i + 1)) g) w)
        as (rets & g' & w' & extra & Hcalls & Hlen & Hheap & Hd' & Hrets).
      { repeat split; simpl; auto. exists f0. auto. }
      { lia. }
      rewrite Hcalls. simpl.
      exists (None :: rets), g', w', extra.
      split; [reflexivity|]. split; [simpl; lia|]. split; [exact Hheap|].
      split. { replace (i + S n)%nat with (S i + n)%nat by lia. exact Hd'. }
      intros k Hk. destruct k as [|k].
      * destruct (decide (i + 0 < length (files bd))%nat); [lia | reflexivity].
      * specialize (Hrets k ltac:(lia)).
        replace (i + S k)%nat with (S i + k)%nat by lia. exact Hrets.
    + destruct (Z.eqb_spec (Z.of_nat i) 0) as [Hz|Hnz].
      * (* file 0: the context the constructor made *)
        rewrite Hscans. simpl.
        destruct (IH (S i) (set_scanner_idx (wrap (scanner_idx g + 1))
                              (set_last_file_idx (wrap (Z.of_nat i + 1)) g)) w)
          as (rets & g' & w' & extra & Hcalls & Hlen & Hheap & Hd' & Hrets).
        { repeat split; simpl; auto. exists f0. auto. }
        { lia. }
        rewrite Hcalls. simpl.
        eexists (Some _ :: rets), g', w', extra.
        split; [reflexivity|]. split; [simpl; lia|]. split; [exact Hheap|].
        split. { replace (i + S n)%nat with (S i + n)%nat by lia. exact Hd'. }
        intros k Hk. destruct k as [|k].
        -- destruct (decide (i + 0 < length (files bd))%nat); [|lia].
           eexists _, f0. split; [reflexivity|]. simpl.
           split. { rewrite Hheap. apply lookup_app_l_Some. exact Hf0. }
           replace (i + 0)%nat with 0%nat by lia.
           repeat split; auto.
        -- specialize (Hrets k ltac:(lia)).
           replace (i + S k)%nat with (S i + k)%nat by lia. exact Hrets.
      * (* a later file: a fresh context *)
        destruct (vector_at_in_range (files bd) (Z.of_nat i)) as [path Hpath].
        { unfold vector_size. lia. }
        rewrite Hpath. simpl.
        set (fnew := CSVFileScan_open w path (Z.of_nat i)).
        destruct (IH (S i) (set_scanner_idx (wrap (scanner_idx g + 1))
                              (set_last_file_idx (wrap (Z.of_nat i + 1)) g))
                    (set_heap (heap w ++ [fnew]) w))
          as (rets & g' & w' & extra & Hcalls & Hlen & Hheap & Hd' & Hrets).
        { repeat split; simpl; auto. exists f0.
          split; [apply lookup_app_l_Some; exact Hf0 | auto]. }
        { lia. }
        rewrite Hcalls. simpl.
        eexists (Some _ :: rets), g', w', ([fnew] ++ extra).
        split; [reflexivity|]. split; [simpl; lia|].
        split. { rewrite Hheap. simpl. rewrite <- app_assoc. reflexivity. }
        split. { replace (i + S n)%nat with (S i + n)%nat by lia. exact Hd'. }
        intros k Hk. destruct k as [|k].
        -- destruct (decide (i + 0 < length (files bd))%nat); [|lia].
           eexists _, fnew. split; [reflexivity|]. simpl.
           split. { rewrite Hheap. simpl. rewrite <- app_assoc.
                    rewrite lookup_app_r by lia.
                    replace (length (heap w) - length (heap w))%nat with 0%nat by lia.
                    reflexivity. }
           replace (i + 0)%nat with i by lia.
           split; [reflexivity|]. split; [|exact Hcb].
           apply vector_at_Ok in Hpath as [_ Hpath].
           rewrite Nat2Z.id in Hpath. exact Hpath.
        -- specialize (Hrets k ltac:(lia)).
           replace (i + S k)%nat with (S i + k)%nat by lia. exact Hrets.
Qed.

(** C9. A coordinator over three files with a thread budget of 1 is in
    single-threaded mode. In single-threaded mode the k-th of any number of
    successive calls of [Next] (fewer than 2^64) returns a scan unit bound to
    the context of file k-1, with that file's path and the degenerate cursor
    that stands for the whole file, while k is at most the number of files,
    and the null pointer afterwards. *)
Theorem Next_single_threaded_order w bm opts t bd g0 w0 :
  CSVGlobalState_new ext w bm opts t (files bd) bd = Ok (g0, w0) ->
  (vector_size (files bd) = 3 -> t = 1 -> single_threaded g0 = true)
  /\ (single_threaded g0 = true ->
      forall n, Z.of_nat n < IDX_MODULUS ->
      exists rets g w',
        Next_calls ext n g0 w0 = Ok (rets, (g, w'))
        /\ length rets = n
        /\ forall k, (k < n)%nat ->
             if decide (k < length (files bd))%nat then
               exists u f, rets !! k = Some (Some u)
                 /\ heap w' !! scanner_file u = Some f
                 /\ file_idx f = Z.of_nat k
                 /\ files bd !! k = Some (file_path f)
                 /\ scanner_boundary u = CSVIterator_default
             else rets !! k = Some None).
Proof.
  intros Hnew.
  apply CSVGlobalState_new_inv in Hnew
    as (first & scan & Hfirst & -> & Hidx & Hpath & _ & _ & _ & Hg).
  cbv zeta in Hg. split.
  - intros H3 ->. rewrite Hg. simpl. rewrite H3. reflexivity.
  - intros Hmode n Hn.
    destruct (Next_calls_single_threaded bd (length (heap w)) n 0 g0
                (set_heap (heap w ++ [scan]) w))
      as (rets & g & w' & extra & Hcalls & Hlen & _ & _ & Hrets).
    + rewrite Hg in Hmode |- *. simpl in Hmode. rewrite Hmode. simpl.
      repeat split. exists scan. simpl. rewrite lookup_app_r by lia.
      replace (length (heap w) - length (heap w))%nat with 0%nat by lia.
      rewrite Hpath. auto.
    + simpl. exact Hn.
    + exists rets, g, w'. auto.
Qed.

End NextFacts.

Lemma Next_single_threaded_order_witness :
  exists g0 w0,
    demo_new ["a.csv"; "b.csv"; "c.csv"]%string true 0 1 = Ok (g0, w0)
    /\ single_threaded g0 = true
    /\ exists rets g w',
         Next_calls demo_ext 4 g0 w0 = Ok (rets, (g, w'))
         /\ length rets = 4%nat
         /\ forall k, (k < 4)%nat ->
              if decide (k < 3)%nat then
                exists u f, rets !! k = Some (Some u)
                  /\ heap w' !! scanner_file u = Some f
                  /\ file_idx f = Z.of_nat k
                  /\ ["a.csv"; "b.csv"; "c.csv"]%string !! k = Some (file_path f)
                  /\ scanner_boundary u = CSVIterator_default
              else rets !! k = Some None.
Proof.
  destruct (demo_new ["a.csv"; "b.csv"; "c.csv"]%string true 0 1) as [[g0 w0]|e] eqn:Hnew;
    [|vm_compute in Hnew; discriminate Hnew].
  exists g0, w0. split; [reflexivity|].
  destruct (Next_single_threaded_order demo_ext demo_world None (demo_options true 0) 1
              (demo_bind_data ["a.csv"; "b.csv"; "c.csv"]%string true 0) g0 w0 Hnew)
    as [Hmode Hcalls].
  assert (Hst : single_threaded g0 = true) by (apply Hmode; reflexivity).
  split; [exact Hst|].
  apply (Hcalls Hst 4%nat). reflexivity.
Defined.

(** ** [DecrementThread] and the finalization *)

Section Finalization.

Variable ext : Externals.

Lemma FillRejectsTable_frame g w w' :
  FillRejectsTable ext g w = Ok w' ->
  heap w' = heap w /\ client_data w' = client_data w /\ log w' = log w
  /\ file_system w' = file_system w /\ active_query w' = active_query w.
Proof.
  unfold FillRejectsTable. destruct (store_rejects _).
  - intros H. apply bind_Ok in H as (rej & _ & [= <-]). simpl. auto.
  - intros [= <-]. auto.
Qed.

(** A call that leaves other workers running only decrements the counter. *)
Lemma DecrementThread_not_last thread g w :
  1 < running_threads g < IDX_MODULUS ->
  DecrementThread ext thread g w =
    Ok (set_running_threads (running_threads g - 1) g, w).
Proof.
  intros Hrt. unfold DecrementThread, D_ASSERT.
  replace (0 <? running_threads g) with true by (symmetry; apply Z.ltb_lt; lia).
  rewrite andb_false_r. simpl.
  rewrite wrap_idx by (unfold is_idx; lia).
  destruct (Z.eqb_spec (running_threads g - 1) 0); [lia | reflexivity].
Qed.

(** The call of the last worker enters the finalization block: it runs
    [FillRejectsTable], then captures the maximum line length of the first
    file when the debug flag is set. *)
Lemma DecrementThread_last thread g w :
  running_threads g = 1 ->
  DecrementThread ext thread g w =
    let g := set_running_threads 0 g in
    bind (FillRejectsTable ext g (set_log (log w ++ [Finalized thread]) w)) (fun w =>
      if debug_set_max_line_length (client_data w) then
        bind (vector_at (file_scans g) 0) (fun p0 =>
          bind (deref w p0) (fun f0 =>
            Ok (g, set_client_data
                     {| debug_set_max_line_length := debug_set_max_line_length (client_data w);
                        debug_max_line_length := GetMaxLineLength (error_handler f0) |} w)))
      else Ok (g, w)).
Proof.
  intros Hrt. unfold DecrementThread, D_ASSERT. rewrite Hrt. simpl.
  rewrite andb_false_r. reflexivity.
Qed.

Lemma DecrementThread_frame thread g w g' w' :
  DecrementThread ext thread g w = Ok (g', w') ->
  g' = set_running_threads (wrap (running_threads g - 1)) g
  /\ heap w' = heap w /\ file_system w' = file_system w
  /\ active_query w' = active_query w.
Proof.
  unfold DecrementThread. intros H.
  apply bind_Ok in H as ([] & _ & H). simpl in H.
  destruct (wrap (running_threads g - 1) =? 0).
  - apply bind_Ok in H as (w1 & Hfill & H).
    apply FillRejectsTable_frame in Hfill as (Hh & Hc & Hl & Hf & Ha). simpl in *.
    destruct (debug_set_max_line_length (client_data w1)).
    + apply bind_Ok in H as (p0 & _ & H). apply bind_Ok in H as (f0 & _ & H).
      injection H as <- <-. simpl. auto.
    + injection H as <- <-. auto.
  - injection H as <- <-. auto.
Qed.

(** [Next] touches neither the counter of running threads nor anything of the
    world but the heap, which it only extends. *)
Lemma Next_frame g w ret g' w' :
  Next ext g w = Ok (ret, g', w') ->
  bind_data g' = bind_data g /\ single_threaded g' = single_threaded g
  /\ system_threads g' = system_threads g /\ running_threads g' = running_threads g
  /\ (exists extra, heap w' = heap w ++ extra)
  /\ rejects w' = rejects w /\ client_data w' = client_data w /\ log w' = log w
  /\ file_system w' = file_system w /\ active_query w' = active_query w.
Proof.
  intros H. destruct (single_threaded g) eqn:Hmode.
  - rewrite (Next_single_threaded ext g w Hmode) in H. cbv zeta in H.
    destruct (vector_size (files (bind_data g)) <=? last_file_idx g).
    { injection H as <- <- <-. simpl. repeat split; auto. exists []. symmetry. apply app_nil_r. }
    destruct (last_file_idx g =? 0).
    + apply bind_Ok in H as (p & _ & H). injection H as <- <- <-. simpl.
      repeat split; auto. exists []. symmetry. apply app_nil_r.
    + apply bind_Ok in H as (path & _ & H). injection H as <- <- <-. simpl.
      repeat split; auto. eexists. reflexivity.
  - unfold Next in H. rewrite Hmode in H.
    destruct (finished g).
    { injection H as <- <- <-. repeat split; auto. exists []. symmetry. apply app_nil_r. }
    apply bind_Ok in H as (p & _ & H). apply bind_Ok in H as (f & _ & H).
    destruct (CSVIterator_Next ext _ _) as [has_next boundary].
    destruct has_next; simpl in H.
    + injection H as <- <- <-. destruct (negb _); simpl; repeat split; auto;
        exists []; symmetry; apply app_nil_r.
    + destruct (_ <? _).
      * apply bind_Ok in H as (path & _ & H). unfold make_shared in H. cbv zeta in H.
        apply bind_Ok in H as (f' & _ & H). injection H as <- <- <-.
        destruct (negb _); simpl; repeat split; auto; eexists; reflexivity.
      * injection H as <- <- <-. destruct (negb _); simpl; repeat split; auto;
          exists []; symmetry; apply app_nil_r.
Qed.

(** Only [DecrementThread] touches the counter, the rejects table, the client
    data and the log. *)
Lemma step_frame a g w g' w' :
  step ext a (g, w) = Ok (g', w') ->
  decrementer a = None ->
  running_threads g' = running_threads g /\ log w' = log w
  /\ rejects w' = rejects w /\ client_data w' = client_data w.
Proof.
  intros H Ha. destruct a as [|thread|p n|p line error]; simpl in *; try discriminate.
  - apply bind_Ok in H as ([[ret g1] w1] & Hn & H). injection H as <- <-.
    apply Next_frame in Hn. simpl. tauto.
  - injection H as <- <-. auto.
  - injection H as <- <-. auto.
Qed.

Lemma run_app tr1 tr2 s :
  run ext (tr1 ++ tr2) s = bind (run ext tr1 s) (run ext tr2).
Proof.
  revert s. induction tr1 as [|a tr1 IH]; intros s; simpl; [reflexivity|].
  destruct (step ext a s); simpl; [apply IH | reflexivity].
Qed.

(** Steps that are not calls of [DecrementThread] leave the counter and the
    finalization's effects alone. *)
Lemma run_without_decrement trace : forall g w g' w',
  run ext trace (g, w) = Ok (g', w') ->
  decrementers trace = [] ->
  running_threads g' = running_threads g /\ log w' = log w
  /\ rejects w' = rejects w /\ client_data w' = client_data w.
Proof.
  induction trace as [|a trace IH]; intros g w g' w' H Hd; simpl in H.
  - injection H as <- <-. auto.
  - apply bind_Ok in H as ([g1 w1] & Hstep & H).
    unfold decrementers in Hd. simpl in Hd.
    destruct (decrementer a) eqn:Ha; [discriminate|].
    apply step_frame in Hstep as (Hr & Hl & Hj & Hc); [|exact Ha].
    apply IH in H; [|exact Hd]. rewrite Hr, Hl, Hj, Hc in H. exact H.
Qed.

(** While fewer workers have retired than were started, the counter counts
    the ones still running and finalization has not run. *)
Lemma run_before_last trace : forall g w g' w',
  run ext trace (g, w) = Ok (g', w') ->
  0 < running_threads g < IDX_MODULUS ->
  Z.of_nat (length (decrementers trace)) < running_threads g ->
  running_threads g' = running_threads g - Z.of_nat (length (decrementers trace))
  /\ log w' = log w /\ rejects w' = rejects w /\ client_data w' = client_data w.
Proof.
  induction trace as [|a trace IH]; intros g w g' w' H Hrt Hd; simpl in H.
  - injection H as <- <-. simpl. repeat split; auto. lia.
  - apply bind_Ok in H as ([g1 w1] & Hstep & H).
    destruct (decrementer a) as [thread|] eqn:Ha.
    + destruct a; try discriminate. injection Ha as ->.
      change (decrementers (CallDecrementThread thread :: trace))
        with (thread :: decrementers trace) in *.
      rewrite length_cons in Hd |- *. simpl in Hstep.
      rewrite DecrementThread_not_last in Hstep by lia. injection Hstep as <- <-.
      apply IH in H; simpl; [|lia|lia]. simpl in H.
      destruct H as (-> & -> & -> & ->). repeat split; auto. lia.
    + assert (Hsame : decrementers (a :: trace) = decrementers trace).
      { unfold decrementers. simpl. rewrite Ha. reflexivity. }
      rewrite Hsame in *.
      apply step_frame in Hstep as (Hr & Hl & Hj & Hc); [|exact Ha].
      apply IH in H; [|lia|lia]. rewrite Hr, Hl, Hj, Hc in H. exact H.
Qed.

Lemma last_decrement trace :
  decrementers trace <> [] ->
  exists pre thread post,
    trace = pre ++ CallDecrementThread thread :: post
    /\ decrementers post = []
    /\ decrementers trace = decrementers pre ++ [thread].
Proof.
  induction trace as [|a trace IH] using rev_ind; intros Hne;
    [exfalso; apply Hne; reflexivity|].
  unfold decrementers in *. rewrite omap_app in Hne |- *. simpl in *.
  destruct (decrementer a) as [thread|] eqn:Ha.
  - destruct a; try discriminate. injection Ha as ->.
    exists trace, thread, []. auto.
  - rewrite app_nil_r in Hne. destruct (IH Hne) as (pre & thread & post & -> & Hpost & Hall).
    exists pre, thread, (post ++ [a]). rewrite <- app_assoc. simpl.
    split; [reflexivity|]. rewrite omap_app. simpl. rewrite Ha, Hpost. simpl.
    split; [reflexivity|]. rewrite app_nil_r. exact Hall.
Qed.

(** X2. A call beyond the last: with the counter at 0 a debug build stops at the
    assertion; a release build wraps the counter around to 2^64 - 1 and does
    not finalize. *)
Theorem DecrementThread_at_zero thread g w :
  running_threads g = 0 ->
  DecrementThread ext thread g w =
    if assertions_enabled ext then Throw (InternalException "Assertion triggered")
    else Ok (set_running_threads (IDX_MODULUS - 1) g, w).
Proof.
  intros Hrt. unfold DecrementThread, D_ASSERT. rewrite Hrt. simpl.
  rewrite andb_true_r. destruct (assertions_enabled ext); reflexivity.
Qed.

End Finalization.

Lemma DecrementThread_at_zero_witness :
  exists g w,
    demo_new ["a.csv"%string] true 0 0 = Ok (g, w)
    /\ running_threads g = 0
    /\ DecrementThread demo_ext 0 g w = Throw (InternalException "Assertion triggered").
Proof.
  destruct (demo_new ["a.csv"%string] true 0 0) as [[g w]|e] eqn:Hnew;
    [|vm_compute in Hnew; discriminate Hnew].
  assert (Hrt : running_threads g = 0)
    by (vm_compute in Hnew; injection Hnew as <- <-; reflexivity).
  exists g, w. split; [reflexivity|]. split; [exact Hrt|].
  exact (DecrementThread_at_zero demo_ext 0%nat g w Hrt).
Defined.

(** ** Binary64 arithmetic *)

(** Rounding to nearest is monotone, and each operation [GetProgress] uses
    returns the rounding of the exact result, as long as the values stay
    positive normal numbers or +0. *)

Lemma two_neq_0 : ~ (2 == 0)%Q.
Proof. intros H. discriminate H. Qed.

Lemma pow2_pos e : (0 < pow2 e)%Q.
Proof. apply Qpower_0_lt. reflexivity. Qed.

Lemma pow2_add a b : (pow2 (a + b) == pow2 a * pow2 b)%Q.
Proof. apply Qpower_plus. exact two_neq_0. Qed.

Lemma pow2_0 : (pow2 0 == 1)%Q.
Proof. reflexivity. Qed.

Lemma pow2_opp a : (pow2 a * pow2 (- a) == 1)%Q.
Proof. rewrite <- pow2_add, Z.add_opp_diag_r. reflexivity. Qed.

Lemma pow2_le a b : a <= b -> (pow2 a <= pow2 b)%Q.
Proof. intros H. apply Qpower_le_compat_l; [exact H | discriminate]. Qed.

Lemma pow2_lt a b : a < b -> (pow2 a < pow2 b)%Q.
Proof. intros H. apply Qpower_lt_compat_l; [exact H | reflexivity]. Qed.

Lemma pow2_lt_inv a b : (pow2 a < pow2 b)%Q -> a < b.
Proof.
  intros H. destruct (Z.lt_ge_cases a b) as [|Hge]; [assumption|].
  apply pow2_le in Hge. lra.
Qed.

Lemma pow2_Z n : 0 <= n -> (pow2 n == inject_Z (2 ^ n))%Q.
Proof. intros H. unfold pow2. rewrite Zpower_Qpower by exact H. reflexivity. Qed.

Lemma located_ext y y' m l : (y == y')%Q -> located y m l -> located y' m l.
Proof.
  intros E. destruct l as [|[| |]]; simpl; rewrite E; auto.
Qed.

Lemma located_bounds y m l :
  located y m l -> (inject_Z m <= y /\ y < inject_Z m + 1)%Q.
Proof. destruct l as [|[| |]]; simpl; intros H; lra. Qed.

Lemma inject_Z_le_inv a b : (inject_Z a < inject_Z b + 1)%Q -> a <= b.
Proof.
  intros H. apply Z.lt_succ_r. rewrite Zlt_Qlt. unfold Z.succ.
  rewrite inject_Z_plus. exact H.
Qed.

Lemma inject_Z_succ a b : a < b -> (inject_Z a + 1 <= inject_Z b)%Q.
Proof.
  intros H. change 1%Q with (inject_Z 1). rewrite <- inject_Z_plus, <- Zle_Qle. lia.
Qed.

Lemma rne_bounds m l : m <= round_nearest_even m l <= m + 1.
Proof. destruct l as [|[| |]]; simpl; try destruct (Z.even m); lia. Qed.

(** Rounding to nearest, ties to even, is monotone. *)
Lemma rne_mono y y' m m' l l' :
  located y m l -> located y' m' l' -> (y <= y')%Q ->
  round_nearest_even m l <= round_nearest_even m' l'.
Proof.
  intros H H' Hle.
  pose proof (located_bounds _ _ _ H) as Hb.
  pose proof (located_bounds _ _ _ H') as Hb'.
  assert (Hm : m <= m') by (apply inject_Z_le_inv; lra).
  destruct (Z.eq_dec m m') as [<-|Hne].
  - destruct l as [|[| |]], l' as [|[| |]]; simpl in *;
      try destruct (Z.even m); try lia; exfalso; lra.
  - pose proof (rne_bounds m l). pose proof (rne_bounds m' l'). lia.
Qed.

Lemma unscale x e : (x * pow2 (- e) * pow2 e == x)%Q.
Proof.
  rewrite <- Qmult_assoc, (Qmult_comm (pow2 (- e))), pow2_opp, Qmult_1_r. reflexivity.
Qed.

Lemma scaled_le k k' e : k <= k' -> (inject_Z k * pow2 e <= inject_Z k' * pow2 e)%Q.
Proof.
  intros H. apply Qmult_le_compat_r; [rewrite <- Zle_Qle; exact H|].
  apply Qlt_le_weak, pow2_pos.
Qed.

Lemma pow2_scaled n e : 0 <= n -> (inject_Z (2 ^ n) * pow2 e == pow2 (n + e))%Q.
Proof. intros H. rewrite pow2_add, (pow2_Z n H). reflexivity. Qed.

(** What [rounds53] says of the sizes of [x] and [r]. *)
Lemma rounds53_range x r :
  rounds53 x r ->
  exists e, (pow2 (52 + e) <= x /\ x < pow2 (53 + e)
             /\ pow2 (52 + e) <= r /\ r <= pow2 (53 + e))%Q.
Proof.
  intros (m & e & l & Hloc & Hm & Hr). exists e.
  pose proof (located_bounds _ _ _ Hloc) as [Hlo Hhi].
  pose proof (rne_bounds m l) as Hk.
  pose proof (pow2_pos e) as Hpos.
  rewrite <- !pow2_scaled by lia.
  assert (Hx : (x == x * pow2 (- e) * pow2 e)%Q) by (symmetry; apply unscale).
  split; [|split; [|split]].
  - rewrite Hx. apply Qmult_le_compat_r; [|lra].
    apply (Qle_trans _ (inject_Z m)); [rewrite <- Zle_Qle; lia | exact Hlo].
  - rewrite Hx. apply Qmult_lt_compat_r; [exact Hpos|].
    apply (Qlt_le_trans _ (inject_Z m + 1)); [exact Hhi|].
    apply inject_Z_succ. lia.
  - rewrite Hr. apply scaled_le. lia.
  - rewrite Hr. apply scaled_le. lia.
Qed.

Lemma rounds53_mono x x' r r' :
  rounds53 x r -> rounds53 x' r' -> (x <= x')%Q -> (r <= r')%Q.
Proof.
  intros H H' Hle.
  pose proof (rounds53_range _ _ H) as (e0 & Hx0 & Hx1 & _).
  pose proof (rounds53_range _ _ H') as (e0' & Hx0' & Hx1' & _).
  destruct H as (m & e & l & Hloc & Hm & Hr).
  destruct H' as (m' & e' & l' & Hloc' & Hm' & Hr').
  pose proof (located_bounds _ _ _ Hloc) as [Hlo Hhi].
  pose proof (located_bounds _ _ _ Hloc') as [Hlo' Hhi'].
  pose proof (rne_bounds m l) as Hk. pose proof (rne_bounds m' l') as Hk'.
  assert (Hxe : (pow2 (52 + e) <= x)%Q).
  { rewrite <- pow2_scaled by lia. rewrite <- (unscale x e).
    apply Qmult_le_compat_r; [|apply Qlt_le_weak, pow2_pos].
    apply (Qle_trans _ (inject_Z m)); [rewrite <- Zle_Qle; lia | exact Hlo]. }
  assert (Hxe' : (x' < pow2 (53 + e'))%Q).
  { rewrite <- pow2_scaled by lia. rewrite <- (unscale x' e') at 1.
    apply Qmult_lt_compat_r; [apply pow2_pos|].
    apply (Qlt_le_trans _ (inject_Z m' + 1)); [exact Hhi'|].
    apply inject_Z_succ. lia. }
  assert (He : e <= e').
  { assert (52 + e < 53 + e'); [|lia]. apply pow2_lt_inv. lra. }
  rewrite Hr, Hr'.
  destruct (Z.eq_dec e e') as [<-|Hne].
  - apply scaled_le. apply (rne_mono _ _ _ _ _ _ Hloc Hloc').
    apply Qmult_le_compat_r; [exact Hle | apply Qlt_le_weak, pow2_pos].
  - apply (Qle_trans _ (pow2 (53 + e))).
    { rewrite <- pow2_scaled by lia. apply scaled_le. lia. }
    apply (Qle_trans _ (pow2 (52 + e'))).
    { apply pow2_le. lia. }
    rewrite <- pow2_scaled by lia. apply scaled_le. lia.
Qed.

Lemma rounds53_pos x r : rounds53 x r -> (0 < x /\ 0 < r)%Q.
Proof.
  intros H. destruct (rounds53_range _ _ H) as (e & H1 & _ & H2 & _).
  pose proof (pow2_pos (52 + e)). lra.
Qed.

Lemma rnd_nonneg x r : rnd x r -> (0 <= x /\ 0 <= r)%Q.
Proof.
  intros [[Hx Hr] | [Hx H]]; [lra|]. apply rounds53_pos in H. lra.
Qed.

(** Rounding is monotone. *)
Lemma rnd_mono x x' r r' : rnd x r -> rnd x' r' -> (x <= x')%Q -> (r <= r')%Q.
Proof.
  intros [[Hx Hr] | [Hx H]] H' Hle.
  - apply rnd_nonneg in H'. lra.
  - destruct H' as [[Hx' Hr'] | [Hx' H']]; [lra|].
    exact (rounds53_mono _ _ _ _ H H' Hle).
Qed.

(** Powers of two are not rounded. *)
Lemma rnd_pow2 a : rnd (pow2 a) (pow2 a).
Proof.
  right. split; [apply pow2_pos|].
  exists (2 ^ 52), (a - 52), loc_Exact. simpl.
  split; [|split; [lia|]].
  - rewrite <- pow2_add. replace (a + - (a - 52)) with 52 by lia.
    apply pow2_Z. lia.
  - rewrite pow2_scaled by lia. replace (52 + (a - 52)) with a by lia. reflexivity.
Qed.

Lemma rnd_bounds x r a b :
  rnd x r -> (pow2 a <= x)%Q -> (x <= pow2 b)%Q -> (pow2 a <= r /\ r <= pow2 b)%Q.
Proof.
  intros H Ha Hb. split.
  - exact (rnd_mono _ _ _ _ (rnd_pow2 a) H Ha).
  - exact (rnd_mono _ _ _ _ H (rnd_pow2 b) Hb).
Qed.

Lemma digits2_pos_spec m :
  2 ^ (Z.pos (digits2_pos m) - 1) <= Z.pos m < 2 ^ Z.pos (digits2_pos m).
Proof.
  induction m as [p IH|p IH|]; simpl digits2_pos.
  - rewrite Pos2Z.inj_succ, (Pos2Z.inj_xI p).
    replace (Z.succ (Z.pos (digits2_pos p)) - 1) with (Z.succ (Z.pos (digits2_pos p) - 1)) by lia.
    rewrite !Z.pow_succ_r by lia. revert IH.
    generalize (2 ^ (Z.pos (digits2_pos p) - 1)), (2 ^ Z.pos (digits2_pos p)). lia.
  - rewrite Pos2Z.inj_succ, (Pos2Z.inj_xO p).
    replace (Z.succ (Z.pos (digits2_pos p)) - 1) with (Z.succ (Z.pos (digits2_pos p) - 1)) by lia.
    rewrite !Z.pow_succ_r by lia. revert IH.
    generalize (2 ^ (Z.pos (digits2_pos p) - 1)), (2 ^ Z.pos (digits2_pos p)). lia.
  - simpl. lia.
Qed.

Lemma digits2_pos_unique m d :
  2 ^ (d - 1) <= Z.pos m < 2 ^ d -> Z.pos (digits2_pos m) = d.
Proof.
  intros [Hlo Hhi]. pose proof (digits2_pos_spec m) as [Hlo' Hhi'].
  set (D := Z.pos (digits2_pos m)) in *.
  destruct (Z.lt_trichotomy D d) as [Hlt | [Heq | Hgt]]; [|exact Heq|].
  - pose proof (Z.pow_le_mono_r 2 D (d - 1) ltac:(lia) ltac:(lia)). lia.
  - pose proof (Z.pow_le_mono_r 2 d (D - 1) ltac:(lia) ltac:(lia)). lia.
Qed.

Lemma digits2_pos_ge m d : 2 ^ (d - 1) <= Z.pos m -> d <= Z.pos (digits2_pos m).
Proof.
  intros Hlo. pose proof (digits2_pos_spec m) as [_ Hhi].
  destruct (Z.le_gt_cases d (Z.pos (digits2_pos m))) as [|Hgt]; [assumption|].
  pose proof (Z.pow_le_mono_r 2 (Z.pos (digits2_pos m)) (d - 1) ltac:(lia) ltac:(lia)). lia.
Qed.

(** ** Shifting right *)


Lemma pow2_m1 : (pow2 (-1) == 1 # 2)%Q.
Proof. reflexivity. Qed.

Lemma shr_1_shifted m0 y0 n mrs :
  0 <= m0 -> 0 <= n -> shifted m0 y0 n mrs -> shifted m0 y0 (n + 1) (shr_1 mrs).
Proof.
  intros Hm0 Hn [Hm Hloc].
  assert (Hpos : 0 <= shr_m mrs).
  { rewrite Hm. apply Z.div_pos; [exact Hm0 | apply Z.pow_pos_nonneg; lia]. }
  assert (Hdiv : m0 / 2 ^ (n + 1) = shr_m mrs / 2).
  { rewrite Z.pow_add_r by lia. rewrite <- Z.div_div by (try apply Z.pow_pos_nonneg; lia).
    rewrite Hm. reflexivity. }
  assert (Hy : (y0 * pow2 (- (n + 1)) == y0 * pow2 (- n) * (1 # 2))%Q).
  { replace (- (n + 1)) with (- n + -1) by lia. rewrite pow2_add, pow2_m1. ring. }
  unfold shifted. rewrite Hdiv.
  set (y := (y0 * pow2 (- n))%Q) in *. clearbody y. clear Hm Hdiv.
  destruct mrs as [m r s]. cbn [shr_m] in *.
  assert (Hloc' : located (y * (1 # 2)) (shr_m (shr_1 {| shr_m := m; shr_r := r; shr_s := s |}))
                    (loc_of_shr_record (shr_1 {| shr_m := m; shr_r := r; shr_s := s |}))
                  /\ shr_m (shr_1 {| shr_m := m; shr_r := r; shr_s := s |}) = m / 2).
  { destruct m as [|[p|p|]|]; [| | | |lia].
    - split; [|reflexivity].
      destruct r, s; cbn [shr_1 shr_m loc_of_shr_record located orb] in *;
        change (inject_Z 0) with 0%Q in *; lra.
    - assert (Hq : (inject_Z (Z.pos p~1) == 2 * inject_Z (Z.pos p) + 1)%Q).
      { rewrite (Pos2Z.inj_xI p), inject_Z_plus, inject_Z_mult. reflexivity. }
      split.
      + destruct r, s; cbn [shr_1 shr_m loc_of_shr_record located orb] in *; lra.
      + cbn [shr_1 shr_m]. rewrite (Pos2Z.inj_xI p).
        apply (Z.div_unique _ _ _ 1); lia.
    - assert (Hq : (inject_Z (Z.pos p~0) == 2 * inject_Z (Z.pos p))%Q).
      { rewrite (Pos2Z.inj_xO p), inject_Z_mult. reflexivity. }
      split.
      + destruct r, s; cbn [shr_1 shr_m loc_of_shr_record located orb] in *; lra.
      + cbn [shr_1 shr_m]. rewrite (Pos2Z.inj_xO p).
        apply (Z.div_unique _ _ _ 0); lia.
    - split; [|reflexivity].
      destruct r, s; cbn [shr_1 shr_m loc_of_shr_record located orb] in *;
        change (inject_Z 0) with 0%Q in *; change (inject_Z 1) with 1%Q in *; lra. }
  destruct Hloc' as [H1 H2]. split; [exact H2|].
  apply (located_ext (y * (1 # 2))); [symmetry; exact Hy | exact H1].
Qed.

Lemma iter_pos_shifted m0 y0 p : forall n mrs,
  0 <= m0 -> 0 <= n -> shifted m0 y0 n mrs ->
  shifted m0 y0 (n + Z.pos p) (SpecFloat.iter_pos shr_1 p mrs).
Proof.
  induction p as [p IH|p IH|]; intros n mrs Hm0 Hn H; simpl iter_pos.
  - replace (n + Z.pos p~1) with (n + 1 + Z.pos p + Z.pos p) by lia.
    apply IH; [exact Hm0 | lia |]. apply IH; [exact Hm0 | lia |].
    apply shr_1_shifted; assumption.
  - replace (n + Z.pos p~0) with (n + Z.pos p + Z.pos p) by lia.
    apply IH; [exact Hm0 | lia |]. apply IH; assumption.
  - apply shr_1_shifted; assumption.
Qed.

Lemma shr_record_of_loc_m m l : shr_m (shr_record_of_loc m l) = m.
Proof. destruct l as [|[| |]]; reflexivity. Qed.

Lemma loc_of_shr_record_of_loc m l : loc_of_shr_record (shr_record_of_loc m l) = l.
Proof. destruct l as [|[| |]]; reflexivity. Qed.

(** [shr] by [n >= 0] places. *)
Lemma shr_shifted m y l e n :
  0 <= m -> 0 <= n -> located y m l ->
  exists mrs, shr (shr_record_of_loc m l) e n = (mrs, e + n) /\ shifted m y n mrs.
Proof.
  intros Hm Hn Hloc.
  assert (H0 : shifted m y 0 (shr_record_of_loc m l)).
  { split.
    - rewrite shr_record_of_loc_m. simpl. rewrite Z.div_1_r. reflexivity.
    - rewrite shr_record_of_loc_m, loc_of_shr_record_of_loc.
      apply (located_ext y); [|exact Hloc].
      change (pow2 (- 0)) with (pow2 0). rewrite pow2_0. ring. }
  destruct n as [|p|p]; [| |lia].
  - exists (shr_record_of_loc m l). rewrite Z.add_0_r. split; [reflexivity | exact H0].
  - exists (SpecFloat.iter_pos shr_1 p (shr_record_of_loc m l)). split; [reflexivity|].
    apply (iter_pos_shifted m y p 0); [exact Hm | lia | exact H0].
Qed.

Lemma fexp_normal x : -1074 <= x - 53 -> fexp 53 1024 x = x - 53.
Proof. unfold fexp, emin. lia. Qed.

Lemma pow2_split a b : 0 <= a -> 0 <= b -> 2 ^ (a + b) = 2 ^ a * 2 ^ b.
Proof. intros. apply Z.pow_add_r; assumption. Qed.

(** Rounding a mantissa of at least 53 digits whose result is a normal
    number. *)
Lemma binary_round_aux_normal m0 e0 l0 y :
  located y (Z.pos m0) l0 ->
  53 <= Z.pos (digits2_pos m0) ->
  -1074 <= Z.pos (digits2_pos m0) + e0 - 53 <= 970 ->
  exists k e',
    binary_round_aux 53 1024 false (Z.pos m0) e0 l0 = S754_finite false k e'
    /\ Z.pos (digits2_pos k) = 53 /\ -1074 <= e' <= 971
    /\ rounds53 (y * pow2 e0) (inject_Z (Z.pos k) * pow2 e').
Proof.
  intros Hloc Hd Hrange.
  pose proof (digits2_pos_spec m0) as Hdig.
  set (d := Z.pos (digits2_pos m0)) in *.
  set (e1 := e0 + (d - 53)).
  destruct (shr_shifted (Z.pos m0) y l0 e0 (d - 53) ltac:(lia) ltac:(lia) Hloc)
    as (mrs1 & Hshr1 & Hm1 & Hloc1).
  assert (H1 : shr_fexp 53 1024 (Z.pos m0) e0 l0 = (mrs1, e1)).
  { unfold shr_fexp. change (Zdigits2 (Z.pos m0)) with d.
    rewrite fexp_normal by lia.
    replace (d + e0 - 53 - e0) with (d - 53) by lia. exact Hshr1. }
  assert (Hp : 0 < 2 ^ (d - 53)) by (apply Z.pow_pos_nonneg; lia).
  assert (Hb1 : 2 ^ 52 <= shr_m mrs1 < 2 ^ 53).
  { rewrite Hm1. split.
    - apply Z.div_le_lower_bound; [exact Hp|].
      rewrite <- pow2_split by lia. replace (d - 53 + 52) with (d - 1) by lia. lia.
    - apply Z.div_lt_upper_bound; [exact Hp|].
      rewrite <- pow2_split by lia. replace (d - 53 + 53) with d by lia. lia. }
  set (m1 := shr_m mrs1) in *. set (l1 := loc_of_shr_record mrs1) in *.
  pose proof (rne_bounds m1 l1) as Hk.
  assert (Hval : forall r, (r == inject_Z (round_nearest_even m1 l1) * pow2 e1)%Q ->
                   rounds53 (y * pow2 e0) r).
  { intros r Hr. exists m1, e1, l1. split; [|split; [exact Hb1 | exact Hr]].
    apply (located_ext (y * pow2 (- (d - 53)))); [|exact Hloc1].
    rewrite <- Qmult_assoc, <- pow2_add. replace (e0 + - e1) with (- (d - 53)) by (unfold e1; lia).
    reflexivity. }
  unfold binary_round_aux. rewrite H1. cbv beta iota. fold m1 l1.
  destruct (Z.eq_dec (round_nearest_even m1 l1) (2 ^ 53)) as [Heq | Hne].
  - rewrite Heq.
    assert (H2 : shr_fexp 53 1024 (2 ^ 53) e1 loc_Exact
                 = ({| shr_m := 2 ^ 52; shr_r := false; shr_s := false |}, e1 + 1)).
    { unfold shr_fexp. change (Zdigits2 (2 ^ 53)) with 54.
      rewrite fexp_normal by (unfold e1; lia).
      replace (54 + e1 - 53 - e1) with 1 by lia. reflexivity. }
    rewrite H2. cbv beta iota. change (shr_m _) with (2 ^ 52).
    change (2 ^ 52) with (Z.pos (2 ^ 52)%positive).
    cbv iota.
    replace (e1 + 1 <=? 1024 - 53) with true by (symmetry; apply Z.leb_le; unfold e1; lia).
    exists (2 ^ 52)%positive, (e1 + 1).
    split; [reflexivity|]. split; [reflexivity|]. split; [unfold e1; lia|].
    apply Hval. rewrite Heq.
    change (Z.pos (2 ^ 52)%positive) with (2 ^ 52).
    rewrite !pow2_scaled by lia. replace (53 + e1) with (52 + (e1 + 1)) by lia. reflexivity.
  - destruct (round_nearest_even m1 l1) as [|k|k] eqn:Hrne; [lia| |lia].
    assert (Hdk : Z.pos (digits2_pos k) = 53).
    { apply digits2_pos_unique. change (53 - 1) with 52. lia. }
    assert (H2 : shr_fexp 53 1024 (Z.pos k) e1 loc_Exact
                 = ({| shr_m := Z.pos k; shr_r := false; shr_s := false |}, e1)).
    { unfold shr_fexp. change (Zdigits2 (Z.pos k)) with (Z.pos (digits2_pos k)).
      rewrite Hdk. rewrite fexp_normal by (unfold e1; lia).
      replace (53 + e1 - 53 - e1) with 0 by lia. reflexivity. }
    rewrite H2. cbv beta iota. cbn [shr_m].
    replace (e1 <=? 1024 - 53) with true by (symmetry; apply Z.leb_le; unfold e1; lia).
    exists k, e1.
    split; [reflexivity|]. split; [exact Hdk|]. split; [unfold e1; lia|].
    apply Hval. reflexivity.
Qed.

Lemma pow2_le_inv a b : (pow2 a <= pow2 b)%Q -> a <= b.
Proof.
  intros H. destruct (Z.le_gt_cases a b) as [|Hgt]; [assumption|].
  apply pow2_lt in Hgt. lra.
Qed.

Lemma rounds53_ext x x' r r' :
  (x == x')%Q -> (r == r')%Q -> rounds53 x r -> rounds53 x' r'.
Proof.
  intros Hx Hr (m & e & l & Hloc & Hm & Hv). exists m, e, l.
  split; [|split; [exact Hm|]].
  - apply (located_ext (x * pow2 (- e))); [rewrite Hx; reflexivity | exact Hloc].
  - rewrite <- Hr. exact Hv.
Qed.

Lemma rnd_ext x x' r r' : (x == x')%Q -> (r == r')%Q -> rnd x r -> rnd x' r'.
Proof.
  intros Hx Hr [[H1 H2] | [H1 H2]].
  - left. split; [rewrite <- Hx; exact H1 | rewrite <- Hr; exact H2].
  - right. split; [rewrite <- Hx; exact H1|]. exact (rounds53_ext _ _ _ _ Hx Hr H2).
Qed.

(** The size of the value of a mantissa and an exponent. *)
Lemma mantissa_range m e :
  (pow2 (Z.pos (digits2_pos m) - 1 + e) <= inject_Z (Z.pos m) * pow2 e
   /\ inject_Z (Z.pos m) * pow2 e < pow2 (Z.pos (digits2_pos m) + e))%Q.
Proof.
  pose proof (digits2_pos_spec m) as [Hlo Hhi].
  pose proof (pow2_pos e) as Hpos.
  rewrite <- !pow2_scaled by lia. split.
  - apply scaled_le. exact Hlo.
  - apply Qmult_lt_compat_r; [exact Hpos|]. rewrite <- Zlt_Qlt. exact Hhi.
Qed.

Lemma range_digits m e q :
  (q == inject_Z (Z.pos m) * pow2 e)%Q ->
  (pow2 (-1022) <= q)%Q -> (q <= pow2 1022)%Q ->
  -1074 <= Z.pos (digits2_pos m) + e - 53 <= 970.
Proof.
  intros Hq Hlo Hhi. pose proof (mantissa_range m e) as [H1 H2].
  rewrite <- Hq in H1, H2.
  assert (-1022 < Z.pos (digits2_pos m) + e) by (apply pow2_lt_inv; lra).
  assert (Z.pos (digits2_pos m) - 1 + e <= 1022) by (apply pow2_le_inv; lra).
  lia.
Qed.

Lemma sfval_finite_range m e q :
  Z.pos (digits2_pos m) = 53 -> (q == inject_Z (Z.pos m) * pow2 e)%Q ->
  (pow2 (52 + e) <= q /\ q < pow2 (53 + e))%Q.
Proof.
  intros Hd Hq. pose proof (mantissa_range m e) as [H1 H2].
  rewrite Hd in H1, H2. change (53 - 1) with 52 in H1. rewrite Hq. split; assumption.
Qed.

Lemma sfval_nonneg s q : sfval s q -> (0 <= q)%Q.
Proof.
  intros [[_ Hq] | (m & e & _ & Hd & _ & Hq)]; [lra|].
  pose proof (sfval_finite_range m e q Hd Hq). pose proof (pow2_pos (52 + e)). lra.
Qed.

Lemma sfval_zero s q : sfval s q -> (q == 0)%Q -> s = S754_zero false.
Proof.
  intros [[Hs _] | (m & e & _ & Hd & _ & Hq)] H0; [exact Hs|].
  pose proof (sfval_finite_range m e q Hd Hq). pose proof (pow2_pos (52 + e)). lra.
Qed.

Lemma sfval_pos s q :
  sfval s q -> (0 < q)%Q ->
  exists m e, s = S754_finite false m e /\ Z.pos (digits2_pos m) = 53
              /\ -1074 <= e <= 971 /\ (q == inject_Z (Z.pos m) * pow2 e)%Q.
Proof. intros [[_ Hq] | H] Hpos; [lra | exact H]. Qed.

(** A value that is a double is its own rounding. *)
Lemma sfval_rnd_self s q : sfval s q -> rnd q q.
Proof.
  intros [[_ Hq] | (m & e & _ & Hd & _ & Hq)]; [left; auto|].
  pose proof (sfval_finite_range m e q Hd Hq) as [Hlo _].
  pose proof (pow2_pos (52 + e)).
  pose proof (digits2_pos_spec m) as Hm. rewrite Hd in Hm. change (53 - 1) with 52 in Hm.
  right. split; [lra|]. exists (Z.pos m), e, loc_Exact.
  split; [|split; [exact Hm | exact Hq]].
  simpl. rewrite Hq. rewrite <- Qmult_assoc, <- pow2_add, Z.add_opp_diag_r, pow2_0. ring.
Qed.

Lemma sfval_valid s q : sfval s q -> valid_binary s = true.
Proof.
  intros [[-> _] | (m & e & -> & Hd & He & _)]; [reflexivity|].
  change (bounded 53 1024 m e = true). unfold bounded, canonical_mantissa.
  rewrite Hd, fexp_normal by lia.
  apply andb_true_intro. split; [apply Z.eqb_eq; lia | apply Z.leb_le; lia].
Qed.

(** ** Multiplication *)

Lemma SFmul_sfval x y qx qy :
  sfval x qx -> sfval y qy ->
  ((qx * qy == 0)%Q \/ (pow2 (-1022) <= qx * qy /\ qx * qy <= pow2 1022)%Q) ->
  exists q, sfval (SFmul 53 1024 x y) q /\ rnd (qx * qy) q.
Proof.
  intros Hx Hy Hrange.
  pose proof (sfval_nonneg _ _ Hx) as Hx0. pose proof (sfval_nonneg _ _ Hy) as Hy0.
  destruct Hx as [[-> Hqx] | (mx & ex & -> & Hdx & Hex & Hqx)].
  { exists 0%Q. split.
    - left. split; [|reflexivity].
      destruct Hy as [[-> _] | (my & ey & -> & _)]; reflexivity.
    - left. split; [rewrite Hqx; ring | reflexivity]. }
  destruct Hy as [[-> Hqy] | (my & ey & -> & Hdy & Hey & Hqy)].
  { exists 0%Q. split; [left; split; reflexivity|].
    left. split; [rewrite Hqy; ring | reflexivity]. }
  pose proof (sfval_finite_range mx ex qx Hdx Hqx) as [Hx1 _].
  pose proof (sfval_finite_range my ey qy Hdy Hqy) as [Hy1 _].
  pose proof (pow2_pos (52 + ex)). pose proof (pow2_pos (52 + ey)).
  assert (Hpos : (0 < qx * qy)%Q) by (apply Qmult_lt_0_compat; lra).
  destruct Hrange as [Hzero | [Hlo Hhi]]; [lra|].
  assert (Hv : (qx * qy == inject_Z (Z.pos (mx * my)) * pow2 (ex + ey))%Q).
  { rewrite Pos2Z.inj_mul, inject_Z_mult, pow2_add, Hqx, Hqy. ring. }
  pose proof (range_digits _ _ _ Hv Hlo Hhi) as Hr.
  assert (Hd : 53 <= Z.pos (digits2_pos (mx * my))).
  { apply digits2_pos_ge. change (53 - 1) with 52. rewrite Pos2Z.inj_mul.
    pose proof (digits2_pos_spec mx) as Hmx. rewrite Hdx in Hmx.
    pose proof (digits2_pos_spec my) as Hmy. rewrite Hdy in Hmy.
    change (53 - 1) with 52 in *. nia. }
  destruct (binary_round_aux_normal (mx * my) (ex + ey) loc_Exact
              (inject_Z (Z.pos (mx * my))) ltac:(simpl; reflexivity) Hd Hr)
    as (k & e' & Hround & Hdk & He' & Hval).
  exists (inject_Z (Z.pos k) * pow2 e')%Q. split.
  - right. exists k, e'. split; [exact Hround|]. split; [exact Hdk|].
    split; [exact He' | reflexivity].
  - right. split; [exact Hpos|].
    apply (rounds53_ext _ _ _ _ (Qeq_sym _ _ Hv) (Qeq_refl _) Hval).
Qed.

(** ** Alignment and [binary_round] *)

Lemma iter_xO m d : Z.pos (Pos.iter xO m d) = Z.pos m * 2 ^ Z.pos d.
Proof.
  change (Pos.iter xO m d) with (shift_pos d m).
  rewrite shift_pos_correct. change (Z.pow_pos 2 d) with (2 ^ Z.pos d). lia.
Qed.

Lemma shl_align_spec mx ex ex' :
  ex' <= ex ->
  exists mz, shl_align mx ex ex' = (mz, ex') /\ Z.pos mz = Z.pos mx * 2 ^ (ex - ex').
Proof.
  intros Hle. unfold shl_align. destruct (ex' - ex) as [|d|d] eqn:E; [| lia |].
  - exists mx. assert (ex' = ex) as -> by lia. rewrite Z.sub_diag. simpl. split; [reflexivity | lia].
  - exists (Pos.iter xO mx d). split; [reflexivity|].
    rewrite iter_xO. replace (ex - ex') with (Z.pos d) by lia. reflexivity.
Qed.

Lemma shl_align_id mx ex ex' : ex <= ex' -> shl_align mx ex ex' = (mx, ex).
Proof.
  intros Hle. unfold shl_align. destruct (ex' - ex) as [|d|d] eqn:E; [reflexivity | reflexivity | lia].
Qed.

Lemma binary_round_normal m e :
  -1074 <= Z.pos (digits2_pos m) + e - 53 <= 970 ->
  exists k e',
    binary_round 53 1024 false m e = S754_finite false k e'
    /\ Z.pos (digits2_pos k) = 53 /\ -1074 <= e' <= 971
    /\ rounds53 (inject_Z (Z.pos m) * pow2 e) (inject_Z (Z.pos k) * pow2 e').
Proof.
  intros Hr. unfold binary_round. rewrite fexp_normal by lia.
  pose proof (digits2_pos_spec m) as Hm.
  set (d := Z.pos (digits2_pos m)) in *.
  destruct (Z.le_gt_cases 53 d) as [Hge | Hlt].
  - rewrite shl_align_id by lia.
    apply (binary_round_aux_normal m e loc_Exact (inject_Z (Z.pos m)));
      [simpl; reflexivity | exact Hge | exact Hr].
  - destruct (shl_align_spec m e (d + e - 53) ltac:(lia)) as (mz & -> & Hmz).
    replace (e - (d + e - 53)) with (53 - d) in Hmz by lia.
    assert (Hp : 0 < 2 ^ (53 - d)) by (apply Z.pow_pos_nonneg; lia).
    assert (Hdz : Z.pos (digits2_pos mz) = 53).
    { apply digits2_pos_unique. rewrite Hmz. change (53 - 1) with 52.
      assert (E1 : 2 ^ 52 = 2 ^ (d - 1) * 2 ^ (53 - d)).
      { rewrite <- pow2_split by lia. f_equal. lia. }
      assert (E2 : 2 ^ 53 = 2 ^ d * 2 ^ (53 - d)).
      { rewrite <- pow2_split by lia. f_equal. lia. }
      rewrite E1, E2. destruct Hm as [Hm1 Hm2]. split.
      - apply Z.mul_le_mono_nonneg_r; [lia | exact Hm1].
      - apply Z.mul_lt_mono_pos_r; [exact Hp | exact Hm2]. }
    destruct (binary_round_aux_normal mz (d + e - 53) loc_Exact (inject_Z (Z.pos mz))
                ltac:(simpl; reflexivity) ltac:(lia) ltac:(lia))
      as (k & e' & Hround & Hdk & He' & Hval).
    exists k, e'. split; [exact Hround|]. split; [exact Hdk|]. split; [exact He'|].
    refine (rounds53_ext _ _ _ _ _ (Qeq_refl _) Hval).
    rewrite Hmz, inject_Z_mult, <- (pow2_Z (53 - d)) by lia.
    rewrite <- Qmult_assoc, <- pow2_add. replace (53 - d + (d + e - 53)) with e by lia.
    reflexivity.
Qed.

(** ** Conversion of an unsigned integer *)

Lemma binary_normalize_sfval n :
  0 <= n < 2 ^ 64 ->
  exists q, sfval (binary_normalize 53 1024 n 0 false) q /\ rnd (inject_Z n) q.
Proof.
  intros Hn. destruct n as [|p|p]; [| |lia].
  - exists 0%Q. split; left; split; reflexivity.
  - simpl binary_normalize.
    assert (Hd : 1 <= Z.pos (digits2_pos p) <= 64).
    { pose proof (digits2_pos_spec p) as Hp. split; [lia|].
      destruct (Z.le_gt_cases (Z.pos (digits2_pos p)) 64) as [|Hgt]; [assumption|].
      pose proof (Z.pow_le_mono_r 2 64 (Z.pos (digits2_pos p) - 1) ltac:(lia) ltac:(lia)). lia. }
    destruct (binary_round_normal p 0 ltac:(lia)) as (k & e' & Hround & Hdk & He' & Hval).
    exists (inject_Z (Z.pos k) * pow2 e')%Q. split.
    + right. exists k, e'. rewrite Hround. split; [reflexivity|]. split; [exact Hdk|].
      split; [exact He' | reflexivity].
    + right. split.
      * change 0%Q with (inject_Z 0). rewrite <- Zlt_Qlt. lia.
      * refine (rounds53_ext _ _ _ _ _ (Qeq_refl _) Hval).
        rewrite pow2_0. ring.
Qed.

(** ** Addition *)

Lemma SFadd_sfval x y qx qy :
  sfval x qx -> sfval y qy ->
  ((qx + qy == 0)%Q \/ (pow2 (-1022) <= qx + qy /\ qx + qy <= pow2 1022)%Q) ->
  exists q, sfval (SFadd 53 1024 x y) q /\ rnd (qx + qy) q.
Proof.
  intros Hx Hy Hrange.
  pose proof (sfval_rnd_self _ _ Hx) as Hsx. pose proof (sfval_rnd_self _ _ Hy) as Hsy.
  pose proof Hx as Hx'. pose proof Hy as Hy'.
  destruct Hx as [[-> Hqx] | (mx & ex & -> & Hdx & Hex & Hqx)].
  { exists qy. split.
    - destruct Hy as [[-> Hqy] | (my & ey & -> & Hy)]; [left; auto|].
      right. exists my, ey. split; [reflexivity | exact Hy].
    - apply (rnd_ext qy _ qy); [rewrite Hqx; ring | reflexivity | exact Hsy]. }
  destruct Hy as [[-> Hqy] | (my & ey & -> & Hdy & Hey & Hqy)].
  { exists qx. split; [exact Hx'|].
    apply (rnd_ext qx _ qx); [rewrite Hqy; ring | reflexivity | exact Hsx]. }
  pose proof (sfval_finite_range mx ex qx Hdx Hqx) as [Hx1 _].
  pose proof (sfval_finite_range my ey qy Hdy Hqy) as [Hy1 _].
  pose proof (pow2_pos (52 + ex)). pose proof (pow2_pos (52 + ey)).
  destruct Hrange as [Hzero | [Hlo Hhi]]; [lra|].
  unfold SFadd.
  set (ez := Z.min ex ey).
  destruct (shl_align_spec mx ex ez ltac:(lia)) as (ax & Hax & Hvx).
  destruct (shl_align_spec my ey ez ltac:(lia)) as (ay & Hay & Hvy).
  rewrite Hax, Hay. cbn [fst cond_Zopp].
  change (Z.pos ax + Z.pos ay) with (Z.pos (ax + ay)).
  cbn [binary_normalize].
  assert (Hp : forall a, 0 <= a -> 0 < 2 ^ a) by (intros; apply Z.pow_pos_nonneg; lia).
  assert (Hv : (qx + qy == inject_Z (Z.pos (ax + ay)) * pow2 ez)%Q).
  { rewrite Pos2Z.inj_add, inject_Z_plus, Hvx, Hvy, !inject_Z_mult.
    rewrite <- !pow2_Z by lia.
    rewrite Qmult_plus_distr_l, <- !Qmult_assoc, <- !pow2_add.
    replace (ex - ez + ez) with ex by lia. replace (ey - ez + ez) with ey by lia.
    rewrite Hqx, Hqy. reflexivity. }
  pose proof (range_digits _ _ _ Hv Hlo Hhi) as Hr.
  destruct (binary_round_normal (ax + ay) ez Hr) as (k & e' & Hround & Hdk & He' & Hval).
  exists (inject_Z (Z.pos k) * pow2 e')%Q. split.
  - right. exists k, e'. split; [exact Hround|]. split; [exact Hdk|].
    split; [exact He' | reflexivity].
  - right. split; [lra|].
    apply (rounds53_ext _ _ _ _ (Qeq_sym _ _ Hv) (Qeq_refl _) Hval).
Qed.

(** ** Division *)

Lemma new_location_located nb r q :
  0 <= r < nb ->
  located (inject_Z q + inject_Z r / inject_Z nb) q (new_location nb r).
Proof.
  intros [Hr0 Hr1].
  assert (HN : (0 < inject_Z nb)%Q).
  { change 0%Q with (inject_Z 0). rewrite <- Zlt_Qlt. lia. }
  assert (Hlt : forall c, (inject_Z r < c * inject_Z nb)%Q -> (inject_Z r / inject_Z nb < c)%Q).
  { intros c H. apply Qlt_shift_div_r; assumption. }
  assert (Hgt : forall c, (c * inject_Z nb < inject_Z r)%Q -> (c < inject_Z r / inject_Z nb)%Q).
  { intros c H. apply Qlt_shift_div_l; assumption. }
  assert (Hle : forall c, (inject_Z r <= c * inject_Z nb)%Q -> (inject_Z r / inject_Z nb <= c)%Q).
  { intros c H. apply Qle_shift_div_r; assumption. }
  assert (Hge : forall c, (c * inject_Z nb <= inject_Z r)%Q -> (c <= inject_Z r / inject_Z nb)%Q).
  { intros c H. apply Qle_shift_div_l; assumption. }
  assert (H2 : forall z, (inject_Z (2 * z) == 2 * inject_Z z)%Q).
  { intros z. rewrite inject_Z_mult. reflexivity. }
  assert (Hr0' : (0 <= inject_Z r)%Q).
  { change 0%Q with (inject_Z 0). rewrite <- Zle_Qle. exact Hr0. }
  assert (Hr1' : (inject_Z r < inject_Z nb)%Q) by (rewrite <- Zlt_Qlt; exact Hr1).
  assert (Hone : (inject_Z r / inject_Z nb < 1)%Q) by (apply Hlt; lra).
  assert (Hzero : r <> 0 -> (0 < inject_Z r / inject_Z nb)%Q).
  { intros Hne. apply Hgt. assert (0 < r) as Hpos by lia.
    rewrite Zlt_Qlt in Hpos. change (inject_Z 0) with 0%Q in Hpos. lra. }
  assert (Hhalf_lt : 2 * r < nb -> (inject_Z r / inject_Z nb < 1 # 2)%Q).
  { intros H. apply Hlt. rewrite Zlt_Qlt, H2 in H. lra. }
  assert (Hhalf_gt : nb < 2 * r -> ((1 # 2) < inject_Z r / inject_Z nb)%Q).
  { intros H. apply Hgt. rewrite Zlt_Qlt, H2 in H. lra. }
  assert (Hhalf_eq : 2 * r = nb -> (inject_Z r / inject_Z nb == 1 # 2)%Q).
  { intros H. assert (E : (inject_Z (2 * r) == inject_Z nb)%Q) by (rewrite H; reflexivity).
    rewrite H2 in E.
    assert (inject_Z r / inject_Z nb <= 1 # 2)%Q by (apply Hle; lra).
    assert ((1 # 2) <= inject_Z r / inject_Z nb)%Q by (apply Hge; lra).
    lra. }
  unfold new_location. destruct (Z.even nb) eqn:Heven.
  - unfold new_location_even. destruct (Z.eqb_spec r 0) as [->|Hne].
    + simpl. unfold Qdiv. change (inject_Z 0) with 0%Q. ring.
    + specialize (Hzero Hne).
      destruct (Z.compare_spec (2 * r) nb) as [E|E|E]; simpl.
      * rewrite (Hhalf_eq E). reflexivity.
      * specialize (Hhalf_lt E). lra.
      * specialize (Hhalf_gt E). lra.
  - unfold new_location_odd. destruct (Z.eqb_spec r 0) as [->|Hne].
    + simpl. unfold Qdiv. change (inject_Z 0) with 0%Q. ring.
    + specialize (Hzero Hne).
      assert (Hodd : 2 * r <> nb).
      { intros E. rewrite <- E, Z.even_mul in Heven. discriminate Heven. }
      destruct (Z.compare_spec (2 * r + 1) nb) as [E|E|E]; simpl.
      * assert (2 * r < nb) as E' by lia. specialize (Hhalf_lt E'). lra.
      * assert (2 * r < nb) as E' by lia. specialize (Hhalf_lt E'). lra.
      * assert (nb < 2 * r) as E' by lia. specialize (Hhalf_gt E'). lra.
Qed.

Lemma SFdiv_core_binary_normal mx ex my ey :
  Z.pos (digits2_pos mx) = 53 -> Z.pos (digits2_pos my) = 53 ->
  -1021 <= ex - ey ->
  exists q r,
    SFdiv_core_binary 53 1024 (Z.pos mx) ex (Z.pos my) ey
      = (q, ex - ey - 53, new_location (Z.pos my) r)
    /\ Z.pos mx * 2 ^ 53 = Z.pos my * q + r /\ 0 <= r < Z.pos my.
Proof.
  intros Hdx Hdy He. unfold SFdiv_core_binary.
  change (Zdigits2 (Z.pos mx)) with (Z.pos (digits2_pos mx)).
  change (Zdigits2 (Z.pos my)) with (Z.pos (digits2_pos my)).
  rewrite Hdx, Hdy. cbv zeta.
  rewrite fexp_normal by lia.
  replace (53 + ex - (53 + ey) - 53) with (ex - ey - 53) by lia.
  rewrite Z.min_l by lia.
  replace (ex - ey - (ex - ey - 53)) with 53 by lia. cbv iota.
  rewrite Z.shiftl_mul_pow2 by lia.
  pose proof (Z_div_mod (Z.pos mx * 2 ^ 53) (Z.pos my) ltac:(lia)) as Hdiv.
  destruct (Z.div_eucl (Z.pos mx * 2 ^ 53) (Z.pos my)) as [q r].
  exists q, r. split; [reflexivity | exact Hdiv].
Qed.

Lemma range_digits_located m e l y :
  located y (Z.pos m) l ->
  (pow2 (-1022) <= y * pow2 e)%Q -> (y * pow2 e <= pow2 1022)%Q ->
  -1074 <= Z.pos (digits2_pos m) + e - 53 <= 970.
Proof.
  intros Hloc Hlo Hhi. pose proof (located_bounds _ _ _ Hloc) as [Hy0 Hy1].
  pose proof (digits2_pos_spec m) as [Hm0 Hm1].
  pose proof (pow2_pos e) as Hpos.
  assert (H1 : (pow2 (Z.pos (digits2_pos m) - 1 + e) <= y * pow2 e)%Q).
  { rewrite <- pow2_scaled by lia.
    apply (Qle_trans _ (inject_Z (Z.pos m) * pow2 e)); [apply scaled_le; exact Hm0|].
    apply Qmult_le_compat_r; lra. }
  assert (H2 : (y * pow2 e < pow2 (Z.pos (digits2_pos m) + e))%Q).
  { rewrite <- pow2_scaled by lia. apply Qmult_lt_compat_r; [exact Hpos|].
    apply (Qlt_le_trans _ (inject_Z (Z.pos m) + 1)); [exact Hy1|].
    apply inject_Z_succ. exact Hm1. }
  assert (-1022 < Z.pos (digits2_pos m) + e) by (apply pow2_lt_inv; lra).
  assert (Z.pos (digits2_pos m) - 1 + e <= 1022) by (apply pow2_le_inv; lra).
  lia.
Qed.

Lemma SFdiv_sfval x y qx qy :
  sfval x qx -> sfval y qy -> (0 < qy)%Q ->
  ((qx / qy == 0)%Q \/ (pow2 (-1021) <= qx / qy /\ qx / qy <= pow2 1021)%Q) ->
  exists q, sfval (SFdiv 53 1024 x y) q /\ rnd (qx / qy) q.
Proof.
  intros Hx Hy Hypos Hrange.
  destruct (sfval_pos _ _ Hy Hypos) as (my & ey & -> & Hdy & Hey & Hqy).
  destruct Hx as [[-> Hqx] | (mx & ex & -> & Hdx & Hex & Hqx)].
  { exists 0%Q. split; [left; split; reflexivity|].
    left. split; [|reflexivity]. rewrite Hqx. unfold Qdiv. ring. }
  pose proof (sfval_finite_range mx ex qx Hdx Hqx) as [Hx1 Hx2].
  pose proof (sfval_finite_range my ey qy Hdy Hqy) as [Hy1 Hy2].
  pose proof (pow2_pos (52 + ex)) as Hpx.
  assert (Hxpos : (0 < qx)%Q) by lra.
  assert (Hpos : (0 < qx / qy)%Q).
  { apply Qlt_shift_div_l; [exact Hypos | lra]. }
  destruct Hrange as [Hzero | [Hlo Hhi]]; [lra|].
  (* the exponents *)
  assert (He : -1021 <= ex - ey).
  { assert (Hq : (qx / qy < pow2 (ex - ey + 1))%Q).
    { apply Qlt_shift_div_r; [exact Hypos|].
      apply (Qlt_le_trans _ (pow2 (53 + ex))); [exact Hx2|].
      apply (Qle_trans _ (pow2 (ex - ey + 1) * pow2 (52 + ey))).
      - rewrite <- pow2_add. apply pow2_le. lia.
      - apply Qmult_le_l; [apply pow2_pos | exact Hy1]. }
    assert (-1021 < ex - ey + 1); [|lia]. apply pow2_lt_inv. lra. }
  destruct (SFdiv_core_binary_normal mx ex my ey Hdx Hdy He)
    as (q & r & Hcore & Hdiv & Hr).
  unfold SFdiv. rewrite Hcore. cbv beta iota. change (xorb false false) with false.
  pose proof (digits2_pos_spec mx) as Hmx. rewrite Hdx in Hmx.
  pose proof (digits2_pos_spec my) as Hmy. rewrite Hdy in Hmy.
  change (53 - 1) with 52 in *.
  assert (Hq52 : 2 ^ 52 <= q).
  { destruct (Z.le_gt_cases (2 ^ 52) q) as [|Hlt]; [assumption|]. exfalso.
    assert (Z.pos my * q + r < Z.pos my * 2 ^ 52) by nia.
    assert (Z.pos my * 2 ^ 52 <= 2 ^ 52 * 2 ^ 53) by nia.
    assert (2 ^ 52 * 2 ^ 53 <= Z.pos mx * 2 ^ 53) by nia.
    lia. }
  destruct q as [|qp|qp]; [lia| |lia].
  set (y := (inject_Z (Z.pos qp) + inject_Z r / inject_Z (Z.pos my))%Q).
  assert (Hloc : located y (Z.pos qp) (new_location (Z.pos my) r))
    by (apply new_location_located; exact Hr).
  assert (HMY : (0 < inject_Z (Z.pos my))%Q).
  { change 0%Q with (inject_Z 0). rewrite <- Zlt_Qlt. lia. }
  assert (Hv : (y * pow2 (ex - ey - 53) == qx / qy)%Q).
  { assert (HA : (pow2 ex == pow2 (ex - ey - 53) * pow2 ey * pow2 53)%Q).
    { rewrite <- !pow2_add. replace (ex - ey - 53 + ey + 53) with ex by lia. reflexivity. }
    assert (HD : (inject_Z (Z.pos mx) * pow2 53
                  == inject_Z (Z.pos my) * inject_Z (Z.pos qp) + inject_Z r)%Q).
    { rewrite (pow2_Z 53) by lia. rewrite <- !inject_Z_mult, <- inject_Z_plus, Hdiv.
      reflexivity. }
    pose proof (pow2_pos ey) as Hpey.
    assert (HR : (qx / qy == (inject_Z (Z.pos mx) * pow2 53) * pow2 (ex - ey - 53)
                              / inject_Z (Z.pos my))%Q).
    { rewrite Hqx, Hqy, HA. field. split; lra. }
    rewrite HR, HD. unfold y. field. lra. }
  assert (Hd : 53 <= Z.pos (digits2_pos qp)).
  { apply digits2_pos_ge. change (53 - 1) with 52. exact Hq52. }
  assert (Hrd : -1074 <= Z.pos (digits2_pos qp) + (ex - ey - 53) - 53 <= 970).
  { apply (range_digits_located qp (ex - ey - 53) _ y Hloc); rewrite Hv.
    - apply (Qle_trans _ (pow2 (-1021))); [apply pow2_le; lia | exact Hlo].
    - apply (Qle_trans _ (pow2 1021)); [exact Hhi | apply pow2_le; lia]. }
  destruct (binary_round_aux_normal qp (ex - ey - 53) _ y Hloc Hd Hrd)
    as (k & e' & Hround & Hdk & He' & Hval).
  exists (inject_Z (Z.pos k) * pow2 e')%Q. split.
  - right. exists k, e'. split; [exact Hround|]. split; [exact Hdk|].
    split; [exact He' | reflexivity].
  - right. split; [exact Hpos|].
    exact (rounds53_ext _ _ _ _ Hv (Qeq_refl _) Hval).
Qed.

(** ** Comparison *)

Lemma SFcompare_sfval x y qx qy :
  sfval x qx -> sfval y qy -> SFcompare x y = Some (qx ?= qy)%Q.
Proof.
  intros Hx Hy.
  pose proof (sfval_nonneg _ _ Hx) as Hx0. pose proof (sfval_nonneg _ _ Hy) as Hy0.
  destruct Hx as [[-> Hqx] | (mx & ex & -> & Hdx & Hex & Hqx)];
    destruct Hy as [[-> Hqy] | (my & ey & -> & Hdy & Hey & Hqy)]; cbn [SFcompare].
  - f_equal. symmetry. apply (proj1 (Qeq_alt _ _)). lra.
  - pose proof (sfval_finite_range my ey qy Hdy Hqy). pose proof (pow2_pos (52 + ey)).
    f_equal. symmetry. apply (proj1 (Qlt_alt _ _)). lra.
  - pose proof (sfval_finite_range mx ex qx Hdx Hqx). pose proof (pow2_pos (52 + ex)).
    f_equal. symmetry. apply (proj1 (Qgt_alt _ _)). lra.
  - pose proof (sfval_finite_range mx ex qx Hdx Hqx) as [Hx1 Hx2].
    pose proof (sfval_finite_range my ey qy Hdy Hqy) as [Hy1 Hy2].
    f_equal. symmetry.
    destruct (Z.compare_spec ex ey) as [E|E|E].
    + subst ey. change (Pos.compare_cont Eq mx my) with (Pos.compare mx my).
      pose proof (pow2_pos ex) as Hp.
      destruct (Pos.compare_spec mx my) as [E|E|E].
      * apply (proj1 (Qeq_alt _ _)). rewrite Hqx, Hqy, E. reflexivity.
      * apply (proj1 (Qlt_alt _ _)). rewrite Hqx, Hqy. apply Qmult_lt_compat_r; [exact Hp|].
        rewrite <- Zlt_Qlt. lia.
      * apply (proj1 (Qgt_alt _ _)). rewrite Hqx, Hqy. apply Qmult_lt_compat_r; [exact Hp|].
        rewrite <- Zlt_Qlt. lia.
    + apply (proj1 (Qlt_alt _ _)). assert (pow2 (53 + ex) <= pow2 (52 + ey))%Q by (apply pow2_le; lia). lra.
    + apply (proj1 (Qgt_alt _ _)). assert (pow2 (53 + ey) <= pow2 (52 + ex))%Q by (apply pow2_le; lia). lra.
Qed.

Lemma SFltb_sfval x y qx qy :
  sfval x qx -> sfval y qy -> (SFltb x y = true <-> (qx < qy)%Q).
Proof.
  intros Hx Hy. unfold SFltb. rewrite (SFcompare_sfval x y qx qy Hx Hy).
  rewrite Qlt_alt. destruct (qx ?= qy)%Q; split; congruence.
Qed.

Lemma SFleb_sfval x y qx qy :
  sfval x qx -> sfval y qy -> (SFleb x y = true <-> (qx <= qy)%Q).
Proof.
  intros Hx Hy. unfold SFleb. rewrite (SFcompare_sfval x y qx qy Hx Hy).
  rewrite Qle_alt. destruct (qx ?= qy)%Q; split; congruence.
Qed.

Lemma small_weaken k k' q : k <= k' -> small k q -> small k' q.
Proof.
  intros Hk [H0 | [Hlo Hhi]]; [left; exact H0|]. right. split.
  - apply (Qle_trans _ (pow2 (- k))); [apply pow2_le; lia | exact Hlo].
  - apply (Qle_trans _ (pow2 k)); [exact Hhi | apply pow2_le; lia].
Qed.

Lemma small_rnd k x r : rnd x r -> small k x -> small k r.
Proof.
  intros Hrnd Hs. pose proof Hrnd as [[Hx Hr] | [Hx H]]; [left; exact Hr|].
  destruct Hs as [H0 | [Hlo Hhi]]; [lra|].
  right. exact (rnd_bounds _ _ _ _ Hrnd Hlo Hhi).
Qed.

Lemma small_nonneg k q : small k q -> (0 <= q)%Q.
Proof. intros [H0 | [Hlo _]]; [lra|]. pose proof (pow2_pos (- k)). lra. Qed.

Lemma small_mul k x y : small k x -> small k y -> small (2 * k) (x * y).
Proof.
  intros [Hx | [Hx0 Hx1]]; [left; rewrite Hx; ring|].
  intros [Hy | [Hy0 Hy1]]; [left; rewrite Hy; ring|].
  pose proof (pow2_pos (- k)) as Hp.
  right. split.
  - replace (- (2 * k)) with (- k + - k) by lia. rewrite pow2_add.
    apply Qmult_le_compat_nonneg; split; lra.
  - replace (2 * k) with (k + k) by lia. rewrite pow2_add.
    apply Qmult_le_compat_nonneg; split; lra.
Qed.

Lemma small_div k x y :
  small k x -> (pow2 (- k) <= y)%Q -> (y <= pow2 k)%Q -> small (2 * k) (x / y).
Proof.
  intros [Hx | [Hx0 Hx1]] Hy0 Hy1; [left; rewrite Hx; unfold Qdiv; ring|].
  pose proof (pow2_pos (- k)) as Hp. pose proof (pow2_pos k) as Hp'.
  assert (Hy : (0 < y)%Q) by lra.
  right. split.
  - apply Qle_shift_div_l; [exact Hy|].
    apply (Qle_trans _ (pow2 (- (2 * k)) * pow2 k)).
    + apply Qmult_le_l; [apply pow2_pos | exact Hy1].
    + rewrite <- pow2_add. replace (- (2 * k) + k) with (- k) by lia. exact Hx0.
  - apply Qle_shift_div_r; [exact Hy|].
    apply (Qle_trans _ (pow2 (2 * k) * pow2 (- k))).
    + rewrite <- pow2_add. replace (2 * k + - k) with k by lia. exact Hx1.
    + apply Qmult_le_l; [apply pow2_pos | exact Hy0].
Qed.

Lemma small_add k x y : 0 <= k -> small k x -> small k y -> small (k + 1) (x + y).
Proof.
  intros Hk Hx Hy.
  pose proof (small_nonneg _ _ Hx) as Hx'. pose proof (small_nonneg _ _ Hy) as Hy'.
  pose proof (pow2_pos (- k)) as Hp.
  assert (Hlo : (pow2 (- (k + 1)) <= pow2 (- k))%Q) by (apply pow2_le; lia).
  assert (Hhi : (pow2 (k + 1) == 2 * pow2 k)%Q).
  { rewrite pow2_add. change (pow2 1) with 2%Q. ring. }
  assert (H1 : (pow2 (- k) <= pow2 k)%Q) by (apply pow2_le; lia).
  destruct Hx as [Hx | [Hx0 Hx1]], Hy as [Hy | [Hy0 Hy1]].
  - left. lra.
  - right. lra.
  - right. lra.
  - right. lra.
Qed.

(** ** The operations on primitive floats *)

Lemma mul_fval x y qx qy :
  fval x qx -> fval y qy ->
  ((qx * qy == 0)%Q \/ (pow2 (-1022) <= qx * qy /\ qx * qy <= pow2 1022)%Q) ->
  exists q, fval (x * y)%float q /\ rnd (qx * qy) q.
Proof.
  intros Hx Hy Hr. unfold fval. rewrite mul_spec. exact (SFmul_sfval _ _ _ _ Hx Hy Hr).
Qed.

Lemma add_fval x y qx qy :
  fval x qx -> fval y qy ->
  ((qx + qy == 0)%Q \/ (pow2 (-1022) <= qx + qy /\ qx + qy <= pow2 1022)%Q) ->
  exists q, fval (x + y)%float q /\ rnd (qx + qy) q.
Proof.
  intros Hx Hy Hr. unfold fval. rewrite add_spec. exact (SFadd_sfval _ _ _ _ Hx Hy Hr).
Qed.

Lemma div_fval x y qx qy :
  fval x qx -> fval y qy -> (0 < qy)%Q ->
  ((qx / qy == 0)%Q \/ (pow2 (-1021) <= qx / qy /\ qx / qy <= pow2 1021)%Q) ->
  exists q, fval (x / y)%float q /\ rnd (qx / qy) q.
Proof.
  intros Hx Hy Hpos Hr. unfold fval. rewrite div_spec.
  exact (SFdiv_sfval _ _ _ _ Hx Hy Hpos Hr).
Qed.

Lemma ltb_fval x y qx qy :
  fval x qx -> fval y qy -> ((x <? y)%float = true <-> (qx < qy)%Q).
Proof. intros Hx Hy. rewrite ltb_spec. exact (SFltb_sfval _ _ _ _ Hx Hy). Qed.

Lemma leb_fval x y qx qy :
  fval x qx -> fval y qy -> ((x <=? y)%float = true <-> (qx <= qy)%Q).
Proof. intros Hx Hy. rewrite leb_spec. exact (SFleb_sfval _ _ _ _ Hx Hy). Qed.

Lemma double_of_idx_fval n :
  0 <= n < 2 ^ 64 ->
  exists q, fval (double_of_idx n) q /\ rnd (inject_Z n) q /\ small 64 q
            /\ (0 < n -> (pow2 (-64) <= q /\ q <= pow2 64)%Q).
Proof.
  intros Hn. destruct (binary_normalize_sfval n Hn) as (q & Hq & Hrnd).
  exists q. split.
  { unfold fval, double_of_idx. rewrite Prim2SF_SF2Prim; [exact Hq|].
    exact (sfval_valid _ _ Hq). }
  split; [exact Hrnd|].
  assert (Hpos : 0 < n -> (pow2 (-64) <= q /\ q <= pow2 64)%Q).
  { intros Hp. apply (rnd_bounds (inject_Z n)); [exact Hrnd | |].
    - apply (Qle_trans _ (pow2 0)); [apply pow2_le; lia|].
      rewrite (pow2_Z 0) by lia. rewrite <- Zle_Qle. simpl. lia.
    - rewrite (pow2_Z 64) by lia. rewrite <- Zle_Qle. lia. }
  split; [|exact Hpos].
  destruct (Z.eq_dec n 0) as [->|Hne].
  - left. destruct Hrnd as [[_ H] | [H _]]; [exact H|]. discriminate H.
  - right. apply Hpos. lia.
Qed.

Lemma fle_weaken k k' x x' : k <= k' -> fle k x x' -> fle k' x x'.
Proof.
  intros Hk (q & q' & Hx & Hx' & Hs & Hs' & Hle). exists q, q'.
  repeat split; auto; apply (small_weaken k k'); assumption.
Qed.

Lemma fle_refl k x q : fval x q -> small k q -> fle k x x.
Proof. intros Hx Hs. exists q, q. repeat split; auto. apply Qle_refl. Qed.

Lemma fle_leb k x x' : fle k x x' -> (x <=? x')%float = true.
Proof.
  intros (q & q' & Hx & Hx' & _ & _ & Hle). apply (leb_fval x x' q q' Hx Hx'). exact Hle.
Qed.

Lemma small_range k q :
  k <= 1021 -> small k q ->
  (q == 0)%Q \/ (pow2 (-1021) <= q /\ q <= pow2 1021)%Q.
Proof. intros Hk H. exact (small_weaken k 1021 q Hk H). Qed.

Lemma small_range' k q :
  k <= 1021 -> small k q ->
  (q == 0)%Q \/ (pow2 (-1022) <= q /\ q <= pow2 1022)%Q.
Proof. intros Hk H. exact (small_weaken k 1022 q ltac:(lia) H). Qed.

Lemma of_idx_fle n n' :
  0 <= n -> n <= n' -> n' < 2 ^ 64 -> fle 64 (double_of_idx n) (double_of_idx n').
Proof.
  intros H0 Hle Hhi.
  destruct (double_of_idx_fval n ltac:(lia)) as (q & Hq & Hrnd & Hs & _).
  destruct (double_of_idx_fval n' ltac:(lia)) as (q' & Hq' & Hrnd' & Hs' & _).
  exists q, q'. repeat split; auto.
  apply (rnd_mono _ _ _ _ Hrnd Hrnd'). rewrite <- Zle_Qle. exact Hle.
Qed.

Lemma dmul_fle k x x' y y' :
  2 * k <= 1021 -> fle k x x' -> fle k y y' -> fle (2 * k) (x * y)%float (x' * y')%float.
Proof.
  intros Hk (qx & qx' & Hx & Hx' & Hsx & Hsx' & Hlex) (qy & qy' & Hy & Hy' & Hsy & Hsy' & Hley).
  pose proof (small_mul k qx qy Hsx Hsy) as Hs.
  pose proof (small_mul k qx' qy' Hsx' Hsy') as Hs'.
  destruct (mul_fval x y qx qy Hx Hy (small_range' _ _ Hk Hs)) as (q & Hq & Hrnd).
  destruct (mul_fval x' y' qx' qy' Hx' Hy' (small_range' _ _ Hk Hs')) as (q' & Hq' & Hrnd').
  exists q, q'. split; [exact Hq|]. split; [exact Hq'|].
  split; [exact (small_rnd _ _ _ Hrnd Hs)|]. split; [exact (small_rnd _ _ _ Hrnd' Hs')|].
  apply (rnd_mono _ _ _ _ Hrnd Hrnd').
  pose proof (small_nonneg _ _ Hsx). pose proof (small_nonneg _ _ Hsy).
  apply Qmult_le_compat_nonneg; split; assumption.
Qed.

Lemma dadd_fle k x x' y y' :
  0 <= k -> k + 1 <= 1021 -> fle k x x' -> fle k y y' ->
  fle (k + 1) (x + y)%float (x' + y')%float.
Proof.
  intros Hk0 Hk (qx & qx' & Hx & Hx' & Hsx & Hsx' & Hlex)
    (qy & qy' & Hy & Hy' & Hsy & Hsy' & Hley).
  pose proof (small_add k qx qy Hk0 Hsx Hsy) as Hs.
  pose proof (small_add k qx' qy' Hk0 Hsx' Hsy') as Hs'.
  destruct (add_fval x y qx qy Hx Hy (small_range' _ _ Hk Hs)) as (q & Hq & Hrnd).
  destruct (add_fval x' y' qx' qy' Hx' Hy' (small_range' _ _ Hk Hs')) as (q' & Hq' & Hrnd').
  exists q, q'. split; [exact Hq|]. split; [exact Hq'|].
  split; [exact (small_rnd _ _ _ Hrnd Hs)|]. split; [exact (small_rnd _ _ _ Hrnd' Hs')|].
  apply (rnd_mono _ _ _ _ Hrnd Hrnd'). lra.
Qed.

Lemma ddiv_fle k x x' y qy :
  2 * k <= 1021 -> fle k x x' -> fval y qy ->
  (pow2 (- k) <= qy)%Q -> (qy <= pow2 k)%Q ->
  fle (2 * k) (x / y)%float (x' / y)%float.
Proof.
  intros Hk (qx & qx' & Hx & Hx' & Hsx & Hsx' & Hlex) Hy Hy0 Hy1.
  pose proof (pow2_pos (- k)) as Hp.
  assert (Hypos : (0 < qy)%Q) by lra.
  pose proof (small_div k qx qy Hsx Hy0 Hy1) as Hs.
  pose proof (small_div k qx' qy Hsx' Hy0 Hy1) as Hs'.
  destruct (div_fval x y qx qy Hx Hy Hypos (small_range _ _ Hk Hs)) as (q & Hq & Hrnd).
  destruct (div_fval x' y qx' qy Hx' Hy Hypos (small_range _ _ Hk Hs')) as (q' & Hq' & Hrnd').
  exists q, q'. split; [exact Hq|]. split; [exact Hq'|].
  split; [exact (small_rnd _ _ _ Hrnd Hs)|]. split; [exact (small_rnd _ _ _ Hrnd' Hs')|].
  apply (rnd_mono _ _ _ _ Hrnd Hrnd').
  unfold Qdiv. apply Qmult_le_compat_r; [exact Hlex|].
  apply Qlt_le_weak, Qinv_lt_0_compat. exact Hypos.
Qed.

Lemma std_min_fle k a x x' qa :
  fval a qa -> small k qa -> fle k x x' ->
  fle k (std_min binary64 a x) (std_min binary64 a x').
Proof.
  intros Ha Hsa (q & q' & Hx & Hx' & Hs & Hs' & Hle).
  unfold std_min. cbn [dltb binary64].
  pose proof (ltb_fval x a q qa Hx Ha) as H1.
  pose proof (ltb_fval x' a q' qa Hx' Ha) as H2.
  destruct (x <? a)%float eqn:E1, (x' <? a)%float eqn:E2.
  - exists q, q'. auto 10.
  - exists q, qa. repeat split; auto.
    apply Qlt_le_weak, H1. reflexivity.
  - exists qa, q'. repeat split; auto.
    assert (~ (q < qa)%Q) by (intros H; apply H1 in H; discriminate).
    assert (q' < qa)%Q by (apply H2; reflexivity). lra.
  - exists qa, qa. repeat split; auto. apply Qle_refl.
Qed.

Lemma fle_zero k x x' : 0 <= k -> fle k x x' -> fle k (double_of_idx 0) x'.
Proof.
  intros Hk (q & q' & _ & Hx' & _ & Hs' & _).
  destruct (double_of_idx_fval 0 ltac:(lia)) as (q0 & Hq0 & Hrnd & _).
  assert (H0 : (q0 == 0)%Q).
  { destruct Hrnd as [[_ H] | [H _]]; [exact H | discriminate H]. }
  exists q0, q'. split; [exact Hq0|]. split; [exact Hx'|].
  split; [left; exact H0|]. split; [exact Hs'|].
  rewrite H0. exact (small_nonneg _ _ Hs').
Qed.

Lemma std_min_le k a x qa :
  fval a qa -> small k qa -> fle k x x -> fle k (std_min binary64 a x) a.
Proof.
  intros Ha Hsa (q & _ & Hx & _ & Hs & _).
  unfold std_min. cbn [dltb binary64].
  pose proof (ltb_fval x a q qa Hx Ha) as H1.
  destruct (x <? a)%float eqn:E1.
  - exists q, qa. repeat split; auto. apply Qlt_le_weak, H1. reflexivity.
  - exists qa, qa. repeat split; auto. apply Qle_refl.
Qed.

(** The progress within a file does not decrease when its counter grows, and
    lies between 0 and 1. *)
Lemma file_progress_fle f f' :
  file_size f' = file_size f -> 0 <= file_size f < IDX_MODULUS ->
  0 <= bytes_read f -> bytes_read f <= bytes_read f' -> bytes_read f' < IDX_MODULUS ->
  fle 128 (file_progress binary64 f) (file_progress binary64 f')
  /\ fle 128 (file_progress binary64 f') (double_of_idx 1).
Proof.
  intros Hsz Hfs Hbr Hle Hbr'. unfold IDX_MODULUS in *.
  destruct (double_of_idx_fval 1 ltac:(lia)) as (q1 & Hq1 & _ & Hs1 & _).
  assert (Hone : fle 128 (double_of_idx 1) (double_of_idx 1)).
  { apply (fle_refl 128 _ q1 Hq1). apply (small_weaken 64); [lia | exact Hs1]. }
  unfold file_progress. rewrite Hsz. cbn [of_idx ddiv binary64].
  destruct (Z.eqb_spec (file_size f) 0) as [E|E]; [split; exact Hone|].
  destruct (double_of_idx_fval (file_size f) ltac:(lia)) as (qs & Hqs & _ & _ & Hpos).
  destruct (Hpos ltac:(lia)) as [Hs0 Hs1'].
  pose proof (of_idx_fle (bytes_read f) (bytes_read f') Hbr Hle Hbr') as Hread.
  pose proof (ddiv_fle 64 _ _ _ qs ltac:(lia) Hread Hqs Hs0 Hs1') as Hdiv.
  change (2 * 64) with 128 in Hdiv.
  assert (Hsm1 : small 128 q1) by (apply (small_weaken 64); [lia | exact Hs1]).
  split.
  - exact (std_min_fle 128 _ _ _ q1 Hq1 Hsm1 Hdiv).
  - destruct Hdiv as (q & q' & Hx & Hx' & Hs & Hs' & Hqq).
    apply (std_min_le 128 _ _ q1 Hq1 Hsm1).
    exists q', q'. repeat split; auto. apply Qle_refl.
Qed.

(** The percentage does not decrease when the file index or the progress
    within the file grows. *)
Lemma percentage_of_fle idx idx' n p p' :
  0 <= idx -> idx <= idx' -> idx' < IDX_MODULUS -> 0 < n < IDX_MODULUS ->
  fle 128 p p' ->
  fle 514 (percentage_of binary64 idx n p) (percentage_of binary64 idx' n p').
Proof.
  intros Hidx Hle Hidx' Hn Hp. unfold IDX_MODULUS in *.
  unfold percentage_of. cbn [of_idx ddiv dmul dadd binary64].
  destruct (double_of_idx_fval n ltac:(lia)) as (qn & Hqn & _ & _ & Hpos).
  destruct (Hpos ltac:(lia)) as [Hn0 Hn1].
  pose proof (ddiv_fle 64 _ _ _ qn ltac:(lia) (of_idx_fle idx idx' Hidx Hle Hidx') Hqn Hn0 Hn1)
    as HA.
  pose proof (ddiv_fle 64 _ _ _ qn ltac:(lia) (of_idx_fle 1 1 ltac:(lia) ltac:(lia) ltac:(lia))
                Hqn Hn0 Hn1) as HB.
  change (2 * 64) with 128 in HA, HB.
  pose proof (dmul_fle 128 _ _ _ _ ltac:(lia) HB Hp) as HBp.
  change (2 * 128) with 256 in HBp.
  pose proof (dadd_fle 256 _ _ _ _ ltac:(lia) ltac:(lia)
                (fle_weaken 128 256 _ _ ltac:(lia) HA) HBp) as Hsum.
  change (256 + 1) with 257 in Hsum.
  pose proof (dmul_fle 257 _ _ _ _ ltac:(lia) Hsum
                (fle_weaken 64 257 _ _ ltac:(lia)
                   (of_idx_fle 100 100 ltac:(lia) ltac:(lia) ltac:(lia)))) as Hall.
  exact Hall.
Qed.

Lemma fval_double_value f q : fval f q -> (double_value f == q)%Q.
Proof.
  unfold fval, double_value.
  intros [[-> Hq] | (m & e & -> & _ & _ & Hq)]; rewrite Hq; reflexivity.
Qed.

Lemma sfval_unique s q q' : sfval s q -> sfval s q' -> (q == q')%Q.
Proof.
  intros [[-> Hq] | (m & e & -> & _ & _ & Hq)] [[H' Hq'] | (m' & e' & H' & _ & _ & Hq')];
    try discriminate.
  - rewrite Hq, Hq'. reflexivity.
  - injection H' as <- <-. rewrite Hq, Hq'. reflexivity.
Qed.

Lemma rne_error y m l :
  located y m l ->
  (inject_Z (round_nearest_even m l) - y <= 1 # 2
   /\ y - inject_Z (round_nearest_even m l) <= 1 # 2)%Q.
Proof.
  assert (H1 : (inject_Z (m + 1) == inject_Z m + 1)%Q).
  { rewrite inject_Z_plus. reflexivity. }
  destruct l as [|[| |]]; simpl; intros H; try destruct (Z.even m); try rewrite H1; lra.
Qed.

Lemma rounds53_error x r :
  rounds53 x r -> (x * (1 - half_ulp) <= r /\ r * (1 - half_ulp) <= x)%Q.
Proof.
  intros (m & e & l & Hloc & Hm & Hr).
  pose proof (rne_error _ _ _ Hloc) as [He1 He2].
  pose proof (located_bounds _ _ _ Hloc) as [Hy0 Hy1].
  pose proof (rne_bounds m l) as Hk.
  pose proof (pow2_pos e) as Hp.
  set (y := (x * pow2 (- e))%Q) in *.
  set (k := round_nearest_even m l) in *.
  assert (HM : (4503599627370496 <= inject_Z m)%Q).
  { change (4503599627370496%Q) with (inject_Z (2 ^ 52)). rewrite <- Zle_Qle. lia. }
  assert (HK : (inject_Z m <= inject_Z k)%Q) by (rewrite <- Zle_Qle; lia).
  assert (Hx : (x == y * pow2 e)%Q) by (symmetry; apply unscale).
  clearbody y k. unfold half_ulp. rewrite Hr, Hx. split.
  - assert (E : (y * pow2 e * (1 - (1 # 9007199254740992))
                 == (y * (1 - (1 # 9007199254740992))) * pow2 e)%Q) by ring.
    rewrite E. apply Qmult_le_compat_r; lra.
  - assert (E : (inject_Z k * pow2 e * (1 - (1 # 9007199254740992))
                 == (inject_Z k * (1 - (1 # 9007199254740992))) * pow2 e)%Q) by ring.
    rewrite E. apply Qmult_le_compat_r; lra.
Qed.

Lemma rnd_error x r :
  rnd x r -> (x * (1 - half_ulp) <= r /\ r * (1 - half_ulp) <= x)%Q.
Proof.
  intros [[Hx Hr] | [_ H]]; [rewrite Hx, Hr; split; lra|].
  exact (rounds53_error _ _ H).
Qed.

Lemma roundings_pos k : (0 < roundings k /\ roundings k <= 1)%Q.
Proof.
  induction k as [|k [IH1 IH2]]; simpl; [lra|].
  unfold half_ulp. split.
  - apply Qmult_lt_0_compat; lra.
  - assert ((1 - (1 # 9007199254740992)) * roundings k <= 1 * roundings k)%Q; [|lra].
    apply Qmult_le_compat_r; lra.
Qed.

Lemma roundings_add a b : (roundings (a + b) == roundings a * roundings b)%Q.
Proof.
  induction a as [|a IH]; simpl; [ring|]. rewrite IH. ring.
Qed.

Lemma roundings_le a b : (a <= b)%nat -> (roundings b <= roundings a)%Q.
Proof.
  intros H. replace b with (a + (b - a))%nat by lia. rewrite roundings_add.
  pose proof (roundings_pos a) as [Ha _]. pose proof (roundings_pos (b - a)) as [_ Hb].
  assert (roundings a * roundings (b - a) <= roundings a * 1)%Q; [|lra].
  apply Qmult_le_l; assumption.
Qed.

Lemma near_weaken a b x q : (a <= b)%nat -> near a x q -> near b x q.
Proof.
  intros Hab (Hx & Hq & H1 & H2). pose proof (roundings_le a b Hab) as Hle.
  pose proof (roundings_pos b) as [Hb _].
  split; [exact Hx|]. split; [exact Hq|]. split.
  - apply (Qle_trans _ (x * roundings a)); [|exact H1].
    rewrite Qmult_comm, (Qmult_comm x). apply Qmult_le_compat_r; assumption.
  - apply (Qle_trans _ (q * roundings a)); [|exact H2].
    rewrite Qmult_comm, (Qmult_comm q). apply Qmult_le_compat_r; assumption.
Qed.

Lemma near_rnd k x y r : near k x y -> rnd y r -> near (S k) x r.
Proof.
  intros (Hx & Hy & H1 & H2) Hrnd.
  pose proof (rnd_error _ _ Hrnd) as [He1 He2].
  pose proof (rnd_nonneg _ _ Hrnd) as [_ Hr].
  pose proof (roundings_pos k) as [Hk _].
  assert (Hd : (0 <= 1 - half_ulp)%Q) by (unfold half_ulp; lra).
  split; [exact Hx|]. split; [exact Hr|]. simpl. split.
  - apply (Qle_trans _ (y * (1 - half_ulp))); [|exact He1].
    assert (E : (x * ((1 - half_ulp) * roundings k) == x * roundings k * (1 - half_ulp))%Q)
      by ring.
    rewrite E. apply Qmult_le_compat_r; assumption.
  - apply (Qle_trans _ (y * roundings k)); [|exact H2].
    assert (E : (r * ((1 - half_ulp) * roundings k) == r * (1 - half_ulp) * roundings k)%Q)
      by ring.
    rewrite E. apply Qmult_le_compat_r; [exact He2 | lra].
Qed.

Lemma near_mul a b x y p q : near a x p -> near b y q -> near (a + b) (x * y) (p * q).
Proof.
  intros (Hx & Hp & H1 & H2) (Hy & Hq & H3 & H4).
  pose proof (roundings_pos a) as [Ha _]. pose proof (roundings_pos b) as [Hb _].
  split; [apply Qmult_le_0_compat; assumption|].
  split; [apply Qmult_le_0_compat; assumption|].
  rewrite roundings_add. split.
  - assert (E : (x * y * (roundings a * roundings b)
                 == (x * roundings a) * (y * roundings b))%Q) by ring.
    rewrite E. apply Qmult_le_compat_nonneg; split; try assumption;
      apply Qmult_le_0_compat; lra.
  - assert (E : (p * q * (roundings a * roundings b)
                 == (p * roundings a) * (q * roundings b))%Q) by ring.
    rewrite E. apply Qmult_le_compat_nonneg; split; try assumption;
      apply Qmult_le_0_compat; lra.
Qed.

Lemma near_div_aux x p y q da db :
  (0 <= x)%Q -> (x * da <= p)%Q -> (0 < y)%Q -> (0 < q)%Q -> (0 < da)%Q -> (0 < db)%Q ->
  (q * db <= y)%Q ->
  (x / y * (da * db) <= p / q)%Q.
Proof.
  intros Hx H1 Hy Hq Hda Hdb H2.
  assert (Hxda : (0 <= x * da)%Q) by (apply Qmult_le_0_compat; lra).
  assert (E : (x / y * (da * db) == (x * da) * (db / y))%Q) by (field; lra).
  assert (Hdy : (0 <= db / y)%Q).
  { apply Qle_shift_div_l; [exact Hy | lra]. }
  assert (Hle : (db / y <= / q)%Q).
  { apply Qle_shift_div_r; [exact Hy|].
    assert (E' : (/ q * y == y / q)%Q) by (unfold Qdiv; ring).
    rewrite E'. apply Qle_shift_div_l; [exact Hq | lra]. }
  rewrite E. apply (Qle_trans _ (p * (db / y))).
  - apply Qmult_le_compat_r; assumption.
  - unfold Qdiv at 2. rewrite (Qmult_comm p (db / y)), (Qmult_comm p (/ q)).
    apply Qmult_le_compat_r; [exact Hle | lra].
Qed.

Lemma near_div a b x y p q :
  near a x p -> near b y q -> (0 < y)%Q -> (0 < q)%Q -> near (a + b) (x / y) (p / q).
Proof.
  intros (Hx & Hp & H1 & H2) (Hy & Hq & H3 & H4) Hypos Hqpos.
  pose proof (roundings_pos a) as [Ha _]. pose proof (roundings_pos b) as [Hb _].
  split. { apply Qle_shift_div_l; [exact Hypos | lra]. }
  split. { apply Qle_shift_div_l; [exact Hqpos | lra]. }
  rewrite roundings_add. split.
  - apply near_div_aux; assumption.
  - apply near_div_aux; assumption.
Qed.

Lemma near_add k x y p q : near k x p -> near k y q -> near k (x + y) (p + q).
Proof.
  intros (Hx & Hp & H1 & H2) (Hy & Hq & H3 & H4).
  split; [lra|]. split; [lra|]. split.
  - rewrite Qmult_plus_distr_l. lra.
  - rewrite Qmult_plus_distr_l. lra.
Qed.

Lemma near_exact x : (0 <= x)%Q -> near 0 x x.
Proof. intros H. split; [exact H|]. split; [exact H|]. simpl. split; lra. Qed.

Lemma near_ext k x x' q q' : (x == x')%Q -> (q == q')%Q -> near k x q -> near k x' q'.
Proof.
  intros Ex Eq (H0 & H1 & H2 & H3). unfold near. rewrite <- Ex, <- Eq. auto.
Qed.

Lemma tracks_weaken k k' e e' x f :
  k <= k' -> (e <= e')%nat -> tracks k e x f -> tracks k' e' x f.
Proof.
  intros Hk He (q & Hq & Hs & Hn). exists q. split; [exact Hq|].
  split; [exact (small_weaken k k' q Hk Hs) | exact (near_weaken e e' x q He Hn)].
Qed.

Lemma of_idx_tracks n :
  0 <= n < 2 ^ 64 -> tracks 64 1 (inject_Z n) (double_of_idx n).
Proof.
  intros Hn. destruct (double_of_idx_fval n Hn) as (q & Hq & Hrnd & Hs & _).
  exists q. split; [exact Hq|]. split; [exact Hs|].
  apply (near_rnd 0 _ (inject_Z n)); [|exact Hrnd].
  apply near_exact. change 0%Q with (inject_Z 0). rewrite <- Zle_Qle. lia.
Qed.

Lemma dmul_tracks k a b x y f g :
  2 * k <= 1021 -> tracks k a x f -> tracks k b y g ->
  tracks (2 * k) (S (a + b)) (x * y) (f * g)%float.
Proof.
  intros Hk (p & Hp & Hsp & Hnp) (q & Hq & Hsq & Hnq).
  pose proof (small_mul k p q Hsp Hsq) as Hs.
  destruct (mul_fval f g p q Hp Hq (small_range' _ _ Hk Hs)) as (r & Hr & Hrnd).
  exists r. split; [exact Hr|]. split; [exact (small_rnd _ _ _ Hrnd Hs)|].
  exact (near_rnd _ _ _ _ (near_mul a b x y p q Hnp Hnq) Hrnd).
Qed.

Lemma dadd_tracks k a x y f g :
  0 <= k -> k + 1 <= 1021 -> tracks k a x f -> tracks k a y g ->
  tracks (k + 1) (S a) (x + y) (f + g)%float.
Proof.
  intros Hk0 Hk (p & Hp & Hsp & Hnp) (q & Hq & Hsq & Hnq).
  pose proof (small_add k p q Hk0 Hsp Hsq) as Hs.
  destruct (add_fval f g p q Hp Hq (small_range' _ _ Hk Hs)) as (r & Hr & Hrnd).
  exists r. split; [exact Hr|]. split; [exact (small_rnd _ _ _ Hrnd Hs)|].
  exact (near_rnd _ _ _ _ (near_add a x y p q Hnp Hnq) Hrnd).
Qed.

Lemma ddiv_tracks k a b x y f g :
  2 * k <= 1021 -> (0 < y)%Q -> tracks k a x f -> tracks k b y g ->
  tracks (2 * k) (S (a + b)) (x / y) (f / g)%float.
Proof.
  intros Hk Hy (p & Hp & Hsp & Hnp) (q & Hq & Hsq & Hnq).
  assert (Hqpos : (0 < q)%Q).
  { destruct Hnq as (_ & _ & H & _). pose proof (roundings_pos b) as [Hb _].
    apply (Qlt_le_trans _ (y * roundings b)); [|exact H].
    apply Qmult_lt_0_compat; assumption. }
  destruct Hsq as [H0 | [Hq0 Hq1]]; [lra|].
  pose proof (small_div k p q Hsp Hq0 Hq1) as Hs.
  destruct (div_fval f g p q Hp Hq Hqpos (small_range _ _ Hk Hs)) as (r & Hr & Hrnd).
  exists r. split; [exact Hr|]. split; [exact (small_rnd _ _ _ Hrnd Hs)|].
  exact (near_rnd _ _ _ _ (near_div a b x y p q Hnp Hnq Hy Hqpos) Hrnd).
Qed.

(** The percentage, up to 8 roundings. *)
Lemma percentage_of_tracks i n p xp :
  0 <= i < IDX_MODULUS -> 0 < n < IDX_MODULUS -> tracks 128 1 xp p ->
  tracks 514 8 ((inject_Z i / inject_Z n + 1 / inject_Z n * xp) * 100)
    (percentage_of binary64 i n p).
Proof.
  intros Hi Hn Hp. unfold IDX_MODULUS in *.
  unfold percentage_of. cbn [of_idx ddiv dmul dadd binary64].
  assert (HN : (0 < inject_Z n)%Q).
  { change 0%Q with (inject_Z 0). rewrite <- Zlt_Qlt. lia. }
  pose proof (ddiv_tracks 64 1 1 _ _ _ _ ltac:(lia) HN
                (of_idx_tracks i ltac:(lia)) (of_idx_tracks n ltac:(lia))) as HA.
  pose proof (ddiv_tracks 64 1 1 _ _ _ _ ltac:(lia) HN
                (of_idx_tracks 1 ltac:(lia)) (of_idx_tracks n ltac:(lia))) as HB.
  change (2 * 64) with 128 in HA, HB. change (S (1 + 1)) with 3%nat in HA, HB.
  pose proof (dmul_tracks 128 3 1 _ _ _ _ ltac:(lia) HB Hp) as HBp.
  change (2 * 128) with 256 in HBp. change (S (3 + 1)) with 5%nat in HBp.
  pose proof (dadd_tracks 256 5 _ _ _ _ ltac:(lia) ltac:(lia)
                (tracks_weaken 128 256 3 5 _ _ ltac:(lia) ltac:(lia) HA) HBp) as Hsum.
  change (256 + 1) with 257 in Hsum.
  pose proof (dmul_tracks 257 6 1 _ _ _ _ ltac:(lia) Hsum
                (tracks_weaken 64 257 1 1 _ _ ltac:(lia) ltac:(lia)
                   (of_idx_tracks 100 ltac:(lia)))) as Hall.
  change (2 * 257) with 514 in Hall. change (S (6 + 1)) with 8%nat in Hall.
  exact Hall.
Qed.

Lemma roundings_16 : (1 - (1 # 562949953421312) <= roundings 16)%Q.
Proof. vm_compute. discriminate. Qed.

(** ** [GetProgress] *)

Section Progress.

Variable ext : Externals.
Hypothesis Hkeeps : keeps_file ext.


Lemma deref_alter h w p f :
  deref w p = Ok f -> deref (set_heap (alter h p (heap w)) w) p = Ok (h f).
Proof.
  intros Hf. apply deref_Ok in Hf. apply deref_Ok.
  change (heap (set_heap (alter h p (heap w)) w)) with (alter h p (heap w)).
  rewrite list_lookup_alter_eq, Hf. reflexivity.
Qed.

Lemma deref_alter_ne h w q p :
  q <> p -> deref (set_heap (alter h q (heap w)) w) p = deref w p.
Proof.
  intros Hne. unfold deref.
  change (heap (set_heap (alter h q (heap w)) w)) with (alter h q (heap w)).
  rewrite list_lookup_alter_ne by exact Hne. reflexivity.
Qed.

Lemma GetProgress_eq D g w p f :
  back (file_scans g) = Ok p -> deref w p = Ok f ->
  GetProgress D g w =
    Ok (percentage_of D (GetFileIdx (current_boundary g))
          (vector_size (files (bind_data g))) (file_progress D f)).
Proof. intros Hp Hf. unfold GetProgress. rewrite Hp. simpl. rewrite Hf. reflexivity. Qed.

Lemma new_progress_inv w bm opts t bd s0 :
  world_typed w ->
  (forall b, bm = Some b -> 0 <= bm_file_size b) ->
  vector_size (files bd) < IDX_MODULUS ->
  CSVGlobalState_new ext w bm opts t (files bd) bd = Ok s0 ->
  progress_inv s0.
Proof.
  intros Hw Hbm Hsize Hnew. destruct s0 as [g0 w0].
  apply CSVGlobalState_new_inv in Hnew
    as (first & scan & Hfirst & -> & Hidx & Hpath & Hread & Hfs & Hsrc & ->).
  cbv zeta. unfold progress_inv. simpl.
  split; [exact Hw|]. split; [exact Hsize|].
  exists (length (heap w)), scan.
  split; [reflexivity|].
  split. { exact (deref_make_shared scan w). }
  split; [lia|].
  split. { rewrite Hfs. destruct Hsrc as [-> | E]; [apply Hw | apply Hbm; exact E]. }
  split. { rewrite Hidx. destruct (_ || _); reflexivity. }
  rewrite Hidx. unfold vector_size.
  apply lookup_lt_Some in Hfirst. lia.
Qed.

(** How a step moves the cursor and the file at the back of [file_scans]:
    within the file its counter does not decrease, or the cursor moves to the
    next file. *)
Lemma step_advance a g w g' w' :
  progress_inv (g, w) ->
  step ext a (g, w) = Ok (g', w') ->
  progress_inv (g', w')
  /\ bind_data g' = bind_data g
  /\ exists p f p' f',
       back (file_scans g) = Ok p /\ deref w p = Ok f
       /\ back (file_scans g') = Ok p' /\ deref w' p' = Ok f'
       /\ ((GetFileIdx (current_boundary g') = GetFileIdx (current_boundary g)
            /\ file_size f' = file_size f /\ bytes_read f <= bytes_read f')
           \/ GetFileIdx (current_boundary g') = GetFileIdx (current_boundary g) + 1).
Proof.
  intros (Hw & Hsize & p & f & Hp & Hf & Hbr & Hfs & Hcur & Hidx) Hstep.
  simpl in *.
  assert (Hsame : forall g' w', world_typed w' ->
            bind_data g' = bind_data g -> file_scans g' = file_scans g ->
            current_boundary g' = current_boundary g ->
            deref w' p = Ok f ->
            progress_inv (g', w') /\ bind_data g' = bind_data g
            /\ exists p0 f0 p' f',
                 back (file_scans g) = Ok p0 /\ deref w p0 = Ok f0
                 /\ back (file_scans g') = Ok p' /\ deref w' p' = Ok f'
                 /\ ((GetFileIdx (current_boundary g') = GetFileIdx (current_boundary g)
                      /\ file_size f' = file_size f0 /\ bytes_read f0 <= bytes_read f')
                     \/ GetFileIdx (current_boundary g') = GetFileIdx (current_boundary g) + 1)).
  { intros g1 w1 Hw1 Hbd Hscans Hcb Hd.
    split.
    - unfold progress_inv. simpl. rewrite Hbd, Hscans, Hcb.
      split; [exact Hw1|]. split; [exact Hsize|]. exists p, f. auto 10.
    - split; [exact Hbd|]. exists p, f, p, f. rewrite Hscans, Hcb.
      repeat split; auto. left. repeat split; auto. lia. }
  destruct a as [|thread|q n|q line error]; simpl in Hstep.
  - (* Next *)
    apply bind_Ok in Hstep as ([[ret g1] w1] & Hnext & Hstep).
    injection Hstep as <- <-. simpl.
    pose proof (Next_frame ext _ _ _ _ _ Hnext)
      as (Hbd & Hmode & _ & _ & (extra & Hheap) & _ & _ & _ & Hfsys & _).
    assert (Hw1 : world_typed w1).
    { unfold world_typed. rewrite Hfsys. exact Hw. }
    assert (Hd1 : deref w1 p = Ok f).
    { apply deref_Ok. rewrite Hheap. apply lookup_app_l_Some. apply deref_Ok. exact Hf. }
    destruct (single_threaded g) eqn:Hst.
    + rewrite (Next_single_threaded ext g w Hst) in Hnext. cbv zeta in Hnext.
      apply Hsame; auto.
      * destruct (_ <=? _); [injection Hnext as <- <- <-; reflexivity|].
        destruct (_ =? _).
        -- apply bind_Ok in Hnext as (? & _ & Hnext). injection Hnext as <- <- <-. reflexivity.
        -- apply bind_Ok in Hnext as (? & _ & Hnext). injection Hnext as <- <- <-. reflexivity.
      * destruct (_ <=? _); [injection Hnext as <- <- <-; reflexivity|].
        destruct (_ =? _).
        -- apply bind_Ok in Hnext as (? & _ & Hnext). injection Hnext as <- <- <-. reflexivity.
        -- apply bind_Ok in Hnext as (? & _ & Hnext). injection Hnext as <- <- <-. reflexivity.
    + destruct (Next_parallel ext g w ret g1 w1 Hst Hnext)
        as [Hfin -> -> | p1 f1 has_next boundary Hp1 Hf1 Hit Hscans Hcb -> 
            | p1 f1 boundary path Hp1 Hf1 Hit Hlt Hpath Hscans -> Hcb].
      * apply Hsame; auto.
      * rewrite Hp in Hp1. injection Hp1 as <-. rewrite Hf in Hf1. injection Hf1 as <-.
        assert (Hfile : GetFileIdx (current_boundary g1) = GetFileIdx (current_boundary g)).
        { rewrite Hcb. pose proof (Hkeeps (buffer_manager f) (current_boundary g)) as Hk.
          rewrite Hit in Hk. exact Hk. }
        split.
        -- unfold progress_inv. simpl. rewrite Hbd, Hscans, Hfile.
           split; [exact Hw|]. split; [exact Hsize|]. exists p, f. auto 10.
        -- split; [exact Hbd|]. exists p, f, p, f. rewrite Hscans.
           repeat split; auto. left. repeat split; auto. lia.
      * rewrite Hp in Hp1. injection Hp1 as <-. rewrite Hf in Hf1. injection Hf1 as <-.
        assert (Hwrap : wrap (file_idx f + 1) = file_idx f + 1).
        { apply wrap_idx. unfold is_idx. lia. }
        rewrite Hwrap in *.
        set (fnew := CSVFileScan_open w path (file_idx f + 1)) in *.
        assert (Hdn : deref (set_heap (heap w ++ [fnew]) w) (length (heap w)) = Ok fnew)
          by exact (deref_make_shared fnew w).
        split.
        -- unfold progress_inv. simpl. rewrite Hbd, Hscans, Hcb.
           split; [exact Hw1|]. split; [exact Hsize|].
           exists (length (heap w)), fnew.
           split; [apply back_snoc|]. split; [exact Hdn|].
           subst fnew. simpl. split; [lia|]. split; [apply Hw|].
           split; [reflexivity|]. lia.
        -- split; [exact Hbd|]. exists p, f, (length (heap w)), fnew.
           rewrite Hscans, Hcb. split; [exact Hp|]. split; [exact Hf|].
           split; [apply back_snoc|]. split; [exact Hdn|].
           right. unfold GetFileIdx in *. simpl. lia.
  - (* DecrementThread *)
    apply DecrementThread_frame in Hstep as (-> & Hheap & Hfsys & _).
    apply Hsame; auto.
    + unfold world_typed. rewrite Hfsys. exact Hw.
    + apply deref_Ok. rewrite Hheap. apply deref_Ok. exact Hf.
  - (* a worker reads bytes *)
    injection Hstep as <- <-.
    destruct (decide (q = p)) as [->|Hne].
    + assert (Hd : deref (set_heap (alter (read_bytes n) p (heap w)) w) p
                   = Ok (read_bytes n f)).
      { apply deref_alter. exact Hf. }
      assert (Hrb : file_size (read_bytes n f) = file_size f
                    /\ file_idx (read_bytes n f) = file_idx f
                    /\ bytes_read f <= bytes_read (read_bytes n f)).
      { unfold read_bytes. destruct (Z.leb_spec 0 n); simpl; [|repeat split; lia].
        destruct (_ <? _); simpl; repeat split; lia. }
      destruct Hrb as (Hrs & Hri & Hrr).
      split.
      * unfold progress_inv. simpl. split; [exact Hw|]. split; [exact Hsize|].
        exists p, (read_bytes n f). rewrite Hrs, Hri. repeat split; auto; lia.
      * split; [reflexivity|]. exists p, f, p, (read_bytes n f).
        repeat split; auto.
    + apply Hsame; auto. rewrite deref_alter_ne by exact Hne. exact Hf.
  - (* a worker records an error *)
    injection Hstep as <- <-.
    destruct (decide (q = p)) as [->|Hne].
    + assert (Hd : deref (set_heap (alter (record_error line error) p (heap w)) w) p
                   = Ok (record_error line error f)).
      { apply deref_alter. exact Hf. }
      split.
      * unfold progress_inv. simpl. split; [exact Hw|]. split; [exact Hsize|].
        exists p, (record_error line error f). simpl. repeat split; auto; lia.
      * split; [reflexivity|]. exists p, f, p, (record_error line error f).
        repeat split; auto. left. simpl. repeat split; auto. lia.
    + apply Hsame; auto. rewrite deref_alter_ne by exact Hne. exact Hf.
Qed.

Lemma run_progress_inv trace : forall s s',
  progress_inv s -> run ext trace s = Ok s' -> progress_inv s'.
Proof.
  induction trace as [|a trace IH]; intros s s' Hinv Hrun; simpl in Hrun.
  - injection Hrun as <-. exact Hinv.
  - apply bind_Ok in Hrun as (s1 & Hstep & Hrun).
    destruct s as [g w], s1 as [g1 w1].
    apply (IH (g1, w1)); [|exact Hrun].
    apply (step_advance a g w g1 w1 Hinv Hstep).
Qed.

Lemma reachable_progress_inv s : reachable ext s -> progress_inv s.
Proof.
  intros (w0 & bm & opts & t & bd & s0 & trace & Hw & Hbm & Hsize & Hnew & Hrun).
  apply (run_progress_inv trace s0); [|exact Hrun].
  exact (new_progress_inv w0 bm opts t bd s0 Hw Hbm Hsize Hnew).
Qed.

Lemma reachable_run s trace s' :
  reachable ext s -> run ext trace s = Ok s' -> reachable ext s'.
Proof.
  intros (w0 & bm & opts & t & bd & s0 & trace0 & Hw & Hbm & Hsize & Hnew & Hrun0) Hrun.
  exists w0, bm, opts, t, bd, s0, (trace0 ++ trace).
  repeat split; auto. rewrite run_app, Hrun0. exact Hrun.
Qed.

(** [Next] leaves the heap as it is or adds the context of a file it opens. *)
Lemma Next_heap g w ret g' w' :
  Next ext g w = Ok (ret, g', w') ->
  heap w' = heap w
  \/ exists path i, heap w' = heap w ++ [CSVFileScan_open w path i].
Proof.
  intros H. destruct (single_threaded g) eqn:Hmode.
  - rewrite (Next_single_threaded ext g w Hmode) in H. cbv zeta in H.
    destruct (vector_size (files (bind_data g)) <=? last_file_idx g).
    { injection H as <- <- <-. left. reflexivity. }
    destruct (last_file_idx g =? 0).
    + apply bind_Ok in H as (p & _ & H). injection H as <- <- <-. left. reflexivity.
    + apply bind_Ok in H as (path & _ & H). injection H as <- <- <-. simpl.
      right. eexists _, _. reflexivity.
  - unfold Next in H. rewrite Hmode in H.
    destruct (finished g).
    { injection H as <- <- <-. left. reflexivity. }
    apply bind_Ok in H as (p & _ & H). apply bind_Ok in H as (f & _ & H).
    destruct (CSVIterator_Next ext _ _) as [has_next boundary].
    destruct has_next; simpl in H.
    + injection H as <- <- <-. left. reflexivity.
    + destruct (_ <? _).
      * apply bind_Ok in H as (path & _ & H). unfold make_shared in H. cbv zeta in H.
        apply bind_Ok in H as (f' & _ & H). injection H as <- <- <-.
        simpl. right. eexists _, _. reflexivity.
      * injection H as <- <- <-. left. reflexivity.
Qed.

(** Sizes and counters stay [idx_t] values. *)
Lemma step_sizes_typed a g w g' w' :
  sizes_typed w -> step ext a (g, w) = Ok (g', w') -> sizes_typed w'.
Proof.
  intros [Hfs Hheap] Hstep.
  destruct a as [|thread|q n|q line error]; simpl in Hstep.
  - apply bind_Ok in Hstep as ([[ret g1] w1] & Hnext & Hstep).
    injection Hstep as <- <-.
    pose proof (Next_frame ext _ _ _ _ _ Hnext) as (_ & _ & _ & _ & _ & _ & _ & _ & Hfsys & _).
    split; [rewrite Hfsys; exact Hfs|].
    destruct (Next_heap _ _ _ _ _ Hnext) as [-> | (path & i & ->)]; [exact Hheap|].
    apply Forall_app. split; [exact Hheap|].
    constructor; [|constructor]. simpl. split; [apply Hfs | unfold IDX_MODULUS; lia].
  - apply DecrementThread_frame in Hstep as (_ & Hh & Hfsys & _).
    split; [rewrite Hfsys; exact Hfs | rewrite Hh; exact Hheap].
  - injection Hstep as <- <-. split; [exact Hfs|]. simpl.
    apply Forall_alter; [exact Hheap|].
    intros f _ [H1 H2]. unfold read_bytes.
    destruct (0 <=? n); simpl; [|auto].
    destruct (Z.ltb_spec (bytes_read f + n) IDX_MODULUS); simpl; auto.
  - injection Hstep as <- <-. split; [exact Hfs|]. simpl.
    apply Forall_alter; [exact Hheap|].
    intros f _ [H1 H2]. simpl. auto.
Qed.

(** Over any steps the cursor does not move back, and while it stays in a
    file the counter of that file does not decrease. *)
Lemma run_advance trace : forall g w g' w',
  progress_inv (g, w) -> sizes_typed w ->
  run ext trace (g, w) = Ok (g', w') ->
  progress_inv (g', w') /\ sizes_typed w'
  /\ bind_data g' = bind_data g
  /\ exists p f p' f',
       back (file_scans g) = Ok p /\ deref w p = Ok f
       /\ back (file_scans g') = Ok p' /\ deref w' p' = Ok f'
       /\ GetFileIdx (current_boundary g) <= GetFileIdx (current_boundary g')
       /\ (GetFileIdx (current_boundary g') = GetFileIdx (current_boundary g) ->
           file_size f' = file_size f /\ bytes_read f <= bytes_read f').
Proof.
  induction trace as [|a trace IH]; intros g w g' w' Hinv Hsz Hrun; simpl in Hrun.
  - injection Hrun as <- <-.
    split; [exact Hinv|]. split; [exact Hsz|]. split; [reflexivity|].
    destruct Hinv as (_ & _ & p & f & Hp & Hf & _). simpl in *.
    exists p, f, p, f. repeat split; auto; lia.
  - apply bind_Ok in Hrun as ([g1 w1] & Hstep & Hrun).
    destruct (step_advance a g w g1 w1 Hinv Hstep)
      as (Hinv1 & Hbd1 & p & f & p1 & f1 & Hp & Hf & Hp1 & Hf1 & Hadv).
    pose proof (step_sizes_typed a g w g1 w1 Hsz Hstep) as Hsz1.
    destruct (IH g1 w1 g' w' Hinv1 Hsz1 Hrun)
      as (Hinv' & Hsz' & Hbd' & q1 & h1 & p' & f' & Hq1 & Hh1 & Hp' & Hf' & Hle & Hsame).
    rewrite Hp1 in Hq1. injection Hq1 as <-. rewrite Hf1 in Hh1. injection Hh1 as <-.
    split; [exact Hinv'|]. split; [exact Hsz'|]. split; [congruence|].
    exists p, f, p', f'. split; [exact Hp|]. split; [exact Hf|].
    split; [exact Hp'|]. split; [exact Hf'|].
    destruct Hadv as [(Hidx & Hsize & Hread) | Hnext].
    + split; [lia|]. intros E. destruct Hsame as [Hs Hr]; [lia|]. split; [congruence | lia].
    + split; [lia|]. intros E. lia.
Qed.

Lemma sizes_typed_deref w p f :
  sizes_typed w -> deref w p = Ok f ->
  file_size f < IDX_MODULUS /\ bytes_read f < IDX_MODULUS.
Proof.
  intros [_ Hheap] Hf. apply deref_Ok in Hf.
  exact (proj1 (Forall_lookup _ _) Hheap p f Hf).
Qed.

(** How far the value can drop: each of the at most 8 roundings of the formula
    changes its value by a factor of at least [1 - 2^-53], and before rounding
    the value does not decrease. *)
Lemma run_drop_bound trace s s' :
  reachable ext s -> sizes_typed (snd s) ->
  run ext trace s = Ok s' ->
  exists v v',
    GetProgress binary64 (fst s) (snd s) = Ok v
    /\ GetProgress binary64 (fst s') (snd s') = Ok v'
    /\ ((1 - (1 # 562949953421312)) * double_value v <= double_value v')%Q.
Proof.
  intros Hreach Hsz Hrun. destruct s as [g w], s' as [g' w']. simpl in *.
  pose proof (reachable_progress_inv _ Hreach) as Hinv.
  destruct (run_advance trace g w g' w' Hinv Hsz Hrun)
    as (Hinv' & Hsz' & Hbd & p & f & p' & f' & Hp & Hf & Hp' & Hf' & Hle & Hsame).
  destruct Hinv as (_ & Hn & q & h & Hq & Hh & Hbr & Hfs & Hcur & Hidx). simpl in *.
  rewrite Hp in Hq. injection Hq as <-. rewrite Hf in Hh. injection Hh as <-.
  destruct Hinv' as (_ & _ & q' & h' & Hq' & Hh' & Hbr' & Hfs' & Hcur' & Hidx'). simpl in *.
  rewrite Hp' in Hq'. injection Hq' as <-. rewrite Hf' in Hh'. injection Hh' as <-.
  destruct (sizes_typed_deref w p f Hsz Hf) as [Hfsm Hbrm].
  destruct (sizes_typed_deref w' p' f' Hsz' Hf') as [Hfsm' Hbrm'].
  rewrite Hbd in Hidx'.
  rewrite (GetProgress_eq binary64 g w p f Hp Hf).
  rewrite (GetProgress_eq binary64 g' w' p' f' Hp' Hf'). rewrite Hbd.
  eexists _, _. split; [reflexivity|]. split; [reflexivity|].
  set (n := vector_size (files (bind_data g))) in *.
  set (i := GetFileIdx (current_boundary g)) in *.
  set (i' := GetFileIdx (current_boundary g')) in *.
  destruct (file_progress_fle f f eq_refl ltac:(lia) Hbr ltac:(lia) Hbrm) as [Hff Hf1].
  destruct (file_progress_fle f' f' eq_refl ltac:(lia) Hbr' ltac:(lia) Hbrm') as [Hff' Hf1'].
  destruct (Z.eq_dec i' i) as [E|E].
  - destruct (Hsame E) as [Hsize Hread].
    destruct (file_progress_fle f f' Hsize ltac:(lia) Hbr Hread Hbrm') as [Hmono _].
    rewrite E.
    destruct (percentage_of_fle i i n _ _ ltac:(lia) ltac:(lia) ltac:(lia) ltac:(lia) Hmono)
      as (qv & qv' & Hv & Hv' & Hs & _ & Hvv).
    rewrite (fval_double_value _ _ Hv), (fval_double_value _ _ Hv').
    pose proof (small_nonneg _ _ Hs) as H0.
    apply (Qle_trans _ qv); [|exact Hvv].
    assert ((1 - (1 # 562949953421312)) * qv <= 1 * qv)%Q; [|lra].
    apply Qmult_le_compat_r; [lra | exact H0].
  - assert (Hlt : i < i') by lia.
    destruct (percentage_of_fle i i n _ _ ltac:(lia) ltac:(lia) ltac:(lia) ltac:(lia) Hf1)
      as (qv & qa & Hv & Ha & Hs & _ & Hva).
    destruct (percentage_of_fle (i + 1) i' n _ _ ltac:(lia) ltac:(lia) ltac:(lia) ltac:(lia)
                (fle_zero 128 _ _ ltac:(lia) Hff'))
      as (qb & qv' & Hb & Hv' & _ & _ & Hbv).
    rewrite (fval_double_value _ _ Hv), (fval_double_value _ _ Hv').
    pose proof (small_nonneg _ _ Hs) as H0.
    assert (HN : (0 < inject_Z n)%Q).
    { change 0%Q with (inject_Z 0). rewrite <- Zlt_Qlt. lia. }
    destruct (percentage_of_tracks i n (double_of_idx 1) (inject_Z 1)
                ltac:(lia) ltac:(lia)
                (tracks_weaken 64 128 1 1 _ _ ltac:(lia) ltac:(lia)
                   (of_idx_tracks 1 ltac:(lia))))
      as (qa' & Ha' & _ & (_ & _ & _ & Hna)).
    destruct (percentage_of_tracks (i + 1) n (double_of_idx 0) (inject_Z 0)
                ltac:(unfold IDX_MODULUS in *; lia) ltac:(lia)
                (tracks_weaken 64 128 1 1 _ _ ltac:(lia) ltac:(lia)
                   (of_idx_tracks 0 ltac:(lia))))
      as (qb' & Hb' & _ & (_ & _ & Hnb & _)).
    pose proof (sfval_unique _ _ _ Ha Ha') as Ea.
    pose proof (sfval_unique _ _ _ Hb Hb') as Eb.
    rewrite <- Ea in Hna. rewrite <- Eb in Hnb.
    assert (EX : ((inject_Z (i + 1) / inject_Z n + 1 / inject_Z n * inject_Z 0) * 100
                  == (inject_Z i / inject_Z n + 1 / inject_Z n * inject_Z 1) * 100)%Q).
    { rewrite inject_Z_plus. change (inject_Z 1) with 1%Q. change (inject_Z 0) with 0%Q.
      field. lra. }
    rewrite EX in Hnb.
    pose proof (roundings_pos 8) as [H8 _].
    pose proof roundings_16 as H16.
    assert (E16 : (roundings 16 == roundings 8 * roundings 8)%Q)
      by exact (roundings_add 8 8).
    set (X := ((inject_Z i / inject_Z n + 1 / inject_Z n * inject_Z 1) * 100)%Q) in *.
    assert (Hab : (qa * roundings 16 <= qb)%Q).
    { rewrite E16. apply (Qle_trans _ (X * roundings 8)); [|exact Hnb].
      rewrite Qmult_assoc. apply Qmult_le_compat_r; [exact Hna | lra]. }
    apply (Qle_trans _ qb); [|exact Hbv].
    apply (Qle_trans _ (qa * roundings 16)); [|exact Hab].
    apply (Qle_trans _ (qv * roundings 16)).
    + rewrite (Qmult_comm qv (roundings 16)).
      apply Qmult_le_compat_r; [exact H16 | exact H0].
    + apply Qmult_le_compat_r; [exact Hva | lra].
Qed.

(** C5, as it holds of the double returned. [CSVIterator::Next] is taken to
    keep the cursor's file index ([keeps_file]), and sizes and counters are
    [idx_t] values ([sizes_typed]). Over any sequence of steps of the
    coordinator and its workers from a reachable state (calls of [Next],
    increases of [bytes_read], recorded errors, calls of [DecrementThread]):
    the cursor's file index does not decrease; while it is the same, the
    double [GetProgress] returns does not decrease; once the cursor has left
    file [i] of [n], the value returned before was at most
    [(i/n + 1/n * 1) * 100] and the value returned after is at least
    [((i+1)/n + 1/n * 0) * 100], both as binary64 computes them, two roundings
    of the same number; and in every case the real number the value returned
    stands for is at least [1 - 2^-49] times the one of the value returned
    before. *)
Theorem GetProgress_monotone_in_file trace s s' :
  reachable ext s -> sizes_typed (snd s) ->
  run ext trace s = Ok s' ->
  exists v v',
    GetProgress binary64 (fst s) (snd s) = Ok v
    /\ GetProgress binary64 (fst s') (snd s') = Ok v'
    /\ GetFileIdx (current_boundary (fst s)) <= GetFileIdx (current_boundary (fst s'))
    /\ (GetFileIdx (current_boundary (fst s')) = GetFileIdx (current_boundary (fst s)) ->
        PrimFloat.leb v v' = true)
    /\ (GetFileIdx (current_boundary (fst s)) < GetFileIdx (current_boundary (fst s')) ->
        PrimFloat.leb v
          (percentage_of binary64 (GetFileIdx (current_boundary (fst s)))
             (vector_size (files (bind_data (fst s)))) (double_of_idx 1)) = true
        /\ PrimFloat.leb
             (percentage_of binary64 (GetFileIdx (current_boundary (fst s)) + 1)
                (vector_size (files (bind_data (fst s)))) (double_of_idx 0))
             v' = true)
    /\ ((1 - (1 # 562949953421312)) * double_value v <= double_value v')%Q.
Proof.
  intros Hreach Hsz Hrun.
  destruct (run_drop_bound trace s s' Hreach Hsz Hrun) as (v0 & v0' & Hv0 & Hv0' & Hdrop).
  destruct s as [g w], s' as [g' w']. simpl in *.
  pose proof (reachable_progress_inv _ Hreach) as Hinv.
  destruct (run_advance trace g w g' w' Hinv Hsz Hrun)
    as (Hinv' & Hsz' & Hbd & p & f & p' & f' & Hp & Hf & Hp' & Hf' & Hle & Hsame).
  destruct Hinv as (_ & Hn & q & h & Hq & Hh & Hbr & Hfs & Hcur & Hidx). simpl in *.
  rewrite Hp in Hq. injection Hq as <-. rewrite Hf in Hh. injection Hh as <-.
  destruct Hinv' as (_ & _ & q' & h' & Hq' & Hh' & Hbr' & Hfs' & Hcur' & Hidx'). simpl in *.
  rewrite Hp' in Hq'. injection Hq' as <-. rewrite Hf' in Hh'. injection Hh' as <-.
  destruct (sizes_typed_deref w p f Hsz Hf) as [Hfsm Hbrm].
  destruct (sizes_typed_deref w' p' f' Hsz' Hf') as [Hfsm' Hbrm'].
  rewrite Hbd in Hidx'.
  exists v0, v0'. split; [exact Hv0|]. split; [exact Hv0'|].
  rewrite (GetProgress_eq binary64 g w p f Hp Hf) in Hv0. injection Hv0 as <-.
  rewrite (GetProgress_eq binary64 g' w' p' f' Hp' Hf') in Hv0'. injection Hv0' as <-.
  rewrite Hbd in *.
  split; [exact Hle|].
  set (n := vector_size (files (bind_data g))) in *.
  destruct (file_progress_fle f f eq_refl ltac:(lia) Hbr ltac:(lia) Hbrm) as [Hff Hf1].
  destruct (file_progress_fle f' f' eq_refl ltac:(lia) Hbr' ltac:(lia) Hbrm') as [Hff' Hf1'].
  split; [|split; [|exact Hdrop]].
  - intros E. destruct (Hsame E) as [Hsize Hread].
    destruct (file_progress_fle f f' Hsize ltac:(lia) Hbr Hread Hbrm') as [Hmono _].
    rewrite E. apply (fle_leb 514).
    apply percentage_of_fle; [lia | lia | lia | lia | exact Hmono].
  - intros Hlt. split.
    + apply (fle_leb 514).
      apply percentage_of_fle; [lia | lia | lia | lia | exact Hf1].
    + apply (fle_leb 514).
      apply percentage_of_fle; [lia | lia | lia | lia |].
      exact (fle_zero 128 _ _ ltac:(lia) Hff').
Qed.

Lemma run_sizes_typed trace : forall g w g' w',
  sizes_typed w -> run ext trace (g, w) = Ok (g', w') -> sizes_typed w'.
Proof.
  induction trace as [|a trace IH]; intros g w g' w' Hsz Hrun; simpl in Hrun.
  - injection Hrun as <- <-. exact Hsz.
  - apply bind_Ok in Hrun as ([g1 w1] & Hstep & Hrun).
    exact (IH g1 w1 g' w' (step_sizes_typed a g w g1 w1 Hsz Hstep) Hrun).
Qed.

Lemma new_sizes_typed w bm opts t fs bd g0 w0 :
  sizes_typed w ->
  (forall b, bm = Some b -> bm_file_size b < IDX_MODULUS) ->
  CSVGlobalState_new ext w bm opts t fs bd = Ok (g0, w0) ->
  sizes_typed w0.
Proof.
  intros [Hfs Hheap] Hbm Hnew.
  apply CSVGlobalState_new_inv in Hnew
    as (first & scan & _ & -> & _ & _ & Hread & Hsize & Hsrc & _).
  split; [exact Hfs|]. simpl.
  apply Forall_app. split; [exact Hheap|].
  constructor; [|constructor]. rewrite Hsize, Hread.
  split; [|unfold IDX_MODULUS; lia].
  destruct Hsrc as [-> | E]; [apply Hfs | apply Hbm; exact E].
Qed.

(** X23. The range of the double returned. In every reachable state whose
    sizes and counters are [idx_t] values, [GetProgress] returns the
    percentage for the cursor's file index and the progress within the file at
    the back of [file_scans]; that progress is 1.0 when the file's
    [file_size] is 0; and the double returned lies between 0 and the value the
    formula has for the last file fully read, [((n-1)/n + 1/n * 1) * 100] as
    binary64 computes it. *)
Theorem GetProgress_double_range s :
  reachable ext s -> sizes_typed (snd s) ->
  exists p f v,
    back (file_scans (fst s)) = Ok p /\ deref (snd s) p = Ok f
    /\ GetProgress binary64 (fst s) (snd s) = Ok v
    /\ v = percentage_of binary64 (GetFileIdx (current_boundary (fst s)))
             (vector_size (files (bind_data (fst s)))) (file_progress binary64 f)
    /\ (file_size f = 0 -> file_progress binary64 f = double_of_idx 1)
    /\ PrimFloat.leb (double_of_idx 0) v = true
    /\ PrimFloat.leb v
         (percentage_of binary64 (vector_size (files (bind_data (fst s))) - 1)
            (vector_size (files (bind_data (fst s)))) (double_of_idx 1)) = true.
Proof.
  intros Hreach Hsz. destruct s as [g w]. simpl in *.
  pose proof (reachable_progress_inv _ Hreach)
    as (_ & Hn & p & f & Hp & Hf & Hbr & Hfs & Hcur & Hidx).
  simpl in *.
  destruct (sizes_typed_deref w p f Hsz Hf) as [Hfsm Hbrm].
  exists p, f. eexists. split; [exact Hp|]. split; [exact Hf|].
  split; [exact (GetProgress_eq binary64 g w p f Hp Hf)|].
  split; [reflexivity|].
  split. { intros Hz. unfold file_progress. rewrite Hz. reflexivity. }
  destruct (file_progress_fle f f eq_refl ltac:(lia) Hbr ltac:(lia) Hbrm) as [Hff Hf1].
  set (n := vector_size (files (bind_data g))) in *.
  split.
  - apply (fle_leb 514). apply (fle_zero 514 (percentage_of binary64 (file_idx f) n
                                                 (file_progress binary64 f))); [lia|].
    rewrite Hcur.
    apply percentage_of_fle; [lia | lia | lia | lia | exact Hff].
  - apply (fle_leb 514).
    apply percentage_of_fle; [lia | lia | lia | lia | exact Hf1].
Qed.

Lemma all_full_progress_spec k : forall start n,
  all_full_progress k start = true -> start <= n < start + Z.of_nat k ->
  full_progress n = true.
Proof.
  induction k as [|k IH]; intros start n H Hn; [lia|].
  simpl in H. apply andb_true_iff in H as [H1 H2].
  destruct (Z.eq_dec n start) as [->|Hne]; [exact H1|].
  apply (IH (start + 1)); [exact H2 | lia].
Qed.

Lemma all_full_progress_10000 : all_full_progress (Z.to_nat 10000) 1 = true.
Proof. vm_compute. reflexivity. Qed.

Lemma double_of_idx_1 q : fval (double_of_idx 1) q -> rnd 1 q -> (q == 1)%Q.
Proof.
  intros _ Hrnd.
  assert (H1 : (pow2 0 == 1)%Q) by reflexivity.
  pose proof (rnd_mono _ _ _ _ (rnd_pow2 0) Hrnd ltac:(rewrite H1; apply Qle_refl)).
  pose proof (rnd_mono _ _ _ _ Hrnd (rnd_pow2 0) ltac:(rewrite H1; apply Qle_refl)).
  lra.
Qed.

(** A file that has been read completely has progress 1.0. *)
Lemma file_progress_full f :
  0 <= file_size f -> file_size f <= bytes_read f -> bytes_read f < IDX_MODULUS ->
  file_progress binary64 f = double_of_idx 1.
Proof.
  intros Hfs Hle Hbr. unfold IDX_MODULUS in *. unfold file_progress.
  destruct (Z.eqb_spec (file_size f) 0) as [E|E]; [reflexivity|].
  cbn [of_idx ddiv binary64]. unfold std_min. cbn [dltb binary64].
  destruct (double_of_idx_fval 1 ltac:(lia)) as (q1 & Hq1 & Hrnd1 & _).
  pose proof (double_of_idx_1 q1 Hq1 Hrnd1) as Hone.
  destruct (double_of_idx_fval (file_size f) ltac:(lia)) as (qs & Hqs & Hrnds & _ & Hpos).
  destruct (Hpos ltac:(lia)) as [Hs0 Hs1].
  destruct (double_of_idx_fval (bytes_read f) ltac:(lia)) as (qb & Hqb & Hrndb & Hsb & _).
  assert (Hsb' : (qs <= qb)%Q).
  { apply (rnd_mono _ _ _ _ Hrnds Hrndb). rewrite <- Zle_Qle. exact Hle. }
  pose proof (pow2_pos (-64)) as Hp.
  destruct (div_fval _ _ qb qs Hqb Hqs ltac:(lra)
              (small_range 128 _ ltac:(lia) (small_div 64 qb qs Hsb Hs0 Hs1)))
    as (q & Hq & Hrnd).
  assert (Hge : (1 <= q)%Q).
  { assert (H1 : (pow2 0 == 1)%Q) by reflexivity. rewrite <- H1.
    apply (rnd_mono _ _ _ _ (rnd_pow2 0) Hrnd). rewrite H1.
    apply Qle_shift_div_l; lra. }
  destruct (double_of_idx (bytes_read f) / double_of_idx (file_size f) <? double_of_idx 1)%float
    eqn:Hlt; [|reflexivity].
  apply (ltb_fval _ _ q q1 Hq Hq1) in Hlt. lra.
Qed.

(** X24. With at most 10000 files, once the file at the back of [file_scans]
    is the last file of the list and is fully read ([bytes_read >= file_size]),
    [GetProgress] returns exactly 100: the progress within the file is then
    1.0, and [((n-1)/n + 1/n * 1.0) * 100] is 100 in binary64 for every such
    n (evaluated for each of them). Sizes and counters are [idx_t] values. *)
Theorem GetProgress_complete s p f :
  reachable ext s -> sizes_typed (snd s) ->
  back (file_scans (fst s)) = Ok p -> deref (snd s) p = Ok f ->
  file_idx f = vector_size (files (bind_data (fst s))) - 1 ->
  file_size f <= bytes_read f ->
  vector_size (files (bind_data (fst s))) <= 10000 ->
  exists v, GetProgress binary64 (fst s) (snd s) = Ok v
            /\ PrimFloat.eqb v (double_of_idx 100) = true.
Proof.
  intros Hreach Hsz Hp Hf Hlast Hread Hn. destruct s as [g w]. simpl in *.
  pose proof (reachable_progress_inv _ Hreach)
    as (_ & _ & q & h & Hq & Hh & Hbr & Hfs & Hcur & Hidx).
  simpl in *. rewrite Hp in Hq. injection Hq as <-. rewrite Hf in Hh. injection Hh as <-.
  destruct (sizes_typed_deref w p f Hsz Hf) as [_ Hbrm].
  rewrite (GetProgress_eq binary64 g w p f Hp Hf).
  eexists. split; [reflexivity|].
  rewrite (file_progress_full f Hfs Hread Hbrm), Hcur, Hlast.
  apply (all_full_progress_spec (Z.to_nat 10000) 1 _ all_full_progress_10000).
  rewrite Z2Nat.id by lia. lia.
Qed.

End Progress.

(** ** Single-threaded mode *)

Section SingleThreaded.

Variable ext : Externals.

(** In single-threaded mode no step touches [file_scans] or the cursor, and
    the context [file_scans] holds stays the one of the same file. *)
Lemma step_single_threaded a g w g' w' p0 f0 :
  single_threaded g = true ->
  file_scans g = [p0] ->
  heap w !! p0 = Some f0 ->
  step ext a (g, w) = Ok (g', w') ->
  single_threaded g' = true /\ file_scans g' = [p0]
  /\ current_boundary g' = current_boundary g /\ bind_data g' = bind_data g
  /\ exists f0', heap w' !! p0 = Some f0' /\ file_idx f0' = file_idx f0
                 /\ file_path f0' = file_path f0.
Proof.
  intros Hmode Hscans Hf0 Hstep.
  destruct a as [|thread|q n|q line error]; simpl in Hstep.
  - apply bind_Ok in Hstep as ([[ret g1] w1] & Hnext & Hstep).
    injection Hstep as <- <-. simpl.
    pose proof (Next_frame ext _ _ _ _ _ Hnext)
      as (Hbd & Hm & _ & _ & (extra & Hheap) & _).
    rewrite (Next_single_threaded ext g w Hmode) in Hnext. cbv zeta in Hnext.
    assert (Hkeep : file_scans g1 = file_scans g /\ current_boundary g1 = current_boundary g).
    { destruct (_ <=? _); [injection Hnext as <- <- <-; auto|].
      destruct (_ =? _).
      - apply bind_Ok in Hnext as (? & _ & Hnext). injection Hnext as <- <- <-. auto.
      - apply bind_Ok in Hnext as (? & _ & Hnext). injection Hnext as <- <- <-. auto. }
    destruct Hkeep as [Hs Hc]. rewrite Hm, Hs, Hc.
    repeat split; auto. exists f0. rewrite Hheap.
    split; [apply lookup_app_l_Some; exact Hf0 | auto].
  - apply DecrementThread_frame in Hstep as (-> & Hheap & _). simpl.
    repeat split; auto. exists f0. rewrite Hheap. auto.
  - injection Hstep as <- <-. repeat split; auto. simpl.
    destruct (decide (q = p0)) as [->|Hne].
    + exists (read_bytes n f0). rewrite list_lookup_alter_eq, Hf0.
      split; [reflexivity|]. unfold read_bytes. destruct (_ && _); auto.
    + exists f0. rewrite list_lookup_alter_ne by exact Hne. auto.
  - injection Hstep as <- <-. repeat split; auto. simpl.
    destruct (decide (q = p0)) as [->|Hne].
    + exists (record_error line error f0). rewrite list_lookup_alter_eq, Hf0. auto.
    + exists f0. rewrite list_lookup_alter_ne by exact Hne. auto.
Qed.

Lemma run_single_threaded trace : forall g w g' w' p0 f0,
  single_threaded g = true ->
  file_scans g = [p0] ->
  heap w !! p0 = Some f0 ->
  run ext trace (g, w) = Ok (g', w') ->
  single_threaded g' = true /\ file_scans g' = [p0]
  /\ current_boundary g' = current_boundary g /\ bind_data g' = bind_data g
  /\ exists f0', heap w' !! p0 = Some f0' /\ file_idx f0' = file_idx f0
                 /\ file_path f0' = file_path f0.
Proof.
  induction trace as [|a trace IH]; intros g w g' w' p0 f0 Hmode Hscans Hf0 Hrun;
    simpl in Hrun.
  - injection Hrun as <- <-. repeat split; auto. exists f0. auto.
  - apply bind_Ok in Hrun as ([g1 w1] & Hstep & Hrun).
    destruct (step_single_threaded a g w g1 w1 p0 f0 Hmode Hscans Hf0 Hstep)
      as (Hm1 & Hs1 & Hc1 & Hb1 & f1 & Hf1 & Hi1 & Hp1).
    destruct (IH g1 w1 g' w' p0 f1 Hm1 Hs1 Hf1 Hrun)
      as (Hm & Hs & Hc & Hb & f' & Hf' & Hi & Hp).
    rewrite Hc, Hc1, Hb, Hb1. repeat split; auto.
    exists f'. rewrite Hi, Hi1, Hp, Hp1. auto.
Qed.

(** C10. In single-threaded mode, whatever the workers do (any number of
    calls of [Next] among their steps), [file_scans] stays the vector the
    constructor made, holding the context of the first file only, and the
    cursor stays the degenerate one; so [GetProgress], in binary64 as over
    any other arithmetic, is computed from file index 0 and the counters of
    the first file. *)
Theorem single_threaded_progress_of_first_file w bm opts t bd g0 w0 trace g w' :
  CSVGlobalState_new ext w bm opts t (files bd) bd = Ok (g0, w0) ->
  single_threaded g0 = true ->
  run ext trace (g0, w0) = Ok (g, w') ->
  file_scans g = file_scans g0
  /\ current_boundary g = CSVIterator_default
  /\ exists p0 f0,
       file_scans g = [p0] /\ heap w' !! p0 = Some f0
       /\ file_idx f0 = 0 /\ files bd !! 0%nat = Some (file_path f0)
       /\ forall D, GetProgress D g w' =
                      Ok (percentage_of D 0 (vector_size (files bd)) (file_progress D f0)).
Proof.
  intros Hnew Hmode Hrun.
  apply CSVGlobalState_new_inv in Hnew
    as (first & scan & Hfirst & -> & Hidx & Hpath & _ & _ & _ & Hg).
  cbv zeta in Hg.
  assert (Hscans0 : file_scans g0 = [length (heap w)]) by (rewrite Hg; reflexivity).
  assert (Hcb0 : current_boundary g0 = CSVIterator_default).
  { rewrite Hg in Hmode |- *. simpl in *. rewrite Hmode. reflexivity. }
  assert (Hbd0 : bind_data g0 = bd) by (rewrite Hg; reflexivity).
  assert (Hscan : heap (set_heap (heap w ++ [scan]) w) !! length (heap w) = Some scan).
  { apply deref_Ok. exact (deref_make_shared scan w). }
  destruct (run_single_threaded trace g0 _ g w' _ scan Hmode Hscans0 Hscan Hrun)
    as (_ & Hs & Hc & Hb & f0 & Hf0 & Hi & Hp).
  split; [congruence|]. split; [congruence|].
  exists (length (heap w)), f0.
  split; [exact Hs|]. split; [exact Hf0|]. split; [congruence|].
  split; [rewrite Hp, Hpath; exact Hfirst|].
  intros D.
  rewrite (GetProgress_eq D g w' (length (heap w)) f0).
  - rewrite Hc, Hcb0, Hb, Hbd0. reflexivity.
  - rewrite Hs. reflexivity.
  - apply deref_Ok. exact Hf0.
Qed.
(** X3. In single-threaded mode the errors [FillRejectsTable] walks over are
    those of the first file's collector: the contexts of the later files are
    held by their scan units only. *)
Theorem single_threaded_rejects_of_first_file w bm opts t bd g0 w0 trace g w' :
  CSVGlobalState_new ext w bm opts t (files bd) bd = Ok (g0, w0) ->
  single_threaded g0 = true ->
  run ext trace (g0, w0) = Ok (g, w') ->
  exists p0 f0,
    file_scans g = [p0] /\ heap w' !! p0 = Some f0 /\ file_idx f0 = 0
    /\ collected_errors w' (file_scans g) = errors_of_file f0.
Proof.
  intros Hnew Hmode Hrun.
  apply CSVGlobalState_new_inv in Hnew
    as (first & scan & _ & -> & Hidx & _ & _ & _ & _ & Hg).
  cbv zeta in Hg.
  assert (Hscans0 : file_scans g0 = [length (heap w)]) by (rewrite Hg; reflexivity).
  assert (Hscan : heap (set_heap (heap w ++ [scan]) w) !! length (heap w) = Some scan).
  { apply deref_Ok. exact (deref_make_shared scan w). }
  destruct (run_single_threaded trace g0 _ g w' _ scan Hmode Hscans0 Hscan Hrun)
    as (_ & Hs & _ & _ & f0 & Hf0 & Hi & _).
  exists (length (heap w)), f0.
  split; [exact Hs|]. split; [exact Hf0|]. split; [congruence|].
  rewrite Hs. unfold collected_errors. simpl. rewrite Hf0. simpl. apply app_nil_r.
Qed.

End SingleThreaded.

(** ** The concrete environment *)

Lemma demo_keeps_file : keeps_file demo_ext.
Proof.
  intros bm it. simpl. unfold quantum_Next.
  destruct (negb (is_set it)); [reflexivity|]. simpl.
  destruct (_ <? _); [reflexivity|]. destruct (_ <? _); reflexivity.
Qed.

Lemma demo_world_typed : world_typed demo_world.
Proof.
  intros path. simpl. unfold demo_file_system.
  destruct (String.eqb path "empty.csv"); simpl; lia.
Qed.

Lemma demo_reachable files_p parallel_p limit t trace s :
  vector_size files_p < IDX_MODULUS ->
  bind (demo_new files_p parallel_p limit t) (run demo_ext trace) = Ok s ->
  reachable demo_ext s.
Proof.
  intros Hsize H. apply bind_Ok in H as (s0 & Hnew & Hrun).
  exists demo_world, None, (demo_options parallel_p limit), t,
    (demo_bind_data files_p parallel_p limit), s0, trace.
  split; [exact demo_world_typed|]. split; [discriminate|].
  split; [exact Hsize|]. split; [exact Hnew | exact Hrun].
Qed.

Lemma demo_sizes_typed : sizes_typed demo_world.
Proof.
  split; [|constructor].
  intros path. simpl. unfold demo_file_system.
  destruct (String.eqb path "empty.csv"); simpl; unfold IDX_MODULUS; lia.
Qed.

Lemma demo_run_sizes_typed files_p parallel_p limit t trace s :
  bind (demo_new files_p parallel_p limit t) (run demo_ext trace) = Ok s ->
  sizes_typed (snd s).
Proof.
  intros H. apply bind_Ok in H as ([g0 w0] & Hnew & Hrun). destruct s as [g w].
  apply (run_sizes_typed demo_ext trace g0 w0 g w); [|exact Hrun].
  unfold demo_new in Hnew.
  refine (new_sizes_typed demo_ext demo_world None _ _ _ _ g0 w0 demo_sizes_typed _ Hnew).
  discriminate.
Qed.

(** C4. The run on which the code departs from the claim: two files,
    [parallel] off, so single-threaded mode. Both files have been handed out
    and fully read, the last one included, and [GetProgress] returns 50, not
    100: in this mode [Next] neither appends to [file_scans] nor moves the
    cursor, so [GetProgress] keeps reporting on the first file. *)
Lemma GetProgress_range_counterexample :
  exists g w f,
    bind (demo_new ["a.csv"; "b.csv"]%string false 0 2)
      (run demo_ext [CallNext; CallNext; ReadBytes 0%nat 10; ReadBytes 1%nat 10])
    = Ok (g, w)
    /\ reachable demo_ext (g, w)
    /\ single_threaded g = true
    /\ heap w !! 1%nat = Some f
    /\ file_idx f = vector_size (files (bind_data g)) - 1
    /\ file_size f <= bytes_read f
    /\ GetProgress binary64 g w = Ok (double_of_idx 50).
Proof.
  eexists _, _, _. split; [vm_compute; reflexivity|].
  split.
  { apply (demo_reachable ["a.csv"; "b.csv"]%string false 0 2
             [CallNext; CallNext; ReadBytes 0%nat 10; ReadBytes 1%nat 10]);
      vm_compute; reflexivity. }
  split; [reflexivity|].
  split; [reflexivity|]. split; [reflexivity|].
  split; [vm_compute; discriminate|].
  vm_compute. reflexivity.
Qed.

Lemma GetProgress_double_range_witness :
  exists g w p f v,
    bind (demo_new ["a.csv"; "empty.csv"]%string true 0 4)
      (run demo_ext [CallNext; ReadBytes 0%nat 10]) = Ok (g, w)
    /\ back (file_scans g) = Ok p /\ deref w p = Ok f
    /\ file_size f = 0
    /\ GetProgress binary64 g w = Ok v
    /\ file_progress binary64 f = double_of_idx 1
    /\ PrimFloat.leb (double_of_idx 0) v = true
    /\ PrimFloat.leb v (percentage_of binary64 1 2 (double_of_idx 1)) = true.
Proof.
  destruct (bind (demo_new ["a.csv"; "empty.csv"]%string true 0 4)
              (run demo_ext [CallNext; ReadBytes 0%nat 10])) as [[g w]|e] eqn:Hs;
    [|vm_compute in Hs; discriminate Hs].
  assert (Hn : vector_size (files (bind_data g)) = 2)
    by (vm_compute in Hs; injection Hs as <- <-; reflexivity).
  destruct (GetProgress_double_range demo_ext demo_keeps_file (g, w))
    as (p & f & v & Hp & Hf & Hv & _ & Hzero & Hlo & Hhi).
  { apply (demo_reachable ["a.csv"; "empty.csv"]%string true 0 4
             [CallNext; ReadBytes 0%nat 10]); [reflexivity | exact Hs]. }
  { exact (demo_run_sizes_typed _ _ _ _ _ _ Hs). }
  simpl in Hp, Hf, Hv, Hlo, Hhi. rewrite Hn in Hhi.
  assert (Hsize : file_size f = 0).
  { vm_compute in Hs. injection Hs as <- <-.
    vm_compute in Hp. injection Hp as <-. vm_compute in Hf. injection Hf as <-.
    reflexivity. }
  exists g, w, p, f, v. split; [reflexivity|]. split; [exact Hp|]. split; [exact Hf|].
  split; [exact Hsize|]. split; [exact Hv|]. split; [exact (Hzero Hsize)|].
  split; [exact Hlo | exact Hhi].
Defined.

Lemma GetProgress_complete_witness :
  exists g w p f v,
    bind (demo_new demo_two_files true 0 4)
      (run demo_ext [CallNext; ReadBytes 0%nat 10; ReadBytes 1%nat 10]) = Ok (g, w)
    /\ single_threaded g = false
    /\ back (file_scans g) = Ok p /\ deref w p = Ok f
    /\ file_idx f = 1 /\ file_size f = 10 /\ bytes_read f = 10
    /\ GetProgress binary64 g w = Ok v
    /\ PrimFloat.eqb v (double_of_idx 100) = true.
Proof.
  destruct (bind (demo_new demo_two_files true 0 4)
              (run demo_ext [CallNext; ReadBytes 0%nat 10; ReadBytes 1%nat 10]))
    as [[g w]|e] eqn:Hs; [|vm_compute in Hs; discriminate Hs].
  destruct (back (file_scans g)) as [p|e] eqn:Hp;
    [|vm_compute in Hs; injection Hs as <- <-; vm_compute in Hp; discriminate Hp].
  destruct (deref w p) as [f|e] eqn:Hf;
    [|vm_compute in Hs; injection Hs as <- <-; vm_compute in Hp; injection Hp as <-;
      vm_compute in Hf; discriminate Hf].
  assert (Hfacts : single_threaded g = false /\ vector_size (files (bind_data g)) = 2
                   /\ file_idx f = 1 /\ file_size f = 10 /\ bytes_read f = 10).
  { vm_compute in Hs. injection Hs as <- <-. vm_compute in Hp. injection Hp as <-.
    vm_compute in Hf. injection Hf as <-. auto. }
  destruct Hfacts as (Hmode & Hn & Hidx & Hsize & Hread).
  destruct (GetProgress_complete demo_ext demo_keeps_file (g, w) p f) as (v & Hv & H100).
  - apply (demo_reachable demo_two_files true 0 4
             [CallNext; ReadBytes 0%nat 10; ReadBytes 1%nat 10]); [reflexivity | exact Hs].
  - exact (demo_run_sizes_typed _ _ _ _ _ _ Hs).
  - exact Hp.
  - exact Hf.
  - simpl. rewrite Hidx, Hn. reflexivity.
  - rewrite Hsize, Hread. lia.
  - simpl. rewrite Hn. lia.
  - exists g, w, p, f, v. split; [reflexivity|]. split; [exact Hmode|].
    split; [exact Hp|]. split; [exact Hf|]. auto 10.
Defined.

(** C5 fails as stated, in the arithmetic the program runs. Five files, the
    third one empty, range-parallel mode: with the cursor in the empty file
    [GetProgress] returns (2/5 + 1/5 * 1) * 100, which in binary64 is the
    double above 60; the next call of [Next] moves the cursor to the fourth
    file, and [GetProgress] returns (3/5 + 1/5 * 0) * 100 = 60. *)
Lemma GetProgress_monotone_counterexample :
  exists s s' v v',
    bind (demo_new ["a.csv"; "b.csv"; "empty.csv"; "d.csv"; "e.csv"]%string true 0 4)
      (run demo_ext [CallNext; CallNext]) = Ok s
    /\ reachable demo_ext s
    /\ step demo_ext CallNext s = Ok s'
    /\ GetProgress binary64 (fst s) (snd s) = Ok v
    /\ GetProgress binary64 (fst s') (snd s') = Ok v'
    /\ v' = double_of_idx 60
    /\ PrimFloat.ltb v' v = true.
Proof.
  eexists _, _, _, _. split; [vm_compute; reflexivity|].
  split.
  { apply (demo_reachable ["a.csv"; "b.csv"; "empty.csv"; "d.csv"; "e.csv"]%string
             true 0 4 [CallNext; CallNext]); vm_compute; reflexivity. }
  split; [vm_compute; reflexivity|].
  split; [vm_compute; reflexivity|].
  split; [vm_compute; reflexivity|].
  split; vm_compute; reflexivity.
Qed.

Lemma GetProgress_monotone_in_file_witness :
  (exists s s' v v',
     bind (demo_new ["a.csv"; "b.csv"; "empty.csv"; "d.csv"; "e.csv"]%string true 0 4)
       (run demo_ext [CallNext; ReadBytes 0%nat 3]) = Ok s
     /\ run demo_ext [ReadBytes 1%nat 4; CallDecrementThread 2; ReadBytes 1%nat 3] s = Ok s'
     /\ GetFileIdx (current_boundary (fst s)) = 1
     /\ GetFileIdx (current_boundary (fst s')) = 1
     /\ GetProgress binary64 (fst s) (snd s) = Ok v
     /\ GetProgress binary64 (fst s') (snd s') = Ok v'
     /\ PrimFloat.leb v v' = true
     /\ PrimFloat.ltb v v' = true)
  /\ (exists s s' v v',
        bind (demo_new ["a.csv"; "b.csv"; "empty.csv"; "d.csv"; "e.csv"]%string true 0 4)
          (run demo_ext [CallNext; CallNext]) = Ok s
        /\ run demo_ext [CallNext] s = Ok s'
        /\ GetFileIdx (current_boundary (fst s)) = 2
        /\ GetFileIdx (current_boundary (fst s')) = 3
        /\ GetProgress binary64 (fst s) (snd s) = Ok v
        /\ GetProgress binary64 (fst s') (snd s') = Ok v'
        /\ PrimFloat.ltb v' v = true
        /\ PrimFloat.leb v (percentage_of binary64 2 5 (double_of_idx 1)) = true
        /\ PrimFloat.leb (percentage_of binary64 3 5 (double_of_idx 0)) v' = true
        /\ ((1 - (1 # 562949953421312)) * double_value v <= double_value v')%Q).
Proof.
  split.
  - destruct (bind (demo_new ["a.csv"; "b.csv"; "empty.csv"; "d.csv"; "e.csv"]%string
                      true 0 4)
                (run demo_ext [CallNext; ReadBytes 0%nat 3])) as [s|e] eqn:Hs;
      [|vm_compute in Hs; discriminate Hs].
    destruct (run demo_ext [ReadBytes 1%nat 4; CallDecrementThread 2; ReadBytes 1%nat 3] s)
      as [s'|e] eqn:Hs';
      [|vm_compute in Hs; injection Hs as <-; vm_compute in Hs'; discriminate Hs'].
    assert (Hidx : GetFileIdx (current_boundary (fst s)) = 1)
      by (vm_compute in Hs; injection Hs as <-; reflexivity).
    assert (Hidx' : GetFileIdx (current_boundary (fst s')) = 1)
      by (vm_compute in Hs; injection Hs as <-; vm_compute in Hs'; injection Hs' as <-;
          reflexivity).
    destruct (GetProgress_monotone_in_file demo_ext demo_keeps_file
                [ReadBytes 1%nat 4; CallDecrementThread 2; ReadBytes 1%nat 3] s s')
      as (v & v' & Hv & Hv' & _ & Hsame & _).
    { apply (demo_reachable ["a.csv"; "b.csv"; "empty.csv"; "d.csv"; "e.csv"]%string
               true 0 4 [CallNext; ReadBytes 0%nat 3]); [reflexivity | exact Hs]. }
    { exact (demo_run_sizes_typed _ _ _ _ _ _ Hs). }
    { exact Hs'. }
    exists s, s', v, v'. split; [reflexivity|]. split; [exact Hs'|].
    split; [exact Hidx|]. split; [exact Hidx'|].
    split; [exact Hv|]. split; [exact Hv'|].
    split; [apply Hsame; congruence|].
    vm_compute in Hs. injection Hs as <-. vm_compute in Hs'. injection Hs' as <-.
    vm_compute in Hv. injection Hv as <-. vm_compute in Hv'. injection Hv' as <-.
    vm_compute. reflexivity.
  - destruct (bind (demo_new ["a.csv"; "b.csv"; "empty.csv"; "d.csv"; "e.csv"]%string
                      true 0 4)
                (run demo_ext [CallNext; CallNext])) as [s|e] eqn:Hs;
      [|vm_compute in Hs; discriminate Hs].
    destruct (run demo_ext [CallNext] s) as [s'|e] eqn:Hs';
      [|vm_compute in Hs; injection Hs as <-; vm_compute in Hs'; discriminate Hs'].
    assert (Hidx : GetFileIdx (current_boundary (fst s)) = 2
                   /\ vector_size (files (bind_data (fst s))) = 5)
      by (vm_compute in Hs; injection Hs as <-; split; reflexivity).
    destruct Hidx as [Hidx Hn].
    assert (Hidx' : GetFileIdx (current_boundary (fst s')) = 3)
      by (vm_compute in Hs; injection Hs as <-; vm_compute in Hs'; injection Hs' as <-;
          reflexivity).
    destruct (GetProgress_monotone_in_file demo_ext demo_keeps_file [CallNext] s s')
      as (v & v' & Hv & Hv' & _ & _ & Hadvance & Hdrop).
    { apply (demo_reachable ["a.csv"; "b.csv"; "empty.csv"; "d.csv"; "e.csv"]%string
               true 0 4 [CallNext; CallNext]); [reflexivity | exact Hs]. }
    { exact (demo_run_sizes_typed _ _ _ _ _ _ Hs). }
    { exact Hs'. }
    rewrite Hidx, Hidx', Hn in Hadvance. destruct (Hadvance ltac:(lia)) as [Hbefore Hafter].
    exists s, s', v, v'. split; [reflexivity|]. split; [exact Hs'|].
    split; [exact Hidx|]. split; [exact Hidx'|].
    split; [exact Hv|]. split; [exact Hv'|].
    split; [|split; [exact Hbefore | split; [exact Hafter | exact Hdrop]]].
    vm_compute in Hs. injection Hs as <-. vm_compute in Hs'. injection Hs' as <-.
    vm_compute in Hv. injection Hv as <-. vm_compute in Hv'. injection Hv' as <-.
    vm_compute. reflexivity.
Defined.

Lemma single_threaded_rejects_of_first_file_witness :
  exists g0 w0 g w' f1,
    demo_new ["a.csv"; "b.csv"; "c.csv"]%string true 0 1 = Ok (g0, w0)
    /\ run demo_ext [CallNext; CallNext; RecordError 1 1 (demo_error CAST_ERROR 0)]
         (g0, w0) = Ok (g, w')
    /\ heap w' !! 1%nat = Some f1
    /\ errors_of_file f1 <> []
    /\ collected_errors w' (file_scans g) = [].
Proof.
  destruct (demo_new ["a.csv"; "b.csv"; "c.csv"]%string true 0 1) as [[g0 w0]|e] eqn:Hnew;
    [|vm_compute in Hnew; discriminate Hnew].
  destruct (run demo_ext [CallNext; CallNext; RecordError 1 1 (demo_error CAST_ERROR 0)]
              (g0, w0)) as [[g w']|e] eqn:Hrun;
    [|vm_compute in Hnew; injection Hnew as <- <-; vm_compute in Hrun; discriminate Hrun].
  destruct (single_threaded_rejects_of_first_file demo_ext demo_world None
              (demo_options true 0) 1
              (demo_bind_data ["a.csv"; "b.csv"; "c.csv"]%string true 0) g0 w0
              [CallNext; CallNext; RecordError 1 1 (demo_error CAST_ERROR 0)] g w' Hnew)
    as (p0 & f0 & Hs & Hf0 & _ & Hcollected).
  - vm_compute in Hnew. injection Hnew as <- <-. reflexivity.
  - exact Hrun.
  - assert (Hf1 : exists f1, heap w' !! 1%nat = Some f1 /\ errors_of_file f1 <> []).
    { vm_compute in Hnew. injection Hnew as <- <-. vm_compute in Hrun.
      injection Hrun as <- <-. eexists. split; [reflexivity | discriminate]. }
    destruct Hf1 as (f1 & Hf1 & Hne).
    assert (Hempty : errors_of_file f0 = []).
    { vm_compute in Hnew. injection Hnew as <- <-. vm_compute in Hrun.
      injection Hrun as <- <-. injection Hs as <-. injection Hf0 as <-. reflexivity. }
    exists g0, w0, g, w', f1. split; [reflexivity|]. split; [exact Hrun|].
    split; [exact Hf1|]. split; [exact Hne|]. rewrite Hcollected. exact Hempty.
Defined.

Lemma single_threaded_progress_of_first_file_witness :
  exists g0 w0 g w' p0 f0,
    demo_new ["a.csv"; "b.csv"; "c.csv"]%string true 0 1 = Ok (g0, w0)
    /\ run demo_ext [CallNext; CallNext; ReadBytes 1%nat 10; CallNext] (g0, w0) = Ok (g, w')
    /\ file_scans g = file_scans g0
    /\ file_scans g = [p0] /\ heap w' !! p0 = Some f0 /\ file_idx f0 = 0
    /\ GetProgress binary64 g w' = Ok (percentage_of binary64 0 3 (file_progress binary64 f0)).
Proof.
  destruct (demo_new ["a.csv"; "b.csv"; "c.csv"]%string true 0 1) as [[g0 w0]|e] eqn:Hnew;
    [|vm_compute in Hnew; discriminate Hnew].
  destruct (run demo_ext [CallNext; CallNext; ReadBytes 1%nat 10; CallNext] (g0, w0))
    as [[g w']|e] eqn:Hrun;
    [|vm_compute in Hnew; injection Hnew as <- <-; vm_compute in Hrun; discriminate Hrun].
  destruct (single_threaded_progress_of_first_file demo_ext demo_world None
              (demo_options true 0) 1
              (demo_bind_data ["a.csv"; "b.csv"; "c.csv"]%string true 0) g0 w0
              [CallNext; CallNext; ReadBytes 1%nat 10; CallNext] g w' Hnew)
    as (Hsame & _ & p0 & f0 & Hs & Hf0 & Hi & _ & Hprog).
  - vm_compute in Hnew. injection Hnew as <- <-. reflexivity.
  - exact Hrun.
  - exists g0, w0, g, w', p0, f0. split; [reflexivity|]. split; [exact Hrun|].
    split; [exact Hsame|]. split; [exact Hs|]. split; [exact Hf0|].
    split; [exact Hi|]. exact (Hprog binary64).
Defined.

(** ** [FillRejectsTable] *)

Section Rejects.

Variable ext : Externals.

Lemma fill_flat_app g scan_id file_id limit es1 : forall es2 rej,
  fill_flat ext g scan_id file_id limit (es1 ++ es2) rej =
    bind (fill_flat ext g scan_id file_id limit es1 rej)
         (fill_flat ext g scan_id file_id limit es2).
Proof.
  induction es1 as [|fe es1 IH]; intros es2 rej; simpl; [reflexivity|].
  destruct (negb _); [apply IH|].
  destruct (_ || _); [|apply IH].
  destruct (reject_row ext g scan_id file_id (fst fe) (snd fe)); simpl;
    [apply IH | reflexivity].
Qed.

(** The [break] of the innermost loop is dead: its condition contradicts the
    one of the enclosing [if]. *)
Lemma fill_error_vector_flat g scan_id file_id limit file es : forall rej,
  fill_error_vector ext g scan_id file_id limit file es rej =
    fill_flat ext g scan_id file_id limit (map (pair file) es) rej.
Proof.
  induction es as [|error es IH]; intros rej; simpl; [reflexivity|].
  destruct (negb _); [apply IH|].
  destruct ((limit =? 0) || (count rej <? limit)) eqn:Hguard; [|apply IH].
  assert (Hbreak : negb (limit =? 0) && (limit <=? count rej) = false).
  { apply orb_true_iff in Hguard as [Hz|Hlt].
    - rewrite Hz. reflexivity.
    - apply Z.ltb_lt in Hlt. apply andb_false_iff. right. apply Z.leb_gt. exact Hlt. }
  rewrite Hbreak.
  destruct (reject_row ext g scan_id file_id file error); simpl; [apply IH | reflexivity].
Qed.

Lemma fill_errors_flat g scan_id file_id limit file errs : forall rej,
  fill_errors ext g scan_id file_id limit file errs rej =
    fill_flat ext g scan_id file_id limit (map (pair file) (concat (map snd errs))) rej.
Proof.
  induction errs as [|ev errs IH]; intros rej; simpl; [reflexivity|].
  rewrite map_app, fill_flat_app, fill_error_vector_flat.
  destruct (fill_flat ext g scan_id file_id limit (map (pair file) (snd ev)) rej); simpl;
    [apply IH | reflexivity].
Qed.

Lemma collected_errors_cons w p scans f :
  heap w !! p = Some f ->
  collected_errors w (p :: scans) = errors_of_file f ++ collected_errors w scans.
Proof. intros H. unfold collected_errors. simpl. rewrite H. reflexivity. Qed.

Lemma fill_file_scans_flat g w scan_id file_id limit scans : forall rej rej',
  fill_file_scans ext g w scan_id file_id limit scans rej = Ok rej' ->
  fill_flat ext g scan_id file_id limit (collected_errors w scans) rej = Ok rej'.
Proof.
  induction scans as [|p scans IH]; intros rej rej' H; simpl in H; [exact H|].
  apply bind_Ok in H as (file & Hfile & H). apply deref_Ok in Hfile.
  apply bind_Ok in H as (rej1 & Hrej1 & H).
  rewrite (collected_errors_cons w p scans file Hfile), fill_flat_app.
  rewrite fill_errors_flat in Hrej1. unfold errors_of_file. rewrite Hrej1. simpl.
  apply IH. exact H.
Qed.

Lemma fill_file_scans_flat_valid g w scan_id file_id limit scans : forall rej,
  Forall (fun p => is_Some (heap w !! p)) scans ->
  fill_file_scans ext g w scan_id file_id limit scans rej =
    fill_flat ext g scan_id file_id limit (collected_errors w scans) rej.
Proof.
  induction scans as [|p scans IH]; intros rej Hvalid; simpl; [reflexivity|].
  inversion Hvalid as [|? ? [file Hfile] Hrest]; subst.
  rewrite (collected_errors_cons w p scans file Hfile), fill_flat_app.
  unfold deref. rewrite Hfile. simpl. rewrite fill_errors_flat. unfold errors_of_file.
  destruct (fill_flat ext g scan_id file_id limit _ rej); simpl;
    [apply IH; exact Hrest | reflexivity].
Qed.

(** What [reject_row] puts in the row of an error. *)
Lemma reject_row_Ok g scan_id file_id file e row :
  reject_row ext g scan_id file_id file e = Ok row ->
  row_scan_id row = scan_id /\ row_file_id row = file_id
  /\ row_line row = GetLine ext (error_handler file) (error_info e)
  /\ row_byte_position row = byte_position e
  /\ row_column_idx row = wrap (column_idx e + 1)
  /\ column_name_matches g e row
  /\ CSVErrorTypeToEnum (type e) = Ok (row_error_type row)
  /\ row_csv_row row = csv_row e /\ row_error_message row = error_message e.
Proof.
  unfold reject_row. intros H.
  apply bind_Ok in H as (name & Hname & H).
  apply bind_Ok in H as (label & Hlabel & H).
  injection H as <-. simpl. repeat split; auto.
  unfold column_name_matches, column_name_of in *. simpl.
  destruct (type e); simpl in *;
    try (apply bind_Ok in Hname as (nm & Hnm & [= <-]);
         apply vector_at_Ok in Hnm as [_ Hnm]; exists nm; auto).
  - injection Hname as <-. reflexivity.
  - apply bind_Ok in Hname as ([] & _ & Hname).
    apply bind_Ok in Hname as (nm & Hnm & [= <-]).
    apply vector_at_Ok in Hnm as [_ Hnm]. exists nm. auto.
Qed.

Lemma reject_row_returns g scan_id file_id file e :
  IsCSVErrorAcceptedReject (type e) = true ->
  name_in_range g e ->
  exists row, reject_row ext g scan_id file_id file e = Ok row.
Proof.
  intros Hacc Hrange. unfold reject_row, column_name_of, name_in_range in *.
  destruct (type e); simpl in *; try discriminate;
    try (destruct (vector_at_in_range _ _ Hrange) as [nm Hnm]; rewrite Hnm; simpl;
         eexists; reflexivity).
  - eexists. reflexivity.
  - unfold D_ASSERT.
    replace (wrap (column_idx e + 1) <? vector_size (return_names (bind_data g)))
      with true by (symmetry; apply Z.ltb_lt; lia).
    rewrite andb_false_r. simpl.
    destruct (vector_at_in_range _ _ Hrange) as [nm Hnm]. rewrite Hnm. simpl.
    eexists; reflexivity.
Qed.

(** Once the limit is reached nothing more is stored. *)
Lemma fill_flat_full g scan_id file_id limit es : forall rej,
  limit <> 0 -> limit <= count rej ->
  fill_flat ext g scan_id file_id limit es rej = Ok rej.
Proof.
  induction es as [|fe es IH]; intros rej Hnz Hfull; simpl; [reflexivity|].
  destruct (negb _); [apply IH; assumption|].
  replace (limit =? 0) with false by (symmetry; apply Z.eqb_neq; exact Hnz).
  replace (count rej <? limit) with false by (symmetry; apply Z.ltb_ge; exact Hfull).
  simpl. apply IH; assumption.
Qed.


(** The rows a run of the loop stores are the rows of a prefix of the
    eligible errors, in their order. *)
Lemma fill_flat_rows g scan_id file_id limit es : forall rej rej',
  fill_flat ext g scan_id file_id limit es rej = Ok rej' ->
  exists persisted dropped rows,
    eligible es = persisted ++ dropped
    /\ errors_table rej' = errors_table rej ++ rows
    /\ Forall2 (fun fe row => reject_row ext g scan_id file_id (fst fe) (snd fe) = Ok row)
         persisted rows.
Proof.
  induction es as [|fe es IH]; intros rej rej' H; simpl in H.
  - injection H as <-. exists [], [], [].
    split; [reflexivity|]. split; [symmetry; apply app_nil_r|]. constructor.
  - unfold eligible. rewrite filter_cons.
    destruct (IsCSVErrorAcceptedReject (type (snd fe))) eqn:Hacc; simpl in H.
    + rewrite decide_True by reflexivity.
      destruct ((limit =? 0) || (count rej <? limit)) eqn:Hguard.
      * apply bind_Ok in H as (row & Hrow & H).
        destruct (IH _ _ H) as (persisted & dropped & rows & Hel & Htab & Hrows).
        exists (fe :: persisted), dropped, (row :: rows).
        split; [unfold eligible in Hel; rewrite Hel; reflexivity|].
        split; [rewrite Htab; simpl; rewrite <- app_assoc; reflexivity|].
        constructor; assumption.
      * apply orb_false_iff in Hguard as [Hnz Hfull].
        apply Z.eqb_neq in Hnz. apply Z.ltb_ge in Hfull.
        rewrite fill_flat_full in H by assumption. injection H as <-.
        eexists [], _, [].
        split; [reflexivity|]. split; [symmetry; apply app_nil_r|]. constructor.
    + rewrite decide_False by discriminate. apply IH. exact H.
Qed.

(** How many rows the loop stores. *)
Lemma fill_flat_count g scan_id file_id limit es : forall rej,
  0 <= limit < IDX_MODULUS ->
  0 <= count rej ->
  Forall (fun fe => name_in_range g (snd fe)) (eligible es) ->
  exists rej' rows,
    fill_flat ext g scan_id file_id limit es rej = Ok rej'
    /\ errors_table rej' = errors_table rej ++ rows
    /\ (limit = 0 -> length rows = length (eligible es))
    /\ (0 < limit ->
          Z.of_nat (length rows) =
            Z.min (Z.of_nat (length (eligible es))) (Z.max 0 (limit - count rej))).
Proof.
  induction es as [|fe es IH]; intros rej Hlimit Hcount Hwf; simpl.
  - exists rej, []. rewrite app_nil_r. repeat split; auto. simpl. lia.
  - unfold eligible in *. rewrite filter_cons in Hwf |- *.
    destruct (IsCSVErrorAcceptedReject (type (snd fe))) eqn:Hacc; simpl.
    + try rewrite decide_True in Hwf by reflexivity.
      try rewrite decide_True by reflexivity.
      simpl in Hwf.
      inversion Hwf as [|? ? Hfe Hrest]; subst.
      destruct ((limit =? 0) || (count rej <? limit)) eqn:Hguard.
      * destruct (reject_row_returns g scan_id file_id (fst fe) (snd fe) Hacc Hfe)
          as [row Hrow].
        rewrite Hrow. simpl.
        destruct (IH {| count := wrap (count rej + 1);
                        errors_table := errors_table rej ++ [row] |})
          as (rej' & rows & Hfill & Htab & Hall & Hlim); auto.
        { simpl. apply wrap_is_idx. }
        exists rej', (row :: rows). split; [exact Hfill|].
        split; [rewrite Htab; simpl; rewrite <- app_assoc; reflexivity|].
        split.
        -- intros Hz. simpl. rewrite (Hall Hz). reflexivity.
        -- intros Hpos. specialize (Hlim Hpos). simpl in Hlim.
           apply orb_true_iff in Hguard as [Hz|Hlt]; [apply Z.eqb_eq in Hz; lia|].
           apply Z.ltb_lt in Hlt.
           rewrite wrap_idx in Hlim by (unfold is_idx; lia).
           rewrite !length_cons. lia.
      * apply orb_false_iff in Hguard as [Hnz Hfull].
        apply Z.eqb_neq in Hnz. apply Z.ltb_ge in Hfull.
        rewrite fill_flat_full by assumption.
        exists rej, []. rewrite app_nil_r. split; [reflexivity|]. split; [reflexivity|].
        split; [intros; contradiction|]. intros _. simpl. lia.
    + try rewrite decide_False in Hwf by discriminate.
      try rewrite decide_False by discriminate.
      simpl in Hwf. apply IH; assumption.
Qed.

(** C7. The rows [FillRejectsTable] appends are the rows of a prefix of the
    eligible errors, one row per error and in their order. The row of an
    error with column index c holds c + 1 as its column index (in [idx_t],
    which is c + 1 whenever that fits 64 bits); its column name is NULL for a
    too-many-columns error, the name at index c + 1 of [return_names] for a
    too-few-columns error, and the name at index c for every other kind, the
    name between double quotes. *)
Theorem reject_row_columns g w w' :
  FillRejectsTable ext g w = Ok w' ->
  exists persisted dropped rows,
    eligible_errors w (file_scans g) = persisted ++ dropped
    /\ errors_table (rejects w') = errors_table (rejects w) ++ rows
    /\ Forall2 (fun fe row =>
          IsCSVErrorAcceptedReject (type (snd fe)) = true
          /\ row_column_idx row = wrap (column_idx (snd fe) + 1)
          /\ (0 <= column_idx (snd fe) -> column_idx (snd fe) + 1 < IDX_MODULUS ->
              row_column_idx row = column_idx (snd fe) + 1
              /\ wrap (column_idx (snd fe) + 1) = column_idx (snd fe) + 1)
          /\ column_name_matches g (snd fe) row) persisted rows.
Proof.
  unfold FillRejectsTable. intros H.
  destruct (store_rejects (options (bind_data g))).
  - apply bind_Ok in H as (rej & Hfill & [= <-]).
    apply fill_file_scans_flat in Hfill.
    destruct (fill_flat_rows _ _ _ _ _ _ _ Hfill)
      as (persisted & dropped & rows & Hel & Htab & Hrows).
    exists persisted, dropped, rows. split; [exact Hel|]. split; [exact Htab|].
    assert (Hacc : Forall (fun fe => IsCSVErrorAcceptedReject (type (snd fe)) = true)
                     persisted).
    { apply Forall_forall. intros fe Hin.
      assert (Hin' : fe ∈ eligible (collected_errors w (file_scans g))).
      { rewrite Hel. apply elem_of_app. left. exact Hin. }
      unfold eligible in Hin'. apply list_elem_of_filter in Hin' as [Ha _]. exact Ha. }
    clear Hel Htab Hfill. revert Hacc. induction Hrows as [|fe row persisted rows Hrow Hrows IH];
      intros Hacc; [constructor|].
    inversion Hacc as [|? ? Ha Hacc']; subst.
    constructor; [|apply IH; exact Hacc'].
    apply reject_row_Ok in Hrow
      as (_ & _ & _ & _ & Hcol & Hname & _).
    split; [exact Ha|]. split; [exact Hcol|]. split; [|exact Hname].
    intros Hlo Hhi. rewrite Hcol. rewrite wrap_idx by (unfold is_idx; lia). auto.
  - injection H as <-. exists [], (eligible_errors w (file_scans g)), [].
    split; [reflexivity|]. split; [symmetry; apply app_nil_r|]. constructor.
Qed.

(** C6, as the code has it. With [store_rejects] on, file contexts whose
    eligible errors name columns within [return_names], and a limit K,
    [FillRejectsTable] returns and appends: every eligible error when K = 0;
    when K > 0, as many rows as there are eligible errors, but no more than
    what K leaves above the count the rejects table already holds. For a
    table that holds none and more than K eligible errors that is exactly K
    rows. *)
Theorem rejects_limit_respected g w :
  store_rejects (options (bind_data g)) = true ->
  Forall (fun p => is_Some (heap w !! p)) (file_scans g) ->
  Forall (fun fe => name_in_range g (snd fe)) (eligible_errors w (file_scans g)) ->
  0 <= rejects_limit (options (bind_data g)) < IDX_MODULUS ->
  0 <= count (rejects w) ->
  exists w' rows,
    FillRejectsTable ext g w = Ok w'
    /\ errors_table (rejects w') = errors_table (rejects w) ++ rows
    /\ (rejects_limit (options (bind_data g)) = 0 ->
        length rows = length (eligible_errors w (file_scans g)))
    /\ (0 < rejects_limit (options (bind_data g)) ->
        Z.of_nat (length rows) =
          Z.min (Z.of_nat (length (eligible_errors w (file_scans g))))
                (Z.max 0 (rejects_limit (options (bind_data g)) - count (rejects w))))
    /\ (0 < rejects_limit (options (bind_data g)) ->
        count (rejects w) = 0 ->
        rejects_limit (options (bind_data g))
          < Z.of_nat (length (eligible_errors w (file_scans g))) ->
        Z.of_nat (length rows) = rejects_limit (options (bind_data g))).
Proof.
  intros Hstore Hvalid Hwf Hlimit Hcount.
  unfold FillRejectsTable. rewrite Hstore.
  rewrite (fill_file_scans_flat_valid g w _ _ _ _ _ Hvalid).
  destruct (fill_flat_count g (active_query w) 0 (rejects_limit (options (bind_data g)))
              (collected_errors w (file_scans g)) (rejects w) Hlimit Hcount Hwf)
    as (rej' & rows & Hfill & Htab & Hall & Hlim).
  rewrite Hfill. simpl. exists (set_rejects rej' w), rows.
  split; [reflexivity|]. split; [exact Htab|]. split; [exact Hall|].
  split; [exact Hlim|].
  intros Hpos Hfresh Hmore. rewrite (Hlim Hpos), Hfresh. unfold eligible_errors in Hmore. lia.
Qed.

(** X1. Every row [FillRejectsTable] appends carries the active query as its
    scan id and 0 as its file id, whichever file the error is from: [file_id]
    is set to 0 before the loops and never advanced. *)
Theorem reject_rows_ids g w w' :
  FillRejectsTable ext g w = Ok w' ->
  exists rows,
    errors_table (rejects w') = errors_table (rejects w) ++ rows
    /\ Forall (fun row => row_scan_id row = active_query w /\ row_file_id row = 0) rows.
Proof.
  unfold FillRejectsTable. intros H.
  destruct (store_rejects (options (bind_data g))).
  - apply bind_Ok in H as (rej & Hfill & [= <-]).
    apply fill_file_scans_flat in Hfill.
    destruct (fill_flat_rows _ _ _ _ _ _ _ Hfill)
      as (persisted & dropped & rows & _ & Htab & Hrows).
    exists rows. split; [exact Htab|].
    clear Htab Hfill. induction Hrows as [|fe row persisted rows Hrow Hrows IH];
      constructor; [|exact IH].
    apply reject_row_Ok in Hrow as (Hscan & Hfile & _). auto.
  - injection H as <-. exists []. split; [symmetry; apply app_nil_r | constructor].
Qed.

End Rejects.

(** C6 fails as stated: a limit of 1, a rejects table that already holds one
    reject of an earlier statement, and two eligible errors. [FillRejectsTable]
    appends nothing. *)
Lemma rejects_limit_counterexample :
  exists g w w',
    demo_second_statement = Ok (g, w)
    /\ store_rejects (options (bind_data g)) = true
    /\ rejects_limit (options (bind_data g)) = 1
    /\ length (eligible_errors w (file_scans g)) = 2%nat
    /\ count (rejects w) = 1
    /\ FillRejectsTable demo_ext g w = Ok w'
    /\ errors_table (rejects w') = errors_table (rejects w).
Proof.
  eexists _, _, _. split; [vm_compute; reflexivity|].
  repeat split.
Qed.

Lemma rejects_limit_respected_witness :
  exists g w w' rows,
    demo_with_errors 2 = Ok (g, w)
    /\ length (eligible_errors w (file_scans g)) = 4%nat
    /\ FillRejectsTable demo_ext g w = Ok w'
    /\ errors_table (rejects w') = errors_table (rejects w) ++ rows
    /\ Z.of_nat (length rows) = 2.
Proof.
  destruct (demo_with_errors 2) as [[g w]|e] eqn:Hs; [|vm_compute in Hs; discriminate Hs].
  assert (Hstore : store_rejects (options (bind_data g)) = true)
    by (vm_compute in Hs; injection Hs as <- <-; reflexivity).
  assert (Hlimit : rejects_limit (options (bind_data g)) = 2)
    by (vm_compute in Hs; injection Hs as <- <-; reflexivity).
  assert (Hcount : count (rejects w) = 0)
    by (vm_compute in Hs; injection Hs as <- <-; reflexivity).
  assert (Hvalid : Forall (fun p => is_Some (heap w !! p)) (file_scans g)).
  { vm_compute in Hs. injection Hs as <- <-.
    apply Forall_cons. split; [eexists; reflexivity | apply Forall_nil_2]. }
  assert (Hlen : length (eligible_errors w (file_scans g)) = 4%nat)
    by (vm_compute in Hs; injection Hs as <- <-; reflexivity).
  assert (Hwf : Forall (fun fe => name_in_range g (snd fe)) (eligible_errors w (file_scans g))).
  { vm_compute in Hs. injection Hs as <- <-.
    apply Forall_forall. intros fe Hin.
    unfold eligible_errors, eligible, collected_errors, errors_of_file in Hin. simpl in Hin.
    repeat (apply elem_of_cons in Hin as [->|Hin]; [vm_compute; intuition discriminate|]).
    apply elem_of_nil in Hin. destruct Hin. }
  destruct (rejects_limit_respected demo_ext g w Hstore Hvalid Hwf)
    as (w' & rows & Hfill & Htab & _ & _ & Hk).
  { rewrite Hlimit. split; [discriminate | reflexivity]. }
  { rewrite Hcount. discriminate. }
  exists g, w, w', rows. split; [reflexivity|]. split; [exact Hlen|].
  split; [exact Hfill|]. split; [exact Htab|].
  rewrite <- Hlimit. apply Hk.
  - rewrite Hlimit. reflexivity.
  - exact Hcount.
  - rewrite Hlimit, Hlen. reflexivity.
Defined.

Lemma reject_row_columns_witness :
  exists g w w' (persisted : list (CSVFileScan * CSVError)) rows,
    demo_with_errors 0 = Ok (g, w)
    /\ FillRejectsTable demo_ext g w = Ok w'
    /\ errors_table (rejects w') = errors_table (rejects w) ++ rows
    /\ length rows = 4%nat
    /\ Forall2 (fun fe row =>
          row_column_idx row = wrap (column_idx (snd fe) + 1)
          /\ column_name_matches g (snd fe) row) persisted rows.
Proof.
  destruct (demo_with_errors 0) as [[g w]|e] eqn:Hs; [|vm_compute in Hs; discriminate Hs].
  destruct (FillRejectsTable demo_ext g w) as [w'|e] eqn:Hfill;
    [|vm_compute in Hs; injection Hs as <- <-; vm_compute in Hfill; discriminate Hfill].
  destruct (reject_row_columns demo_ext g w w' Hfill)
    as (persisted & dropped & rows & _ & Htab & Hrows).
  exists g, w, w', persisted, rows.
  split; [reflexivity|]. split; [exact Hfill|]. split; [exact Htab|].
  split.
  - assert (Hlen : length (errors_table (rejects w')) = 4%nat
                   /\ length (errors_table (rejects w)) = 0%nat).
    { vm_compute in Hs. injection Hs as <- <-. vm_compute in Hfill.
      injection Hfill as <-. split; reflexivity. }
    destruct Hlen as [Hlen' Hlen0]. rewrite Htab, length_app, Hlen0 in Hlen'. exact Hlen'.
  - eapply Forall2_impl; [exact Hrows|]. intros fe row (_ & Hc & _ & Hn). auto.
Defined.

Lemma reject_rows_ids_witness :
  exists g w w' rows,
    demo_with_errors 0 = Ok (g, w)
    /\ FillRejectsTable demo_ext g w = Ok w'
    /\ errors_table (rejects w') = errors_table (rejects w) ++ rows
    /\ length rows = 4%nat
    /\ active_query w = 7
    /\ Forall (fun row => row_scan_id row = active_query w /\ row_file_id row = 0) rows.
Proof.
  destruct (demo_with_errors 0) as [[g w]|e] eqn:Hs; [|vm_compute in Hs; discriminate Hs].
  destruct (FillRejectsTable demo_ext g w) as [w'|e] eqn:Hfill;
    [|vm_compute in Hs; injection Hs as <- <-; vm_compute in Hfill; discriminate Hfill].
  destruct (reject_rows_ids demo_ext g w w' Hfill) as (rows & Htab & Hrows).
  assert (Hbefore : errors_table (rejects w) = [])
    by (vm_compute in Hs; injection Hs as <- <-; reflexivity).
  assert (Hafter : length (errors_table (rejects w')) = 4%nat).
  { vm_compute in Hs. injection Hs as <- <-. vm_compute in Hfill. injection Hfill as <-.
    reflexivity. }
  assert (Hquery : active_query w = 7)
    by (vm_compute in Hs; injection Hs as <- <-; reflexivity).
  exists g, w, w', rows. split; [reflexivity|]. split; [exact Hfill|].
  split; [exact Htab|].
  split. { rewrite Htab, Hbefore in Hafter. exact Hafter. }
  split; [exact Hquery | exact Hrows].
Defined.

(** ** The file contexts the coordinator holds *)

Section Registry.

Variable ext : Externals.

(** What a call of [Next] does in range-parallel mode before [finished]. *)
Lemma Next_parallel_eq g w p f :
  single_threaded g = false -> finished g = false ->
  back (file_scans g) = Ok p -> deref w p = Ok f ->
  Next ext g w =
    let usage :=
      if negb (buffer_idx (current_buffer_in_use g) =? GetBufferIdx (current_boundary g))
      then CSVBufferUsage_new (buffer_manager f) (GetBufferIdx (current_boundary g))
      else current_buffer_in_use g in
    let csv_scanner :=
      {| scanner_id := scanner_idx g; scanner_file := p;
         scanner_boundary := current_boundary g; buffer_tracker := Some usage |} in
    let g1 := set_scanner_idx (wrap (scanner_idx g + 1)) (set_current_buffer_in_use usage g) in
    let it := CSVIterator_Next ext (buffer_manager f) (current_boundary g) in
    let g2 := set_current_boundary (snd it) g1 in
    if fst it then Ok (Some csv_scanner, g2, w)
    else if wrap (file_idx f + 1) <? vector_size (files (bind_data g)) then
      do path <- vector_at (files (bind_data g)) (wrap (file_idx f + 1));
      let fnew := CSVFileScan_open w path (wrap (file_idx f + 1)) in
      Ok (Some csv_scanner,
          set_current_buffer_in_use (CSVBufferUsage_new (buffer_manager fnew) 0)
            (set_current_boundary
               (CSVIterator_new (wrap (file_idx f + 1)) 0 0 0
                  (GetBuffer_actual_size (buffer_manager fnew) 0))
               (set_file_scans (file_scans g ++ [length (heap w)]) g2)),
          set_heap (heap w ++ [fnew]) w)
    else Ok (Some csv_scanner, set_finished true g2, w).
Proof.
  intros Hmode Hfin Hp Hf. unfold Next. rewrite Hmode, Hfin, Hp. simpl. rewrite Hf. simpl.
  cbv zeta.
  destruct (negb (buffer_idx (current_buffer_in_use g) =? GetBufferIdx (current_boundary g)));
    simpl.
  - destruct (CSVIterator_Next ext (buffer_manager f) (current_boundary g))
      as [has_next boundary]. simpl.
    destruct has_next; simpl; [reflexivity|].
    destruct (_ <? _); [|reflexivity].
    destruct (vector_at _ _) as [path|e]; simpl; [|reflexivity].
    pose proof (deref_make_shared (CSVFileScan_open w path (wrap (file_idx f + 1))) w) as Hd.
    simpl in Hd. rewrite Hd. reflexivity.
  - destruct (CSVIterator_Next ext (buffer_manager f) (current_boundary g))
      as [has_next boundary]. simpl.
    destruct has_next; simpl.
    + destruct g; reflexivity.
    + destruct (_ <? _).
      * destruct (vector_at _ _) as [path|e]; simpl; [|reflexivity].
        pose proof (deref_make_shared (CSVFileScan_open w path (wrap (file_idx f + 1))) w) as Hd.
        simpl in Hd. rewrite Hd. destruct g; reflexivity.
      * destruct g; reflexivity.
Qed.


Lemma back_lookup {A : Type} (v : list A) (a : A) :
  back v = Ok a <-> v !! pred (length v) = Some a.
Proof. rewrite back_Ok, last_lookup. reflexivity. Qed.

Lemma new_registry_inv w bm opts t bd s0 :
  vector_size (files bd) < IDX_MODULUS ->
  CSVGlobalState_new ext w bm opts t (files bd) bd = Ok s0 ->
  registry_inv s0.
Proof.
  intros Hsize Hnew. destruct s0 as [g0 w0].
  apply CSVGlobalState_new_inv in Hnew
    as (first & scan & Hfirst & -> & Hidx & Hpath & _ & _ & _ & ->).
  cbv zeta. unfold registry_inv, scans_in_order. simpl.
  assert (Hd : deref (set_heap (heap w ++ [scan]) w) (length (heap w)) = Ok scan)
    by exact (deref_make_shared scan w).
  split; [exact Hsize|]. split; [discriminate|].
  split.
  { intros [|i] p Hi; [|discriminate]. injection Hi as <-.
    exists scan. split; [apply deref_Ok in Hd; exact Hd|].
    split; [exact Hidx|]. rewrite Hpath. exact Hfirst. }
  split; [reflexivity|]. split; [discriminate|].
  intros _. exists (length (heap w)), scan. auto.
Qed.

(** The invariant does not see what the workers change in a context. *)
Lemma registry_inv_alter h g w q :
  (forall f, file_idx (h f) = file_idx f /\ file_path (h f) = file_path f
             /\ buffer_manager (h f) = buffer_manager f) ->
  registry_inv (g, w) ->
  registry_inv (g, set_heap (alter h q (heap w)) w).
Proof.
  intros Hh (Hsize & Hne & Hord & Hst & Hfin & Huse). unfold registry_inv in *. simpl in *.
  assert (Hlook : forall p f, heap w !! p = Some f ->
            exists f', alter h q (heap w) !! p = Some f'
                       /\ file_idx f' = file_idx f /\ file_path f' = file_path f
                       /\ buffer_manager f' = buffer_manager f).
  { intros p f Hf. destruct (decide (q = p)) as [->|Hqp].
    - exists (h f). rewrite list_lookup_alter_eq, Hf. destruct (Hh f) as (? & ? & ?). auto.
    - exists f. rewrite list_lookup_alter_ne by exact Hqp. auto. }
  split; [exact Hsize|]. split; [exact Hne|].
  split.
  { intros i p Hi. destruct (Hord i p Hi) as (f & Hf & Hidx & Hpath).
    destruct (Hlook p f Hf) as (f' & Hf' & Hi' & Hp' & _).
    exists f'. rewrite Hi', Hp'. auto. }
  split; [exact Hst|]. split; [exact Hfin|].
  intros Hmode. destruct (Huse Hmode) as (p & f & Hp & Hf & Hu).
  apply deref_Ok in Hf. destruct (Hlook p f Hf) as (f' & Hf' & _ & _ & Hb').
  exists p, f'. split; [exact Hp|]. split; [apply deref_Ok; exact Hf'|]. congruence.
Qed.

(** Nor what a step changes outside [file_scans], [finished], the buffer in
    use and the contexts that exist. *)
Lemma registry_inv_same g w g' w' :
  registry_inv (g, w) ->
  bind_data g' = bind_data g -> file_scans g' = file_scans g ->
  single_threaded g' = single_threaded g -> finished g' = finished g ->
  (single_threaded g = false ->
   usage_file (current_buffer_in_use g') = usage_file (current_buffer_in_use g)) ->
  (exists extra, heap w' = heap w ++ extra) ->
  registry_inv (g', w').
Proof.
  intros (Hsize & Hne & Hord & Hst & Hfin & Huse) Hbd Hscans Hmode Hf Hu (extra & Hheap).
  unfold registry_inv, scans_in_order in *. simpl in *.
  rewrite Hbd, Hscans, Hmode, Hf.
  split; [exact Hsize|]. split; [exact Hne|].
  split.
  { intros i p Hi. destruct (Hord i p Hi) as (f & Hpf & Hrest).
    exists f. split; [|exact Hrest]. rewrite Hheap. apply lookup_app_l_Some. exact Hpf. }
  split; [exact Hst|]. split; [exact Hfin|].
  intros Hm. destruct (Huse Hm) as (p & f & Hp & Hpf & Hx).
  exists p, f. split; [exact Hp|].
  split. { apply deref_Ok. rewrite Hheap. apply lookup_app_l_Some. apply deref_Ok. exact Hpf. }
  rewrite (Hu Hm). exact Hx.
Qed.

(** The file at the back of [file_scans] is the last of the files opened. *)
Lemma registry_inv_back g w p f :
  registry_inv (g, w) -> back (file_scans g) = Ok p -> deref w p = Ok f ->
  file_idx f = Z.of_nat (length (file_scans g)) - 1
  /\ (1 <= length (file_scans g) <= length (files (bind_data g)))%nat.
Proof.
  intros (Hsize & Hne & Hord & _) Hp Hf. simpl in *.
  apply back_lookup in Hp. destruct (Hord _ _ Hp) as (f' & Hf' & Hidx & Hpath).
  apply deref_Ok in Hf. simpl in Hf'. rewrite Hf in Hf'. injection Hf' as <-.
  apply lookup_lt_Some in Hpath.
  destruct (file_scans g) as [|p0 l]; [congruence|]. simpl in *. lia.
Qed.

Lemma step_registry_inv a g w g' w' :
  registry_inv (g, w) -> step ext a (g, w) = Ok (g', w') -> registry_inv (g', w').
Proof.
  intros Hinv Hstep.
  destruct a as [|thread|q n|q line error]; simpl in Hstep.
  - apply bind_Ok in Hstep as ([[ret g1] w1] & Hnext & Hstep).
    injection Hstep as <- <-. simpl.
    pose proof (Next_frame ext _ _ _ _ _ Hnext)
      as (Hbd & Hm & _ & _ & Hheap & _).
    destruct (single_threaded g) eqn:Hmode.
    + rewrite (Next_single_threaded ext g w Hmode) in Hnext. cbv zeta in Hnext.
      assert (Hkeep : file_scans g1 = file_scans g /\ finished g1 = finished g).
      { destruct (_ <=? _); [injection Hnext as <- <- <-; auto|].
        destruct (_ =? _).
        - apply bind_Ok in Hnext as (? & _ & Hnext). injection Hnext as <- <- <-. auto.
        - apply bind_Ok in Hnext as (? & _ & Hnext). injection Hnext as <- <- <-. auto. }
      destruct Hkeep as [Hs Hf].
      apply (registry_inv_same g w); auto; [congruence | intros E; congruence].
    + destruct (finished g) eqn:Hfin.
      { unfold Next in Hnext. rewrite Hmode, Hfin in Hnext. injection Hnext as <- <- <-.
        exact Hinv. }
      pose proof Hinv as (Hsize & Hne & Hord & Hst & Hfinished & Huse). simpl in *.
      destruct (Huse Hmode) as (p & f & Hp & Hf & Hu).
      destruct (registry_inv_back g w p f Hinv Hp Hf) as (Hidx & Hlen).
      rewrite (Next_parallel_eq g w p f Hmode Hfin Hp Hf) in Hnext. cbv zeta in Hnext.
      set (usage := if negb (buffer_idx (current_buffer_in_use g)
                             =? GetBufferIdx (current_boundary g))
                    then CSVBufferUsage_new (buffer_manager f)
                           (GetBufferIdx (current_boundary g))
                    else current_buffer_in_use g) in *.
      assert (Husage : usage_file usage = bm_file_path (buffer_manager f)).
      { subst usage. destruct (negb _); [reflexivity | exact Hu]. }
      assert (Hwrap : wrap (file_idx f + 1) = Z.of_nat (length (file_scans g))).
      { rewrite Hidx. replace (Z.of_nat (length (file_scans g)) - 1 + 1)
          with (Z.of_nat (length (file_scans g))) by lia.
        apply wrap_idx. unfold is_idx, vector_size in *. lia. }
      destruct (fst (CSVIterator_Next ext (buffer_manager f) (current_boundary g))).
      * injection Hnext as <- <- <-.
        apply (registry_inv_same g w); auto.
        intros _. simpl. congruence.
      * rewrite Hwrap in Hnext.
        destruct (Z.ltb_spec (Z.of_nat (length (file_scans g)))
                    (vector_size (files (bind_data g)))) as [Hlt|Hge].
        -- apply bind_Ok in Hnext as (path & Hpath & Hnext).
           injection Hnext as <- <- <-.
           apply vector_at_Ok in Hpath as [_ Hpath]. rewrite Nat2Z.id in Hpath.
           unfold registry_inv, scans_in_order. simpl.
           split; [exact Hsize|].
           split. { intros E. apply app_eq_nil in E as [_ E]. discriminate. }
           split.
           { intros i q Hi. apply lookup_app_Some in Hi as [Hi | [Hge Hi]].
             - destruct (Hord i q Hi) as (fq & Hfq & Hrest).
               exists fq. split; [apply lookup_app_l_Some; exact Hfq | exact Hrest].
             - apply list_lookup_singleton_Some in Hi as [Hi <-].
               assert (i = length (file_scans g)) as -> by lia.
               eexists. split.
               { rewrite lookup_app_r by lia. rewrite Nat.sub_diag. reflexivity. }
               simpl. auto. }
           split; [intros _; exact Hfin|]. split; [rewrite Hfin; discriminate|].
           intros _. eexists _, _. split; [apply back_snoc|].
           split; [apply (deref_make_shared _ w)|]. reflexivity.
        -- injection Hnext as <- <- <-.
           unfold registry_inv, scans_in_order. simpl.
           split; [exact Hsize|]. split; [exact Hne|]. split; [exact Hord|].
           split; [rewrite Hmode; discriminate|].
           split. { intros _. unfold vector_size in Hge. lia. }
           intros _. exists p, f. auto.
  - apply DecrementThread_frame in Hstep as (-> & Hheap & _).
    apply (registry_inv_same g w); auto.
    exists []. rewrite Hheap. symmetry. apply app_nil_r.
  - injection Hstep as <- <-. apply registry_inv_alter; [|exact Hinv].
    intros f. unfold read_bytes. destruct (_ && _); auto.
  - injection Hstep as <- <-. apply registry_inv_alter; [|exact Hinv].
    intros f. auto.
Qed.

Lemma run_registry_inv trace : forall s s',
  registry_inv s -> run ext trace s = Ok s' -> registry_inv s'.
Proof.
  induction trace as [|a trace IH]; intros s s' Hinv Hrun; simpl in Hrun.
  - injection Hrun as <-. exact Hinv.
  - apply bind_Ok in Hrun as (s1 & Hstep & Hrun).
    destruct s as [g w], s1 as [g1 w1].
    apply (IH (g1, w1)); [|exact Hrun].
    apply (step_registry_inv a g w g1 w1 Hinv Hstep).
Qed.

Lemma reachable_registry_inv s : reachable ext s -> registry_inv s.
Proof.
  intros (w0 & bm & opts & t & bd & s0 & trace & Hw & Hbm & Hsize & Hnew & Hrun).
  apply (run_registry_inv trace s0); [|exact Hrun].
  exact (new_registry_inv w0 bm opts t bd s0 Hsize Hnew).
Qed.


(** [finished] is never taken back, and nothing is opened after it. *)
Lemma step_finished a g w g' w' :
  finished g = true -> step ext a (g, w) = Ok (g', w') ->
  finished g' = true /\ file_scans g' = file_scans g.
Proof.
  intros Hfin Hstep.
  destruct a as [|thread|q n|q line error]; simpl in Hstep.
  - apply bind_Ok in Hstep as ([[ret g1] w1] & Hnext & Hstep).
    injection Hstep as <- <-. simpl.
    destruct (single_threaded g) eqn:Hmode.
    + rewrite (Next_single_threaded ext g w Hmode) in Hnext. cbv zeta in Hnext.
      destruct (_ <=? _); [injection Hnext as <- <- <-; auto|].
      destruct (_ =? _).
      * apply bind_Ok in Hnext as (? & _ & Hnext). injection Hnext as <- <- <-. auto.
      * apply bind_Ok in Hnext as (? & _ & Hnext). injection Hnext as <- <- <-. auto.
    + unfold Next in Hnext. rewrite Hmode, Hfin in Hnext. injection Hnext as <- <- <-. auto.
  - apply DecrementThread_frame in Hstep as (-> & _). auto.
  - injection Hstep as <- <-. auto.
  - injection Hstep as <- <-. auto.
Qed.

Lemma run_finished trace : forall g w g' w',
  finished g = true -> run ext trace (g, w) = Ok (g', w') ->
  finished g' = true /\ file_scans g' = file_scans g.
Proof.
  induction trace as [|a trace IH]; intros g w g' w' Hfin Hrun; simpl in Hrun.
  - injection Hrun as <- <-. auto.
  - apply bind_Ok in Hrun as ([g1 w1] & Hstep & Hrun).
    destruct (step_finished a g w g1 w1 Hfin Hstep) as [Hfin1 Hs1].
    destruct (IH g1 w1 g' w' Hfin1 Hrun) as [Hfin' Hs'].
    split; [exact Hfin' | congruence].
Qed.

(** X4. In every reachable state [file_scans] holds the contexts of the first
    files of the list, one per file and in the order of the list: entry [i] is
    a live context of file [i], of path [files[i]]. No context is held twice,
    there is at least one and never more than there are files. *)
Theorem file_scans_in_file_order s :
  reachable ext s ->
  scans_in_order s
  /\ NoDup (file_scans (fst s))
  /\ (1 <= length (file_scans (fst s)) <= length (files (bind_data (fst s))))%nat.
Proof.
  intros Hreach. apply reachable_registry_inv in Hreach.
  destruct s as [g w]. pose proof Hreach as (_ & Hne & Hord & _). simpl in *.
  split; [exact Hord|].
  split.
  - apply NoDup_alt. intros i j p Hi Hj.
    destruct (Hord i p Hi) as (f & Hf & Hidx & _).
    destruct (Hord j p Hj) as (f' & Hf' & Hidx' & _).
    simpl in *. rewrite Hf in Hf'. injection Hf' as <-. lia.
  - destruct (back (file_scans g)) as [p|e] eqn:Hp.
    + pose proof Hp as Hp'. apply back_lookup in Hp'.
      destruct (Hord _ _ Hp') as (f & Hf & _).
      apply deref_Ok in Hf.
      exact (proj2 (registry_inv_back g w p f Hreach Hp Hf)).
    + unfold back in Hp. destruct (last (file_scans g)) eqn:Hl; [discriminate|].
      apply last_None in Hl. contradiction.
Qed.

(** X5. Range-parallel scanning finishes only after the last file of the
    list has been opened: in a reachable state with [finished] set the mode is
    range-parallel and [file_scans] holds a context for every file. From then
    on [Next] returns the null pointer and changes nothing, and whatever the
    workers do, [finished] stays set and no file is opened. *)
Theorem finished_after_last_file g w :
  reachable ext (g, w) -> finished g = true ->
  single_threaded g = false
  /\ length (file_scans g) = length (files (bind_data g))
  /\ Next ext g w = Ok (None, g, w)
  /\ forall trace g' w', run ext trace (g, w) = Ok (g', w') ->
       finished g' = true /\ file_scans g' = file_scans g.
Proof.
  intros Hreach Hfin. apply reachable_registry_inv in Hreach.
  destruct Hreach as (_ & _ & _ & Hst & Hlen & _). simpl in *.
  assert (Hmode : single_threaded g = false).
  { destruct (single_threaded g); [|reflexivity]. rewrite Hst in Hfin by reflexivity.
    discriminate. }
  split; [exact Hmode|]. split; [exact (Hlen Hfin)|].
  split. { unfold Next. rewrite Hmode, Hfin. reflexivity. }
  intros trace g' w' Hrun. exact (run_finished trace g w g' w' Hfin Hrun).
Qed.


Lemma context_kept_refl f : context_kept f f.
Proof. unfold context_kept. repeat split; auto; lia. Qed.

Lemma context_kept_trans f1 f2 f3 :
  context_kept f1 f2 -> context_kept f2 f3 -> context_kept f1 f3.
Proof.
  unfold context_kept. intros (? & ? & ? & ? & ? & ?) (? & ? & ? & ? & ? & ?).
  repeat split; try congruence; [lia | etrans; eauto].
Qed.

Lemma step_contexts_kept a g w g' w' :
  step ext a (g, w) = Ok (g', w') ->
  bind_data g' = bind_data g
  /\ file_scans g `prefix_of` file_scans g'
  /\ forall p f, heap w !! p = Some f ->
       exists f', heap w' !! p = Some f' /\ context_kept f f'.
Proof.
  intros Hstep.
  assert (Halter : forall h q,
            (forall f, context_kept f (h f)) ->
            forall p f, heap w !! p = Some f ->
              exists f', alter h q (heap w) !! p = Some f' /\ context_kept f f').
  { intros h q Hh p f Hf. destruct (decide (q = p)) as [->|Hne].
    - exists (h f). rewrite list_lookup_alter_eq, Hf. split; [reflexivity | apply Hh].
    - exists f. rewrite list_lookup_alter_ne by exact Hne.
      split; [exact Hf | apply context_kept_refl]. }
  destruct a as [|thread|q n|q line error]; simpl in Hstep.
  - apply bind_Ok in Hstep as ([[ret g1] w1] & Hnext & Hstep).
    injection Hstep as <- <-. simpl.
    pose proof (Next_frame ext _ _ _ _ _ Hnext) as (Hbd & _ & _ & _ & (extra & Hheap) & _).
    split; [exact Hbd|].
    split.
    + destruct (single_threaded g) eqn:Hmode.
      * rewrite (Next_single_threaded ext g w Hmode) in Hnext. cbv zeta in Hnext.
        destruct (_ <=? _); [injection Hnext as <- <- <-; reflexivity|].
        destruct (_ =? _).
        -- apply bind_Ok in Hnext as (? & _ & Hnext). injection Hnext as <- <- <-. reflexivity.
        -- apply bind_Ok in Hnext as (? & _ & Hnext). injection Hnext as <- <- <-. reflexivity.
      * destruct (Next_parallel ext g w ret g1 w1 Hmode Hnext)
          as [_ -> _ | ? ? ? ? _ _ _ Hscans _ _ | ? ? ? ? _ _ _ _ _ Hscans _ _];
          rewrite ?Hscans; [reflexivity | reflexivity | apply prefix_app_r; reflexivity].
    + intros p f Hf. exists f. rewrite Hheap.
      split; [apply lookup_app_l_Some; exact Hf | apply context_kept_refl].
  - apply DecrementThread_frame in Hstep as (-> & Hheap & _). simpl.
    split; [reflexivity|]. split; [reflexivity|].
    intros p f Hf. exists f. rewrite Hheap. split; [exact Hf | apply context_kept_refl].
  - injection Hstep as <- <-. split; [reflexivity|]. split; [reflexivity|].
    apply Halter. intros f. unfold read_bytes, context_kept.
    destruct (Z.leb_spec 0 n); simpl; [|repeat split; auto; lia].
    destruct (_ <? _); simpl; repeat split; auto; lia.
  - injection Hstep as <- <-. split; [reflexivity|]. split; [reflexivity|].
    apply Halter. intros f. unfold record_error, context_kept. simpl.
    repeat split; auto; [lia | apply prefix_app_r; reflexivity].
Qed.

Lemma run_contexts_kept trace : forall g w g' w',
  run ext trace (g, w) = Ok (g', w') ->
  bind_data g' = bind_data g
  /\ file_scans g `prefix_of` file_scans g'
  /\ forall p f, heap w !! p = Some f ->
       exists f', heap w' !! p = Some f' /\ context_kept f f'.
Proof.
  induction trace as [|a trace IH]; intros g w g' w' Hrun; simpl in Hrun.
  - injection Hrun as <- <-. split; [reflexivity|]. split; [reflexivity|].
    intros p f Hf. exists f. split; [exact Hf | apply context_kept_refl].
  - apply bind_Ok in Hrun as ([g1 w1] & Hstep & Hrun).
    destruct (step_contexts_kept a g w g1 w1 Hstep) as (Hb1 & Hs1 & Hh1).
    destruct (IH g1 w1 g' w' Hrun) as (Hb & Hs & Hh).
    split; [congruence|]. split; [etrans; eauto|].
    intros p f Hf. destruct (Hh1 p f Hf) as (f1 & Hf1 & Hk1).
    destruct (Hh p f1 Hf1) as (f' & Hf' & Hk).
    exists f'. split; [exact Hf' | exact (context_kept_trans f f1 f' Hk1 Hk)].
Qed.

(** X6. Calls of [Next] and [DecrementThread], in any number and order, change
    no file context that exists: [file_scans] only grows at its end, the heap
    of contexts only grows at its end (by the context of a file [Next]
    opens), and every context that existed is the same afterwards, in every
    field. *)
Theorem contexts_are_kept trace g w g' w' :
  forallb coordinator_call trace = true ->
  run ext trace (g, w) = Ok (g', w') ->
  file_scans g `prefix_of` file_scans g'
  /\ heap w `prefix_of` heap w'
  /\ forall p f, heap w !! p = Some f -> heap w' !! p = Some f.
Proof.
  intros Hcalls Hrun.
  assert (H : file_scans g `prefix_of` file_scans g' /\ heap w `prefix_of` heap w').
  { revert g w Hrun. induction trace as [|a trace IH]; intros g w Hrun; simpl in Hrun.
    - injection Hrun as <- <-. split; reflexivity.
    - apply bind_Ok in Hrun as ([g1 w1] & Hstep & Hrun).
      simpl in Hcalls. apply andb_true_iff in Hcalls as [Ha Hcalls].
      destruct (IH Hcalls g1 w1 Hrun) as [Hscans Hheap].
      destruct (step_contexts_kept a g w g1 w1 Hstep) as (_ & Hscans1 & _).
      split; [etrans; eauto|].
      assert (Hheap1 : heap w `prefix_of` heap w1).
      { destruct a as [|thread|q n|q line error]; simpl in Ha, Hstep; try discriminate.
        - apply bind_Ok in Hstep as ([[ret g2] w2] & Hnext & Hstep).
          injection Hstep as <- <-.
          apply Next_frame in Hnext as (_ & _ & _ & _ & (extra & Hextra) & _).
          exists extra. exact Hextra.
        - apply DecrementThread_frame in Hstep as (_ & -> & _). reflexivity. }
      etrans; eauto. }
  destruct H as [Hscans Hheap]. split; [exact Hscans|]. split; [exact Hheap|].
  intros p f Hf. exact (prefix_lookup_Some _ _ _ _ Hf Hheap).
Qed.

(** What [Next] does to the counter of scan units. *)
Lemma Next_scanner_idx g w ret g' w' :
  Next ext g w = Ok (ret, g', w') ->
  match ret with
  | Some u => scanner_id u = scanner_idx g /\ scanner_idx g' = wrap (scanner_idx g + 1)
  | None => scanner_idx g' = scanner_idx g
  end.
Proof.
  intros H. destruct (single_threaded g) eqn:Hmode.
  - rewrite (Next_single_threaded ext g w Hmode) in H. cbv zeta in H.
    destruct (vector_size (files (bind_data g)) <=? last_file_idx g).
    { injection H as <- <- <-. reflexivity. }
    destruct (last_file_idx g =? 0).
    + apply bind_Ok in H as (p & _ & H). injection H as <- <- <-. simpl. auto.
    + apply bind_Ok in H as (path & _ & H). injection H as <- <- <-. simpl. auto.
  - unfold Next in H. rewrite Hmode in H.
    destruct (finished g).
    { injection H as <- <- <-. reflexivity. }
    apply bind_Ok in H as (p & _ & H). apply bind_Ok in H as (f & _ & H).
    destruct (CSVIterator_Next ext _ _) as [has_next boundary].
    destruct has_next; simpl in H.
    + injection H as <- <- <-. destruct (negb _); simpl; auto.
    + destruct (_ <? _).
      * apply bind_Ok in H as (path & _ & H). unfold make_shared in H. cbv zeta in H.
        apply bind_Ok in H as (f' & _ & H). injection H as <- <- <-.
        destruct (negb _); simpl; auto.
      * injection H as <- <- <-. destruct (negb _); simpl; auto.
Qed.

(** X7. The scan units handed out by successive calls of [Next], in either
    mode, carry consecutive ids: the j-th unit has the id of the first plus j
    (the null pointers returned in between take no id), for as long as the
    64-bit counter does not wrap. *)
Theorem scanner_ids_consecutive n : forall g w rets s,
  Next_calls ext n g w = Ok (rets, s) ->
  0 <= scanner_idx g -> scanner_idx g + Z.of_nat n < IDX_MODULUS ->
  scanner_idx (fst s) = scanner_idx g + Z.of_nat (length (units rets))
  /\ forall j u, units rets !! j = Some u -> scanner_id u = scanner_idx g + Z.of_nat j.
Proof.
  induction n as [|n IH]; intros g w rets s H Hlo Hhi; simpl in H.
  - injection H as <- <-. simpl. split; [lia|]. intros j u Hj. discriminate.
  - apply bind_Ok in H as ([[ret g1] w1] & Hnext & H).
    apply bind_Ok in H as ([rets1 s1] & Hcalls & H). injection H as <- <-. simpl in *.
    apply Next_scanner_idx in Hnext.
    destruct ret as [u|]; simpl.
    + destruct Hnext as [Hid Hidx].
      rewrite wrap_idx in Hidx by (unfold is_idx; lia).
      destruct (IH g1 w1 rets1 s1 Hcalls) as [Hlast Hall]; [lia | lia |].
      unfold units in *. simpl.
      split; [rewrite Hlast, Hidx; lia|].
      intros [|j] u' Hj; simpl in Hj.
      * injection Hj as <-. lia.
      * rewrite (Hall j u' Hj), Hidx. lia.
    + destruct (IH g1 w1 rets1 s1 Hcalls) as [Hlast Hall]; [lia | lia |].
      unfold units in *. simpl. rewrite Hnext in *. auto.
Qed.


Lemma Next_last_file_idx g w ret g' w' :
  Next ext g w = Ok (ret, g', w') -> 0 <= last_file_idx g -> 0 <= last_file_idx g'.
Proof.
  intros H Hlo. destruct (single_threaded g) eqn:Hmode.
  - pose proof (wrap_is_idx (last_file_idx g + 1)) as [Hw _].
    rewrite (Next_single_threaded ext g w Hmode) in H. cbv zeta in H.
    destruct (vector_size (files (bind_data g)) <=? last_file_idx g).
    { injection H as <- <- <-. exact Hw. }
    destruct (last_file_idx g =? 0).
    + apply bind_Ok in H as (p & _ & H). injection H as <- <- <-. exact Hw.
    + apply bind_Ok in H as (path & _ & H). injection H as <- <- <-. exact Hw.
  - unfold Next in H. rewrite Hmode in H.
    destruct (finished g).
    { injection H as <- <- <-. exact Hlo. }
    apply bind_Ok in H as (p & _ & H). apply bind_Ok in H as (f & _ & H).
    destruct (CSVIterator_Next ext _ _) as [has_next boundary].
    destruct has_next; simpl in H.
    + injection H as <- <- <-. destruct (negb _); exact Hlo.
    + destruct (_ <? _).
      * apply bind_Ok in H as (path & _ & H). unfold make_shared in H. cbv zeta in H.
        apply bind_Ok in H as (f' & _ & H). injection H as <- <- <-.
        destruct (negb _); exact Hlo.
      * injection H as <- <- <-. destruct (negb _); exact Hlo.
Qed.

Lemma run_last_file_idx trace : forall g w g' w',
  run ext trace (g, w) = Ok (g', w') -> 0 <= last_file_idx g -> 0 <= last_file_idx g'.
Proof.
  induction trace as [|a trace IH]; intros g w g' w' Hrun Hlo; simpl in Hrun.
  - injection Hrun as <- <-. exact Hlo.
  - apply bind_Ok in Hrun as ([g1 w1] & Hstep & Hrun).
    apply (IH g1 w1 g' w' Hrun).
    destruct a as [|thread|q n|q line error]; simpl in Hstep.
    + apply bind_Ok in Hstep as ([[ret g2] w2] & Hnext & Hstep).
      injection Hstep as <- <-. exact (Next_last_file_idx _ _ _ _ _ Hnext Hlo).
    + apply DecrementThread_frame in Hstep as (-> & _). exact Hlo.
    + injection Hstep as <- <-. exact Hlo.
    + injection Hstep as <- <-. exact Hlo.
Qed.

(** The file at the back of [file_scans], in a reachable state. *)
Lemma reachable_back g w :
  reachable ext (g, w) ->
  0 <= last_file_idx g
  /\ exists p f, back (file_scans g) = Ok p /\ deref w p = Ok f
                 /\ file_idx f = Z.of_nat (length (file_scans g)) - 1.
Proof.
  intros Hreach.
  split.
  { destruct Hreach as (w0 & bm & opts & t & bd & [g0 w1] & trace & _ & _ & _ & Hnew & Hrun).
    apply (run_last_file_idx trace g0 w1 g w Hrun).
    apply CSVGlobalState_new_inv in Hnew as (? & ? & _ & _ & _ & _ & _ & _ & _ & ->).
    simpl. lia. }
  apply reachable_registry_inv in Hreach.
  pose proof Hreach as (Hsize & Hne & Hord & _). simpl in *.
  destruct (back (file_scans g)) as [p|e] eqn:Hp.
  2:{ unfold back in Hp. destruct (last (file_scans g)) eqn:Hl; [discriminate|].
      apply last_None in Hl. contradiction. }
  pose proof Hp as Hp'. apply back_lookup in Hp'.
  destruct (Hord _ _ Hp') as (f & Hf & _). apply deref_Ok in Hf. simpl in Hf.
  exists p, f. split; [reflexivity|]. split; [exact Hf|].
  exact (proj1 (registry_inv_back g w p f Hreach Hp Hf)).
Qed.

Lemma reachable_Next_returns g w :
  reachable ext (g, w) -> exists ret g' w', Next ext g w = Ok (ret, g', w').
Proof.
  intros Hreach.
  destruct (reachable_back g w Hreach) as (Hlast & p & f & Hp & Hf & Hidx).
  destruct (single_threaded g) eqn:Hmode.
  - rewrite (Next_single_threaded ext g w Hmode). cbv zeta.
    destruct (Z.leb_spec (vector_size (files (bind_data g))) (last_file_idx g)); [eauto|].
    destruct (last_file_idx g =? 0).
    + rewrite Hp. simpl. eauto.
    + destruct (vector_at_in_range (files (bind_data g)) (last_file_idx g)) as [path Hpath];
        [lia|]. rewrite Hpath. simpl. eauto.
  - destruct (finished g) eqn:Hfin.
    { unfold Next. rewrite Hmode, Hfin. eauto. }
    rewrite (Next_parallel_eq g w p f Hmode Hfin Hp Hf). cbv zeta.
    destruct (fst (CSVIterator_Next ext (buffer_manager f) (current_boundary g))); [eauto|].
    destruct (Z.ltb_spec (wrap (file_idx f + 1)) (vector_size (files (bind_data g))));
      [|eauto].
    destruct (vector_at_in_range (files (bind_data g)) (wrap (file_idx f + 1)))
      as [path Hpath].
    { pose proof (wrap_is_idx (file_idx f + 1)) as [? _]. lia. }
    rewrite Hpath. simpl. eauto.
Qed.

(** X8. No bounds check and no null pointer is met in a reachable state: the
    indexing of the file list and of [file_scans] and the dereferences in
    [Next], [MaxThreads] and [GetProgress] always succeed, so each of the
    three returns (the opening of a file, which is not the coordinator's, is
    taken to succeed). *)
Theorem reachable_calls_return g w :
  reachable ext (g, w) ->
  (exists ret g' w', Next ext g w = Ok (ret, g', w'))
  /\ (exists n, MaxThreads ext g w = Ok n)
  /\ (forall D, exists v, GetProgress D g w = Ok v).
Proof.
  intros Hreach.
  destruct (reachable_back g w Hreach) as (_ & p & f & Hp & Hf & _).
  split; [exact (reachable_Next_returns g w Hreach)|].
  split.
  - unfold MaxThreads. rewrite Hp. simpl. rewrite Hf. simpl.
    destruct (single_threaded g); [eauto|]. destruct (_ <? _); eauto.
  - intros D. rewrite (GetProgress_eq D g w p f Hp Hf). eauto.
Qed.

(** X9. In range-parallel mode, until [finished], [Next] never returns the
    null pointer (the opening of the next file taken to succeed): it hands out
    a unit for the boundary the cursor was at, bound to the file at the back
    of [file_scans], which is the file the boundary is in; the unit keeps
    alive the buffer its boundary is in, of that file's buffer source. *)
Theorem Next_hands_out_current_boundary g w :
  keeps_file ext ->
  reachable ext (g, w) -> single_threaded g = false -> finished g = false ->
  exists u g' w' p f usage,
    Next ext g w = Ok (Some u, g', w')
    /\ back (file_scans g) = Ok p /\ deref w p = Ok f
    /\ scanner_file u = p
    /\ scanner_boundary u = current_boundary g
    /\ GetFileIdx (scanner_boundary u) = file_idx f
    /\ buffer_tracker u = Some usage
    /\ buffer_idx usage = GetBufferIdx (scanner_boundary u)
    /\ usage_file usage = bm_file_path (buffer_manager f).
Proof.
  intros Hkeeps Hreach Hmode Hfin.
  destruct (reachable_Next_returns g w Hreach) as (ret & g' & w' & Hnext).
  pose proof (reachable_progress_inv ext Hkeeps _ Hreach)
    as (_ & _ & p & f & Hp & Hf & _ & _ & Hcur & _).
  apply reachable_registry_inv in Hreach.
  destruct Hreach as (_ & _ & _ & _ & _ & Huse). simpl in *.
  destruct (Huse Hmode) as (p' & f' & Hp' & Hf' & Hu).
  rewrite Hp in Hp'. injection Hp' as <-. rewrite Hf in Hf'. injection Hf' as <-.
  rewrite (Next_parallel_eq g w p f Hmode Hfin Hp Hf) in Hnext. cbv zeta in Hnext.
  set (usage := if negb (buffer_idx (current_buffer_in_use g)
                         =? GetBufferIdx (current_boundary g))
                then CSVBufferUsage_new (buffer_manager f)
                       (GetBufferIdx (current_boundary g))
                else current_buffer_in_use g) in *.
  assert (Husage : buffer_idx usage = GetBufferIdx (current_boundary g)
                   /\ usage_file usage = bm_file_path (buffer_manager f)).
  { subst usage.
    destruct (Z.eqb_spec (buffer_idx (current_buffer_in_use g))
                (GetBufferIdx (current_boundary g))); simpl; auto. }
  destruct Husage as [Hbi Hbf].
  rewrite (Next_parallel_eq g w p f Hmode Hfin Hp Hf). cbv zeta. fold usage.
  destruct (fst (CSVIterator_Next ext (buffer_manager f) (current_boundary g))).
  { eexists _, _, _, p, f, usage. split; [reflexivity|]. simpl. auto 10. }
  destruct (_ <? _).
  - apply bind_Ok in Hnext as (path & Hpath & _). rewrite Hpath. simpl.
    eexists _, _, _, p, f, usage. split; [reflexivity|]. simpl. auto 10.
  - eexists _, _, _, p, f, usage. split; [reflexivity|]. simpl. auto 10.
Qed.


(** X10. The cursor is in the file opened last: in every reachable state its
    file index is the number of contexts in [file_scans] minus one. So the
    steps of the coordinator and of its workers never take the cursor back
    to an earlier file. *)
Theorem cursor_in_last_opened_file g w :
  keeps_file ext ->
  reachable ext (g, w) ->
  GetFileIdx (current_boundary g) = Z.of_nat (length (file_scans g)) - 1
  /\ forall trace g' w', run ext trace (g, w) = Ok (g', w') ->
       GetFileIdx (current_boundary g) <= GetFileIdx (current_boundary g').
Proof.
  intros Hkeeps Hreach.
  assert (Hcursor : forall g w, reachable ext (g, w) ->
            GetFileIdx (current_boundary g) = Z.of_nat (length (file_scans g)) - 1).
  { intros g1 w1 Hr.
    destruct (reachable_back g1 w1 Hr) as (_ & p & f & Hp & Hf & Hidx).
    pose proof (reachable_progress_inv ext Hkeeps _ Hr)
      as (_ & _ & p' & f' & Hp' & Hf' & _ & _ & Hcur & _). simpl in *.
    rewrite Hp in Hp'. injection Hp' as <-. rewrite Hf in Hf'. injection Hf' as <-.
    congruence. }
  split; [exact (Hcursor g w Hreach)|].
  intros trace g' w' Hrun.
  rewrite (Hcursor g w Hreach).
  rewrite (Hcursor g' w' (reachable_run ext _ trace _ Hreach Hrun)).
  destruct (run_contexts_kept trace g w g' w' Hrun) as (_ & Hprefix & _).
  apply prefix_length in Hprefix. lia.
Qed.

(** X11. The constructor starts at least one worker and never more than the
    thread budget: for a budget of at least 1 the count of running threads it
    stores lies between 1 and the budget (file sizes being unsigned 64-bit
    and [BYTES_PER_THREAD] at least 2, the thread count of a file cannot wrap
    around to 0). *)
Theorem constructor_thread_count_bounds w bm opts t fs bd g w' :
  CSVGlobalState_new ext w bm opts t fs bd = Ok (g, w') ->
  1 <= t ->
  2 <= BYTES_PER_THREAD ext ->
  (forall path, is_idx (bm_file_size (file_system w path))) ->
  (forall b, bm = Some b -> is_idx (bm_file_size b)) ->
  1 <= running_threads g <= t.
Proof.
  intros Hnew Ht Hbpt Hfs Hbm.
  apply CSVGlobalState_new_inv in Hnew
    as (first & scan & _ & _ & _ & _ & _ & Hsize & Hsrc & ->).
  cbv zeta. simpl.
  destruct (_ || _); [lia|].
  assert (Hscan : is_idx (file_size scan)).
  { rewrite Hsize. destruct Hsrc as [-> | E]; [apply Hfs | apply Hbm; exact E]. }
  unfold is_idx, IDX_MODULUS in Hscan.
  assert (Hdiv : 0 <= file_size scan / BYTES_PER_THREAD ext <= file_size scan / 2).
  { split; [apply Z.div_pos; lia|].
    apply Z.div_le_compat_l; lia. }
  assert (Hhalf : file_size scan / 2 < 2 ^ 63).
  { apply Z.div_lt_upper_bound; lia. }
  rewrite wrap_idx by (unfold is_idx, IDX_MODULUS; lia).
  destruct (Z.ltb_spec (file_size scan / BYTES_PER_THREAD ext + 1) t); lia.
Qed.

(** X12. In single-threaded mode the progress reported never passes the
    share of the first file: with n files, the double [GetProgress] returns
    stays between 0 and the value the formula has for the first file fully
    read, [(0/n + 1/n * 1) * 100] as binary64 computes it, whatever has been
    handed out and read. Sizes and counters are [idx_t] values. *)
Theorem single_threaded_progress_cap w bm opts t bd g0 w0 trace g w' :
  world_typed w -> sizes_typed w ->
  (forall b, bm = Some b -> 0 <= bm_file_size b < IDX_MODULUS) ->
  vector_size (files bd) < IDX_MODULUS ->
  CSVGlobalState_new ext w bm opts t (files bd) bd = Ok (g0, w0) ->
  single_threaded g0 = true ->
  run ext trace (g0, w0) = Ok (g, w') ->
  exists v, GetProgress binary64 g w' = Ok v
            /\ PrimFloat.leb (double_of_idx 0) v = true
            /\ PrimFloat.leb v
                 (percentage_of binary64 0 (vector_size (files bd)) (double_of_idx 1))
               = true.
Proof.
  intros Hw Hsz Hbm Hn Hnew Hmode Hrun.
  assert (Hsz0 : sizes_typed w0).
  { apply (new_sizes_typed ext w bm opts t (files bd) bd g0 w0 Hsz); [|exact Hnew].
    intros b Hb. apply Hbm. exact Hb. }
  pose proof (run_sizes_typed ext trace g0 w0 g w' Hsz0 Hrun) as Hsz'.
  apply CSVGlobalState_new_inv in Hnew
    as (first & scan & Hfirst & -> & Hidx & Hpath & Hread & Hsize & Hsrc & Hg).
  cbv zeta in Hg.
  assert (Hscans0 : file_scans g0 = [length (heap w)]) by (rewrite Hg; reflexivity).
  assert (Hcb0 : current_boundary g0 = CSVIterator_default).
  { rewrite Hg in Hmode |- *. simpl in *. rewrite Hmode. reflexivity. }
  assert (Hbd0 : bind_data g0 = bd) by (rewrite Hg; reflexivity).
  assert (Hscan : heap (set_heap (heap w ++ [scan]) w) !! length (heap w) = Some scan).
  { apply deref_Ok. exact (deref_make_shared scan w). }
  destruct (run_single_threaded ext trace g0 _ g w' _ scan Hmode Hscans0 Hscan Hrun)
    as (_ & Hs & Hc & Hb & f0 & Hf0 & _ & _).
  destruct (run_contexts_kept trace g0 _ g w' Hrun) as (_ & _ & Hkept).
  destruct (Hkept _ _ Hscan) as (f0' & Hf0' & (_ & _ & Hfs & _ & Hbr & _)).
  rewrite Hf0 in Hf0'. injection Hf0' as <-.
  assert (Hpos : 0 < vector_size (files bd)).
  { apply lookup_lt_Some in Hfirst. unfold vector_size. lia. }
  assert (Hfs0 : 0 <= file_size scan).
  { rewrite Hsize. destruct Hsrc as [-> | E]; [apply Hw | apply Hbm; exact E]. }
  assert (Hd : deref w' (length (heap w)) = Ok f0) by (apply deref_Ok; exact Hf0).
  destruct (sizes_typed_deref w' _ f0 Hsz' Hd) as [Hfsm Hbrm].
  destruct (file_progress_fle f0 f0 eq_refl ltac:(lia) ltac:(lia) ltac:(lia) Hbrm)
    as [Hff Hf1].
  exists (percentage_of binary64 0 (vector_size (files bd)) (file_progress binary64 f0)).
  split.
  { rewrite (GetProgress_eq binary64 g w' (length (heap w)) f0).
    - rewrite Hc, Hcb0, Hb, Hbd0. reflexivity.
    - rewrite Hs. reflexivity.
    - exact Hd. }
  split.
  - apply (fle_leb 514). apply (fle_zero 514 (percentage_of binary64 0 (vector_size (files bd))
                                                 (file_progress binary64 f0))); [lia|].
    apply percentage_of_fle; [lia | lia | unfold IDX_MODULUS; lia | lia | exact Hff].
  - apply (fle_leb 514).
    apply percentage_of_fle; [lia | lia | unfold IDX_MODULUS; lia | lia | exact Hf1].
Qed.

End Registry.

(** ** What finalization stores *)

Section Stored.

Variable ext : Externals.

(** C1. The constructor sets [running_threads] to what [MaxThreads] returns.
    When that count is positive and the workers, in any order and interleaved
    with any other steps, call [DecrementThread] exactly that many times, then
    the calls before the last leave the log of finalizations, the rejects
    table and the client data as they were, the last call finds the counter at
    1, brings it to 0 and enters the finalization block, and nothing after it
    does: finalization has run exactly once, in the call of the worker that
    retired last. That call runs [FillRejectsTable] and leaves the debug flag
    as it is; with the flag set it stores in the client data the maximum line
    length of the collector of the context at index 0 of [file_scans], which
    is the context of the first file of the list, as that collector is when
    the last worker retires; with the flag off it leaves the client data as
    they were. *)
Theorem finalization_exactly_once w bm opts t fs bd g0 w0 trace g w' :
  CSVGlobalState_new ext w bm opts t fs bd = Ok (g0, w0) ->
  0 < running_threads g0 < IDX_MODULUS ->
  run ext trace (g0, w0) = Ok (g, w') ->
  Z.of_nat (length (decrementers trace)) = running_threads g0 ->
  MaxThreads ext g0 w0 = Ok (running_threads g0)
  /\ exists pre thread post g1 w1 g2 w2,
       trace = pre ++ CallDecrementThread thread :: post
       /\ decrementers post = []
       /\ last (decrementers trace) = Some thread
       /\ run ext pre (g0, w0) = Ok (g1, w1)
       /\ running_threads g1 = 1
       /\ log w1 = log w0 /\ rejects w1 = rejects w0 /\ client_data w1 = client_data w0
       /\ DecrementThread ext thread g1 w1 = Ok (g2, w2)
       /\ running_threads g2 = 0
       /\ log w2 = log w0 ++ [Finalized thread]
       /\ (exists w3, FillRejectsTable ext g2 (set_log (log w1 ++ [Finalized thread]) w1) = Ok w3
                      /\ rejects w2 = rejects w3)
       /\ debug_set_max_line_length (client_data w2)
          = debug_set_max_line_length (client_data w0)
       /\ (debug_set_max_line_length (client_data w0) = true ->
           exists p0 f0,
             file_scans g1 !! 0%nat = Some p0 /\ heap w1 !! p0 = Some f0
             /\ file_idx f0 = 0 /\ fs !! 0%nat = Some (file_path f0)
             /\ debug_max_line_length (client_data w2)
                = GetMaxLineLength (error_handler f0))
       /\ (debug_set_max_line_length (client_data w0) = false ->
           client_data w2 = client_data w0)
       /\ running_threads g = 0
       /\ log w' = log w0 ++ [Finalized thread]
       /\ rejects w' = rejects w2 /\ client_data w' = client_data w2.
Proof.
  intros Hnew Hrt Hrun Hcount.
  split; [exact (running_threads_is_MaxThreads ext _ _ _ _ _ _ _ _ Hnew)|].
  destruct (last_decrement trace) as (pre & thread & post & -> & Hpost & Hall).
  { intros E. rewrite E in Hcount. simpl in Hcount. lia. }
  rewrite Hall, length_app in Hcount. simpl in Hcount.
  rewrite run_app in Hrun. apply bind_Ok in Hrun as ([g1 w1] & Hpre & Hrun).
  simpl in Hrun. apply bind_Ok in Hrun as ([g2 w2] & Hdec & Hrun).
  simpl in Hdec.
  destruct (run_before_last ext pre g0 w0 g1 w1 Hpre Hrt ltac:(lia))
    as (Hr1 & Hl1 & Hj1 & Hc1).
  assert (Hone : running_threads g1 = 1) by lia.
  (* the context of the first file, from the constructor to the last call *)
  assert (Hfirst : exists p0 f0,
            file_scans g1 !! 0%nat = Some p0 /\ heap w1 !! p0 = Some f0
            /\ file_idx f0 = 0 /\ fs !! 0%nat = Some (file_path f0)).
  { apply CSVGlobalState_new_inv in Hnew
      as (first & scan & Hfs & Hw0 & Hidx & Hpath & _ & _ & _ & Hg0).
    cbv zeta in Hg0.
    destruct (run_contexts_kept ext pre g0 w0 g1 w1 Hpre) as (_ & Hscans & Hkept).
    assert (Hscan : heap w0 !! length (heap w) = Some scan).
    { rewrite Hw0. apply deref_Ok. exact (deref_make_shared scan w). }
    destruct (Hkept _ _ Hscan) as (f0 & Hf0 & Hpath0 & Hidx0 & _).
    exists (length (heap w)), f0.
    split.
    { destruct Hscans as [more Hmore]. rewrite Hmore, Hg0. reflexivity. }
    split; [exact Hf0|]. split; [congruence|]. rewrite Hpath0, Hpath. exact Hfs. }
  pose proof Hdec as Hdec'.
  rewrite (DecrementThread_last ext thread g1 w1 Hone) in Hdec'. cbv zeta in Hdec'.
  apply bind_Ok in Hdec' as (w3 & Hfill & Hcap).
  pose proof (FillRejectsTable_frame ext _ _ _ Hfill) as (Hh3 & Hc3 & Hl3 & _ & _).
  simpl in Hh3, Hc3, Hl3.
  assert (Hg2 : g2 = set_running_threads 0 g1 /\ log w2 = log w3 /\ rejects w2 = rejects w3
                /\ debug_set_max_line_length (client_data w2)
                   = debug_set_max_line_length (client_data w0)
                /\ (debug_set_max_line_length (client_data w0) = true ->
                    exists p0 f0,
                      file_scans g1 !! 0%nat = Some p0 /\ heap w1 !! p0 = Some f0
                      /\ debug_max_line_length (client_data w2)
                         = GetMaxLineLength (error_handler f0))
                /\ (debug_set_max_line_length (client_data w0) = false ->
                    client_data w2 = client_data w0)).
  { rewrite Hc3, Hc1 in Hcap.
    destruct (debug_set_max_line_length (client_data w0)) eqn:Hflag.
    - apply bind_Ok in Hcap as (p0 & Hp0 & Hcap). apply bind_Ok in Hcap as (f0 & Hf0 & Hcap).
      injection Hcap as <- <-. simpl.
      apply vector_at_Ok in Hp0 as [_ Hp0]. apply deref_Ok in Hf0. rewrite Hh3 in Hf0.
      split; [reflexivity|]. split; [reflexivity|]. split; [reflexivity|].
      split; [reflexivity|]. split; [|discriminate].
      intros _. exists p0, f0. auto.
    - injection Hcap as <- <-. rewrite Hc3, Hc1.
      split; [reflexivity|]. split; [reflexivity|]. split; [reflexivity|].
      split; [exact Hflag|]. split; [discriminate | reflexivity]. }
  destruct Hg2 as (Hg2 & Hl2 & Hj2 & Hflag2 & Hcapture & Hnocapture).
  destruct (run_without_decrement ext post g2 w2 g w' Hrun Hpost) as (Hr & Hl & Hj & Hc).
  exists pre, thread, post, g1, w1, g2, w2.
  split; [reflexivity|]. split; [exact Hpost|].
  split. { rewrite Hall. apply last_snoc. }
  split; [exact Hpre|]. split; [exact Hone|].
  split; [exact Hl1|]. split; [exact Hj1|]. split; [exact Hc1|].
  split; [exact Hdec|].
  split. { rewrite Hg2. reflexivity. }
  split. { rewrite Hl2, Hl3, Hl1. reflexivity. }
  split. { exists w3. rewrite Hg2. auto. }
  split; [exact Hflag2|].
  split.
  { intros Hflag. destruct (Hcapture Hflag) as (p0 & f0 & Hp0 & Hf0 & Hmax).
    destruct Hfirst as (p0' & f0' & Hp0' & Hf0' & Hidx0 & Hpath0).
    rewrite Hp0 in Hp0'. injection Hp0' as <-. rewrite Hf0 in Hf0'. injection Hf0' as <-.
    exists p0, f0. auto 10. }
  split; [exact Hnocapture|].
  split. { rewrite Hr, Hg2. reflexivity. }
  split. { rewrite Hl, Hl2, Hl3, Hl1. reflexivity. }
  auto.
Qed.

(** The count of the rejects table follows the rows the loop appends. *)
Lemma fill_flat_count_rows g scan_id file_id limit es : forall rej rej',
  fill_flat ext g scan_id file_id limit es rej = Ok rej' ->
  is_idx (count rej) ->
  exists rows,
    errors_table rej' = errors_table rej ++ rows
    /\ count rej' = wrap (count rej + Z.of_nat (length rows))
    /\ (limit <> 0 -> rows <> [] -> count rej' <= limit).
Proof.
  induction es as [|fe es IH]; intros rej rej' H Hidx; simpl in H.
  - injection H as <-. exists []. rewrite app_nil_r. simpl.
    rewrite Z.add_0_r, wrap_idx by exact Hidx. repeat split; auto. congruence.
  - destruct (negb _); [apply IH; assumption|].
    destruct ((limit =? 0) || (count rej <? limit)) eqn:Hguard; [|apply IH; assumption].
    apply bind_Ok in H as (row & _ & H).
    destruct (IH _ _ H) as (rows & Htab & Hcount & Hbound); [apply wrap_is_idx|].
    simpl in *. exists (row :: rows).
    split; [rewrite Htab, <- app_assoc; reflexivity|].
    split.
    + rewrite Hcount. unfold wrap. rewrite Zplus_mod_idemp_l. f_equal.
      rewrite length_cons. lia.
    + intros Hnz _. destruct rows as [|row' rows'].
      * rewrite Hcount. simpl. rewrite Z.add_0_r.
        rewrite (wrap_idx (wrap _)) by apply wrap_is_idx.
        apply orb_true_iff in Hguard as [Hz|Hlt]; [apply Z.eqb_eq in Hz; contradiction|].
        apply Z.ltb_lt in Hlt. destruct Hidx as [Hlo _].
        assert (wrap (count rej + 1) <= count rej + 1); [|lia].
        unfold wrap. apply Z.mod_le; [lia | reflexivity].
      * apply Hbound; [exact Hnz | discriminate].
Qed.

(** X13. The count of the rejects table follows its rows: a run of
    [FillRejectsTable] adds to the count, in 64-bit arithmetic, the number of
    rows it appends; and under a limit other than 0, a run that appends
    anything leaves the count at most at the limit. *)
Theorem rejects_count_tracks_rows g w w' :
  FillRejectsTable ext g w = Ok w' ->
  is_idx (count (rejects w)) ->
  exists rows,
    errors_table (rejects w') = errors_table (rejects w) ++ rows
    /\ count (rejects w') = wrap (count (rejects w) + Z.of_nat (length rows))
    /\ (rejects_limit (options (bind_data g)) <> 0 -> rows <> [] ->
        count (rejects w') <= rejects_limit (options (bind_data g))).
Proof.
  unfold FillRejectsTable. intros H Hidx.
  destruct (store_rejects (options (bind_data g))).
  - apply bind_Ok in H as (rej & Hfill & [= <-]).
    apply fill_file_scans_flat in Hfill.
    exact (fill_flat_count_rows _ _ _ _ _ _ _ Hfill Hidx).
  - injection H as <-. exists []. rewrite app_nil_r. simpl.
    rewrite Z.add_0_r, wrap_idx by exact Hidx. repeat split; auto. congruence.
Qed.

(** X14. What a reject row says of its error, besides the column: the line
    number its own file's collector gives for it, its byte position, the
    label of its kind, the text of the CSV line and the error message, each
    as the error holds it. *)
Theorem reject_row_payload g w w' :
  FillRejectsTable ext g w = Ok w' ->
  exists persisted dropped rows,
    eligible_errors w (file_scans g) = persisted ++ dropped
    /\ errors_table (rejects w') = errors_table (rejects w) ++ rows
    /\ Forall2 (fun fe row =>
          row_line row = GetLine ext (error_handler (fst fe)) (error_info (snd fe))
          /\ row_byte_position row = byte_position (snd fe)
          /\ CSVErrorTypeToEnum (type (snd fe)) = Ok (row_error_type row)
          /\ row_csv_row row = csv_row (snd fe)
          /\ row_error_message row = error_message (snd fe)) persisted rows.
Proof.
  unfold FillRejectsTable. intros H.
  destruct (store_rejects (options (bind_data g))).
  - apply bind_Ok in H as (rej & Hfill & [= <-]).
    apply fill_file_scans_flat in Hfill.
    destruct (fill_flat_rows _ _ _ _ _ _ _ _ Hfill)
      as (persisted & dropped & rows & Hel & Htab & Hrows).
    exists persisted, dropped, rows. split; [exact Hel|]. split; [exact Htab|].
    clear Hel Htab Hfill.
    induction Hrows as [|fe row persisted rows Hrow Hrows IH]; constructor; [|exact IH].
    apply reject_row_Ok in Hrow as (_ & _ & Hline & Hpos & _ & _ & Hlabel & Hcsv & Hmsg).
    auto.
  - injection H as <-. exists [], (eligible_errors w (file_scans g)), [].
    split; [reflexivity|]. split; [symmetry; apply app_nil_r|]. constructor.
Qed.

(** The pointers of [file_scans] are live in a reachable state. *)
Lemma reachable_file_scans_valid g w :
  reachable ext (g, w) -> Forall (fun p => is_Some (heap w !! p)) (file_scans g).
Proof.
  intros Hreach. apply reachable_registry_inv in Hreach.
  destruct Hreach as (_ & _ & Hord & _).
  apply Forall_lookup. intros i p Hi.
  destruct (Hord i p Hi) as (f & Hf & _). exists f. exact Hf.
Qed.

(** X15. Once the count of the rejects table has reached a limit other
    than 0, [FillRejectsTable] is without effect in every reachable state: it
    returns, looks up no column name, and leaves the world as it is. *)
Theorem FillRejectsTable_at_limit g w :
  reachable ext (g, w) ->
  rejects_limit (options (bind_data g)) <> 0 ->
  rejects_limit (options (bind_data g)) <= count (rejects w) ->
  exists w', FillRejectsTable ext g w = Ok w'
             /\ rejects w' = rejects w /\ heap w' = heap w
             /\ client_data w' = client_data w /\ log w' = log w.
Proof.
  intros Hreach Hnz Hfull. apply reachable_file_scans_valid in Hreach.
  unfold FillRejectsTable. destruct (store_rejects (options (bind_data g))).
  - rewrite (fill_file_scans_flat_valid ext g w _ _ _ _ _ Hreach).
    rewrite fill_flat_full by assumption. simpl. eexists. split; [reflexivity|].
    simpl. auto.
  - eexists. split; [reflexivity|]. auto.
Qed.

(** X16. With [store_rejects] off nothing is ever stored: whatever the
    coordinator and its workers do, the finalization included, the rejects
    table stays as it was. *)
Theorem rejects_untouched_without_store_rejects trace : forall g w g' w',
  store_rejects (options (bind_data g)) = false ->
  run ext trace (g, w) = Ok (g', w') ->
  rejects w' = rejects w.
Proof.
  induction trace as [|a trace IH]; intros g w g' w' Hoff Hrun; simpl in Hrun.
  - injection Hrun as <- <-. reflexivity.
  - apply bind_Ok in Hrun as ([g1 w1] & Hstep & Hrun).
    assert (H1 : bind_data g1 = bind_data g /\ rejects w1 = rejects w).
    { destruct a as [|thread|q n|q line error]; simpl in Hstep.
      - apply bind_Ok in Hstep as ([[ret g2] w2] & Hnext & Hstep).
        injection Hstep as <- <-. apply Next_frame in Hnext. simpl. tauto.
      - pose proof (DecrementThread_frame ext _ _ _ _ _ Hstep) as (-> & _).
        split; [reflexivity|].
        unfold DecrementThread in Hstep.
        apply bind_Ok in Hstep as ([] & _ & Hstep). simpl in Hstep.
        destruct (wrap (running_threads g - 1) =? 0).
        + unfold FillRejectsTable in Hstep. simpl in Hstep. rewrite Hoff in Hstep.
          simpl in Hstep.
          destruct (debug_set_max_line_length (client_data w)).
          * apply bind_Ok in Hstep as (p0 & _ & Hstep).
            apply bind_Ok in Hstep as (f0 & _ & Hstep).
            injection Hstep as <-. reflexivity.
          * injection Hstep as <-. reflexivity.
        + injection Hstep as <-. reflexivity.
      - injection Hstep as <- <-. auto.
      - injection Hstep as <- <-. auto. }
    destruct H1 as [Hbd Hrej]. rewrite <- Hrej.
    apply (IH g1 w1 g' w'); [rewrite Hbd; exact Hoff | exact Hrun].
Qed.

(** X17. The call of [DecrementThread] that finalizes leaves the debug flag
    as it is; with the flag set it stores the maximum line length of the
    first file's collector, the context at index 0 of [file_scans], in the
    client data; with the flag off it leaves the client data alone. *)
Theorem DecrementThread_captures_max_line_length thread g w g' w' :
  running_threads g = 1 ->
  DecrementThread ext thread g w = Ok (g', w') ->
  debug_set_max_line_length (client_data w') = debug_set_max_line_length (client_data w)
  /\ (debug_set_max_line_length (client_data w) = true ->
      exists p0 f0,
        file_scans g !! 0%nat = Some p0 /\ heap w !! p0 = Some f0
        /\ debug_max_line_length (client_data w') = GetMaxLineLength (error_handler f0))
  /\ (debug_set_max_line_length (client_data w) = false ->
      client_data w' = client_data w).
Proof.
  intros Hrt H. rewrite (DecrementThread_last ext thread g w Hrt) in H. cbv zeta in H.
  apply bind_Ok in H as (w1 & Hfill & H).
  apply FillRejectsTable_frame in Hfill as (Hheap & Hcd & _). simpl in Hheap, Hcd.
  rewrite Hcd in H.
  destruct (debug_set_max_line_length (client_data w)) eqn:Hflag.
  - apply bind_Ok in H as (p0 & Hp0 & H). apply bind_Ok in H as (f0 & Hf0 & H).
    injection H as <- <-. simpl.
    apply vector_at_Ok in Hp0 as [_ Hp0]. apply deref_Ok in Hf0. rewrite Hheap in Hf0.
    split; [reflexivity|]. split; [|discriminate].
    intros _. exists p0, f0. auto.
  - injection H as <- <-. rewrite Hcd.
    split; [exact Hflag|]. split; [discriminate | reflexivity].
Qed.

(** X18. In range-parallel mode, once scanning has finished, finalization
    walks over the errors of every file of the list, in the order of the list:
    [file_scans] then holds one context per file, the i-th of path
    [files[i]], and the errors [FillRejectsTable] meets are those of these
    contexts, one file after the other. *)
Theorem finished_rejects_cover_all_files g w :
  reachable ext (g, w) -> finished g = true ->
  exists contexts,
    Forall2 (fun path f => file_path f = path) (files (bind_data g)) contexts
    /\ Forall2 (fun p f => heap w !! p = Some f) (file_scans g) contexts
    /\ collected_errors w (file_scans g) = concat (map errors_of_file contexts).
Proof.
  intros Hreach Hfin. apply reachable_registry_inv in Hreach.
  destruct Hreach as (_ & _ & Hord & _ & Hlen & _). simpl in *.
  specialize (Hlen Hfin).
  assert (Hctx : forall l, (forall i p, l !! i = Some p -> is_Some (heap w !! p)) ->
            exists contexts, Forall2 (fun p f => heap w !! p = Some f) l contexts
                             /\ omap (fun p => heap w !! p) l = contexts).
  { induction l as [|p l IH]; intros Hl.
    - exists []. split; constructor.
    - destruct (Hl 0%nat p eq_refl) as [f Hf].
      destruct IH as (contexts & Hall & Hmap).
      { intros i q Hi. apply (Hl (S i) q Hi). }
      exists (f :: contexts). split; [constructor; assumption|].
      subst contexts. simpl. rewrite Hf. reflexivity. }
  destruct (Hctx (file_scans g)) as (contexts & Hall & Hmap).
  { intros i p Hi. destruct (Hord i p Hi) as (f & Hf & _). exists f. exact Hf. }
  exists contexts. split; [|split; [exact Hall|]].
  - apply Forall2_same_length_lookup_2.
    + apply Forall2_length in Hall. congruence.
    + intros i path f Hpath Hf.
      destruct (Forall2_lookup_r _ _ _ _ _ Hall Hf) as (p & Hp & Hpf).
      destruct (Hord i p Hp) as (f' & Hf' & _ & Hpath'). simpl in *.
      rewrite Hpf in Hf'. injection Hf' as <-. congruence.
  - unfold collected_errors. rewrite Hmap. reflexivity.
Qed.

(** X22. The call of [DecrementThread] that finalizes, in a reachable state
    with [store_rejects] on and eligible errors whose columns are within
    [return_names]: it returns (no bounds check fails, in the rejects loop
    or at [file_scans[0]]), leaves the counter at 0, and has appended to the
    rejects table one row per eligible error held by the file scans when the
    limit is 0, and otherwise as many as the limit leaves above the count the
    table already held. *)
Theorem finalizing_call_stores_rejects thread g w :
  reachable ext (g, w) ->
  running_threads g = 1 ->
  store_rejects (options (bind_data g)) = true ->
  Forall (fun fe => name_in_range g (snd fe)) (eligible_errors w (file_scans g)) ->
  0 <= rejects_limit (options (bind_data g)) < IDX_MODULUS ->
  0 <= count (rejects w) ->
  exists g' w' rows,
    DecrementThread ext thread g w = Ok (g', w')
    /\ running_threads g' = 0
    /\ log w' = log w ++ [Finalized thread]
    /\ errors_table (rejects w') = errors_table (rejects w) ++ rows
    /\ (rejects_limit (options (bind_data g)) = 0 ->
        length rows = length (eligible_errors w (file_scans g)))
    /\ (0 < rejects_limit (options (bind_data g)) ->
        Z.of_nat (length rows) =
          Z.min (Z.of_nat (length (eligible_errors w (file_scans g))))
                (Z.max 0 (rejects_limit (options (bind_data g)) - count (rejects w)))).
Proof.
  intros Hreach Hrt Hstore Hwf Hlimit Hcount.
  pose proof (reachable_file_scans_valid g w Hreach) as Hvalid.
  apply reachable_registry_inv in Hreach. destruct Hreach as (_ & Hne & Hord & _).
  simpl in Hne, Hord.
  rewrite (DecrementThread_last ext thread g w Hrt). cbv zeta.
  unfold FillRejectsTable. simpl. rewrite Hstore.
  rewrite (fill_file_scans_flat_valid ext _ (set_log (log w ++ [Finalized thread]) w)
             _ _ _ _ _ Hvalid).
  destruct (fill_flat_count ext (set_running_threads 0 g) (active_query w) 0
              (rejects_limit (options (bind_data g)))
              (collected_errors w (file_scans g)) (rejects w) Hlimit Hcount Hwf)
    as (rej' & rows & Hfill & Htab & Hall & Hlim).
  change (collected_errors (set_log (log w ++ [Finalized thread]) w) (file_scans g))
    with (collected_errors w (file_scans g)).
  rewrite Hfill. simpl.
  destruct (debug_set_max_line_length (client_data w)).
  - change (file_scans (set_running_threads 0 g)) with (file_scans g).
    destruct (file_scans g) as [|p0 rest] eqn:Hscans; [congruence|].
    destruct (Hord 0%nat p0) as (f0 & Hf0 & _); [simpl; rewrite Hscans; reflexivity|].
    simpl in Hf0.
    replace (vector_at (p0 :: rest) 0) with (Ok p0) by reflexivity. simpl.
    unfold deref. simpl. rewrite Hf0. simpl.
    eexists _, _, rows. split; [reflexivity|]. simpl. auto.
  - eexists _, _, rows. split; [reflexivity|]. simpl. auto.
Qed.

End Stored.

Lemma finalization_exactly_once_witness :
  exists g0 w0 g w',
    CSVGlobalState_new demo_ext demo_world_debug None (demo_options false 0) 2
      ["a.csv"; "b.csv"]%string (demo_bind_data ["a.csv"; "b.csv"]%string false 0)
      = Ok (g0, w0)
    /\ run demo_ext
         [CallNext; CallDecrementThread 1; ReadBytes 0%nat 10; CallDecrementThread 0]
         (g0, w0) = Ok (g, w')
    /\ running_threads g0 = 2
    /\ client_data w0
       = {| debug_set_max_line_length := true; debug_max_line_length := 99 |}
    /\ running_threads g = 0
    /\ log w' = [Finalized 0%nat]
    /\ client_data w'
       = {| debug_set_max_line_length := true; debug_max_line_length := 0 |}.
Proof.
  destruct (CSVGlobalState_new demo_ext demo_world_debug None (demo_options false 0) 2
              ["a.csv"; "b.csv"]%string (demo_bind_data ["a.csv"; "b.csv"]%string false 0))
    as [[g0 w0]|e] eqn:Hnew; [|vm_compute in Hnew; discriminate Hnew].
  destruct (run demo_ext
              [CallNext; CallDecrementThread 1; ReadBytes 0%nat 10; CallDecrementThread 0]
              (g0, w0)) as [[g w']|e] eqn:Hrun;
    [|vm_compute in Hnew; injection Hnew as <- <-; vm_compute in Hrun; discriminate Hrun].
  assert (Hrt : running_threads g0 = 2)
    by (vm_compute in Hnew; injection Hnew as <- <-; reflexivity).
  assert (Hlog : log w0 = [])
    by (vm_compute in Hnew; injection Hnew as <- <-; reflexivity).
  assert (Hcd : client_data w0
                = {| debug_set_max_line_length := true; debug_max_line_length := 99 |})
    by (vm_compute in Hnew; injection Hnew as <- <-; reflexivity).
  assert (Hcd' : client_data w'
                 = {| debug_set_max_line_length := true; debug_max_line_length := 0 |}).
  { vm_compute in Hnew. injection Hnew as <- <-.
    vm_compute in Hrun. injection Hrun as <- <-. reflexivity. }
  exists g0, w0, g, w'. split; [reflexivity|]. split; [exact Hrun|].
  split; [exact Hrt|]. split; [exact Hcd|].
  destruct (finalization_exactly_once demo_ext demo_world_debug None (demo_options false 0) 2
              ["a.csv"; "b.csv"]%string
              (demo_bind_data ["a.csv"; "b.csv"]%string false 0) g0 w0
              [CallNext; CallDecrementThread 1; ReadBytes 0%nat 10; CallDecrementThread 0]
              g w' Hnew)
    as (_ & pre & thread & post & g1 & w1 & g2 & w2 & _ & _ & Hlast & _ & _ & _ & _ & _
        & _ & _ & _ & _ & _ & _ & _ & Hzero & Hfinal & _).
  - rewrite Hrt. split; reflexivity.
  - exact Hrun.
  - rewrite Hrt. reflexivity.
  - split; [exact Hzero|].
    split; [|exact Hcd'].
    rewrite Hfinal, Hlog. injection Hlast as <-. reflexivity.
Defined.


(** ** Every file is handed out *)

Section Coverage.

Variable ext : Externals.

(** A call of [Next] in range-parallel mode hands out the file at the back of
    [file_scans]; the file it may open is then the one at the back. *)
Lemma Next_covers g w ret g1 w1 (covered : list nat) :
  registry_inv (g, w) -> single_threaded g = false ->
  (forall p, p ∈ file_scans g ->
     p ∈ covered \/ (back (file_scans g) = Ok p /\ finished g = false)) ->
  Next ext g w = Ok (ret, g1, w1) ->
  forall p, p ∈ file_scans g1 ->
    p ∈ covered ++ map scanner_file (units [ret])
    \/ (back (file_scans g1) = Ok p /\ finished g1 = false).
Proof.
  intros Hinv Hmode Hcov Hnext.
  destruct (finished g) eqn:Hfin.
  { unfold Next in Hnext. rewrite Hmode, Hfin in Hnext. injection Hnext as <- <- <-.
    intros p Hp. destruct (Hcov p Hp) as [Hc | [_ Hf]]; [|congruence].
    left. apply elem_of_app. left. exact Hc. }
  destruct Hinv as (_ & _ & _ & _ & _ & Huse). simpl in Huse.
  destruct (Huse Hmode) as (pb & f & Hpb & Hf & _).
  rewrite (Next_parallel_eq ext g w pb f Hmode Hfin Hpb Hf) in Hnext. cbv zeta in Hnext.
  assert (Hold : forall p, p ∈ file_scans g -> p ∈ covered ++ [pb]).
  { intros p Hp.
    destruct (Hcov p Hp) as [Hc | [Hb _]].
    - apply elem_of_app. left. exact Hc.
    - rewrite Hpb in Hb. injection Hb as <-. apply elem_of_app. right. apply list_elem_of_singleton.
      reflexivity. }
  destruct (fst (CSVIterator_Next ext (buffer_manager f) (current_boundary g))).
  - injection Hnext as <- <- <-. simpl. intros p Hp. left. apply Hold; exact Hp.
  - destruct (_ <? _).
    + apply bind_Ok in Hnext as (path & _ & Hnext). injection Hnext as <- <- <-. simpl.
      intros p Hp. apply elem_of_app in Hp as [Hp | Hp].
      * left. apply Hold; exact Hp.
      * apply list_elem_of_singleton in Hp as ->. right. split; [apply back_snoc | exact Hfin].
    + injection Hnext as <- <- <-. simpl. intros p Hp. left. apply Hold; exact Hp.
Qed.

Lemma Next_calls_cover n : forall g w rets g' w' (covered : list nat),
  registry_inv (g, w) -> single_threaded g = false ->
  (forall p, p ∈ file_scans g ->
     p ∈ covered \/ (back (file_scans g) = Ok p /\ finished g = false)) ->
  Next_calls ext n g w = Ok (rets, (g', w')) ->
  registry_inv (g', w')
  /\ forall p, p ∈ file_scans g' ->
       p ∈ covered ++ map scanner_file (units rets)
       \/ (back (file_scans g') = Ok p /\ finished g' = false).
Proof.
  induction n as [|n IH]; intros g w rets g' w' covered Hinv Hmode Hcov H; simpl in H.
  - injection H as <- <- <-. split; [exact Hinv|]. unfold units. simpl.
    rewrite app_nil_r. exact Hcov.
  - apply bind_Ok in H as ([[ret g1] w1] & Hnext & H).
    apply bind_Ok in H as ([rets1 s1] & Hcalls & H). injection H as <- ->. simpl in *.
    pose proof (Next_covers g w ret g1 w1 covered Hinv Hmode Hcov Hnext) as Hcov1.
    assert (Hinv1 : registry_inv (g1, w1)).
    { apply (step_registry_inv ext CallNext g w g1 w1 Hinv). simpl. rewrite Hnext.
      reflexivity. }
    assert (Hmode1 : single_threaded g1 = false).
    { apply Next_frame in Hnext as (_ & Hm & _). congruence. }
    destruct (IH g1 w1 rets1 g' w' _ Hinv1 Hmode1 Hcov1 Hcalls) as [Hinv' Hcov'].
    split; [exact Hinv'|].
    intros p Hp. destruct (Hcov' p Hp) as [Hc | Hb]; [left | right; exact Hb].
    rewrite <- app_assoc, <- map_app in Hc.
    destruct ret; exact Hc.
Qed.

Lemma Next_calls_bind_data n : forall g w rets g' w',
  Next_calls ext n g w = Ok (rets, (g', w')) -> bind_data g' = bind_data g.
Proof.
  induction n as [|n IH]; intros g w rets g' w' H; simpl in H.
  - injection H as <- <- <-. reflexivity.
  - apply bind_Ok in H as ([[ret g1] w1] & Hnext & H).
    apply bind_Ok in H as ([rets1 s1] & Hcalls & H). injection H as <- ->. simpl in *.
    apply Next_frame in Hnext as (Hb & _).
    rewrite (IH g1 w1 rets1 g' w' Hcalls). exact Hb.
Qed.

(** X19. Range-parallel scanning skips no file: when the calls of [Next]
    have brought the coordinator to [finished], every file of the list has
    been handed out, that is, for each file there is a unit among those
    returned that is bound to a context of that file. *)
Theorem every_file_is_handed_out w bm opts t bd g0 w0 n rets g w' :
  vector_size (files bd) < IDX_MODULUS ->
  CSVGlobalState_new ext w bm opts t (files bd) bd = Ok (g0, w0) ->
  single_threaded g0 = false ->
  Next_calls ext n g0 w0 = Ok (rets, (g, w')) ->
  finished g = true ->
  forall i path, files bd !! i = Some path ->
    exists u f, u ∈ units rets /\ heap w' !! scanner_file u = Some f
                /\ file_idx f = Z.of_nat i /\ file_path f = path.
Proof.
  intros Hsize Hnew Hmode Hcalls Hfin i path Hpath.
  pose proof (new_registry_inv ext w bm opts t bd (g0, w0) Hsize Hnew) as Hinv0.
  assert (Hbd0 : bind_data g0 = bd /\ finished g0 = false
                 /\ exists p0, file_scans g0 = [p0]).
  { apply CSVGlobalState_new_inv in Hnew as (? & ? & _ & _ & _ & _ & _ & _ & _ & ->).
    simpl. eauto. }
  destruct Hbd0 as (Hbd0 & Hfin0 & p0 & Hscans0).
  destruct (Next_calls_cover n g0 w0 rets g w' [] Hinv0 Hmode) as [Hinv Hcov];
    [|exact Hcalls|].
  { intros p Hp. right. rewrite Hscans0 in Hp |- *.
    apply list_elem_of_singleton in Hp as ->. auto. }
  assert (Hbd : bind_data g = bd).
  { rewrite (Next_calls_bind_data n g0 w0 rets g w' Hcalls). exact Hbd0. }
  destruct Hinv as (_ & _ & Hord & _ & Hlen & _). simpl in *.
  specialize (Hlen Hfin). rewrite Hbd in *.
  destruct (lookup_lt_is_Some_2 (file_scans g) i) as [p Hp].
  { rewrite Hlen. apply lookup_lt_Some in Hpath. exact Hpath. }
  destruct (Hord i p Hp) as (f & Hf & Hidx & Hfp). simpl in *.
  destruct (Hcov p) as [Hc | [_ Hnf]]; [apply list_elem_of_lookup; eauto | | congruence].
  simpl in Hc. apply list_elem_of_fmap in Hc as (u & Hu & Hin).
  exists u, f. split; [exact Hin|]. rewrite <- Hu.
  split; [exact Hf|]. split; [exact Hidx|]. congruence.
Qed.

End Coverage.

(** ** The properties above on concrete runs *)

Lemma file_scans_in_file_order_witness :
  exists s,
    bind (demo_new demo_two_files true 0 4) (run demo_ext [CallNext; ReadBytes 0%nat 10]) = Ok s
    /\ length (file_scans (fst s)) = 2%nat
    /\ scans_in_order s
    /\ NoDup (file_scans (fst s))
    /\ (1 <= length (file_scans (fst s)) <= length (files (bind_data (fst s))))%nat.
Proof.
  destruct (bind (demo_new demo_two_files true 0 4)
              (run demo_ext [CallNext; ReadBytes 0%nat 10])) as [s|e] eqn:Hs;
    [|vm_compute in Hs; discriminate Hs].
  exists s. split; [reflexivity|].
  split; [vm_compute in Hs; injection Hs as <-; reflexivity|].
  apply (file_scans_in_file_order demo_ext s).
  apply (demo_reachable demo_two_files true 0 4 [CallNext; ReadBytes 0%nat 10]);
    [reflexivity | exact Hs].
Defined.

Lemma finished_after_last_file_witness :
  exists g w,
    bind (demo_new demo_two_files true 0 4) (run demo_ext [CallNext; CallNext]) = Ok (g, w)
    /\ finished g = true
    /\ single_threaded g = false
    /\ length (file_scans g) = length (files (bind_data g))
    /\ Next demo_ext g w = Ok (None, g, w).
Proof.
  destruct (bind (demo_new demo_two_files true 0 4) (run demo_ext [CallNext; CallNext]))
    as [[g w]|e] eqn:Hs; [|vm_compute in Hs; discriminate Hs].
  assert (Hfin : finished g = true)
    by (vm_compute in Hs; injection Hs as <- <-; reflexivity).
  destruct (finished_after_last_file demo_ext g w) as (Hmode & Hlen & Hnext & _).
  - apply (demo_reachable demo_two_files true 0 4 [CallNext; CallNext]);
      [reflexivity | exact Hs].
  - exact Hfin.
  - exists g, w. auto.
Defined.

Lemma contexts_are_kept_witness :
  exists g w g' w' f0,
    demo_new demo_two_files true 0 4 = Ok (g, w)
    /\ run demo_ext [CallNext; CallNext; CallDecrementThread 0] (g, w) = Ok (g', w')
    /\ length (heap w) = 1%nat /\ length (heap w') = 2%nat
    /\ heap w !! 0%nat = Some f0 /\ heap w' !! 0%nat = Some f0
    /\ file_scans g `prefix_of` file_scans g'
    /\ heap w `prefix_of` heap w'.
Proof.
  destruct (demo_new demo_two_files true 0 4) as [[g w]|e] eqn:Hnew;
    [|vm_compute in Hnew; discriminate Hnew].
  destruct (run demo_ext [CallNext; CallNext; CallDecrementThread 0] (g, w))
    as [[g' w']|e] eqn:Hrun;
    [|vm_compute in Hnew; injection Hnew as <- <-; vm_compute in Hrun; discriminate Hrun].
  assert (Hlen : length (heap w) = 1%nat)
    by (vm_compute in Hnew; injection Hnew as <- <-; reflexivity).
  assert (Hlen' : length (heap w') = 2%nat).
  { vm_compute in Hnew. injection Hnew as <- <-. vm_compute in Hrun.
    injection Hrun as <- <-. reflexivity. }
  destruct (contexts_are_kept demo_ext [CallNext; CallNext; CallDecrementThread 0]
              g w g' w' eq_refl Hrun) as (Hscans & Hheap & Hsame).
  destruct (heap w !! 0%nat) as [f0|] eqn:Hf0;
    [|apply lookup_ge_None in Hf0; rewrite Hlen in Hf0; lia].
  exists g, w, g', w', f0. split; [reflexivity|]. split; [exact Hrun|].
  split; [exact Hlen|]. split; [exact Hlen'|]. split; [exact Hf0|].
  split; [exact (Hsame _ _ Hf0)|]. split; [exact Hscans | exact Hheap].
Defined.

Lemma scanner_ids_consecutive_witness :
  exists g w rets s,
    demo_new demo_two_files true 0 4 = Ok (g, w)
    /\ Next_calls demo_ext 3 g w = Ok (rets, s)
    /\ length (units rets) = 2%nat
    /\ scanner_idx (fst s) = scanner_idx g + Z.of_nat (length (units rets))
    /\ forall j u, units rets !! j = Some u -> scanner_id u = scanner_idx g + Z.of_nat j.
Proof.
  destruct (demo_new demo_two_files true 0 4) as [[g w]|e] eqn:Hnew;
    [|vm_compute in Hnew; discriminate Hnew].
  destruct (Next_calls demo_ext 3 g w) as [[rets s]|e] eqn:Hcalls;
    [|vm_compute in Hnew; injection Hnew as <- <-; vm_compute in Hcalls; discriminate Hcalls].
  assert (Hidx : scanner_idx g = 0)
    by (vm_compute in Hnew; injection Hnew as <- <-; reflexivity).
  assert (Hlen : length (units rets) = 2%nat).
  { vm_compute in Hnew. injection Hnew as <- <-. vm_compute in Hcalls.
    injection Hcalls as <- <-. reflexivity. }
  exists g, w, rets, s. split; [reflexivity|]. split; [exact Hcalls|]. split; [exact Hlen|].
  apply (scanner_ids_consecutive demo_ext 3 g w rets s Hcalls).
  - rewrite Hidx. lia.
  - rewrite Hidx. reflexivity.
Defined.

Lemma reachable_calls_return_witness :
  exists g w,
    bind (demo_new demo_two_files true 0 4) (run demo_ext [CallNext; CallNext; CallNext])
      = Ok (g, w)
    /\ (exists ret g' w', Next demo_ext g w = Ok (ret, g', w'))
    /\ (exists n, MaxThreads demo_ext g w = Ok n)
    /\ (forall D, exists v, GetProgress D g w = Ok v).
Proof.
  destruct (bind (demo_new demo_two_files true 0 4)
              (run demo_ext [CallNext; CallNext; CallNext]))
    as [[g w]|e] eqn:Hs; [|vm_compute in Hs; discriminate Hs].
  exists g, w. split; [reflexivity|].
  apply (reachable_calls_return demo_ext g w).
  apply (demo_reachable demo_two_files true 0 4 [CallNext; CallNext; CallNext]);
    [reflexivity | exact Hs].
Defined.

Lemma Next_hands_out_current_boundary_witness :
  exists g w u g' w' p f usage,
    bind (demo_new demo_two_files true 0 4) (run demo_ext [CallNext]) = Ok (g, w)
    /\ Next demo_ext g w = Ok (Some u, g', w')
    /\ back (file_scans g) = Ok p /\ deref w p = Ok f
    /\ scanner_file u = p
    /\ scanner_boundary u = current_boundary g
    /\ GetFileIdx (scanner_boundary u) = file_idx f
    /\ buffer_tracker u = Some usage
    /\ buffer_idx usage = GetBufferIdx (scanner_boundary u)
    /\ usage_file usage = bm_file_path (buffer_manager f).
Proof.
  destruct (bind (demo_new demo_two_files true 0 4) (run demo_ext [CallNext]))
    as [[g w]|e] eqn:Hs; [|vm_compute in Hs; discriminate Hs].
  assert (Hmode : single_threaded g = false)
    by (vm_compute in Hs; injection Hs as <- <-; reflexivity).
  assert (Hfin : finished g = false)
    by (vm_compute in Hs; injection Hs as <- <-; reflexivity).
  destruct (Next_hands_out_current_boundary demo_ext g w demo_keeps_file)
    as (u & g' & w' & p & f & usage & H); [|exact Hmode | exact Hfin|].
  - apply (demo_reachable demo_two_files true 0 4 [CallNext]); [reflexivity | exact Hs].
  - exists g, w, u, g', w', p, f, usage. split; [reflexivity | exact H].
Defined.

Lemma cursor_in_last_opened_file_witness :
  exists g w g' w',
    bind (demo_new demo_two_files true 0 4) (run demo_ext [ReadBytes 0%nat 4]) = Ok (g, w)
    /\ run demo_ext [CallNext; CallDecrementThread 0] (g, w) = Ok (g', w')
    /\ GetFileIdx (current_boundary g) = Z.of_nat (length (file_scans g)) - 1
    /\ GetFileIdx (current_boundary g) <= GetFileIdx (current_boundary g').
Proof.
  destruct (bind (demo_new demo_two_files true 0 4) (run demo_ext [ReadBytes 0%nat 4]))
    as [[g w]|e] eqn:Hs; [|vm_compute in Hs; discriminate Hs].
  destruct (run demo_ext [CallNext; CallDecrementThread 0] (g, w)) as [[g' w']|e] eqn:Hrun;
    [|vm_compute in Hs; injection Hs as <- <-; vm_compute in Hrun; discriminate Hrun].
  destruct (cursor_in_last_opened_file demo_ext g w demo_keeps_file) as [Hcur Hmono].
  - apply (demo_reachable demo_two_files true 0 4 [ReadBytes 0%nat 4]);
      [reflexivity | exact Hs].
  - exists g, w, g', w'. split; [reflexivity|]. split; [exact Hrun|].
    split; [exact Hcur|]. exact (Hmono [CallNext; CallDecrementThread 0] g' w' Hrun).
Defined.

Lemma constructor_thread_count_bounds_witness :
  exists g w,
    demo_new demo_two_files true 0 4 = Ok (g, w) /\ 1 <= running_threads g <= 4.
Proof.
  destruct (demo_new demo_two_files true 0 4) as [[g w]|e] eqn:Hnew;
    [|vm_compute in Hnew; discriminate Hnew].
  exists g, w. split; [reflexivity|].
  apply (constructor_thread_count_bounds demo_ext demo_world None (demo_options true 0) 4
           demo_two_files (demo_bind_data demo_two_files true 0) g w Hnew).
  - lia.
  - simpl. lia.
  - intros path. simpl. unfold demo_file_system, is_idx, IDX_MODULUS.
    destruct (String.eqb path "empty.csv"); simpl; lia.
  - discriminate.
Defined.

Lemma single_threaded_progress_cap_witness :
  exists g0 w0 g w' v,
    demo_new ["a.csv"; "b.csv"; "c.csv"]%string true 0 1 = Ok (g0, w0)
    /\ run demo_ext [CallNext; ReadBytes 0%nat 10; CallNext; ReadBytes 1%nat 10] (g0, w0)
       = Ok (g, w')
    /\ GetProgress binary64 g w' = Ok v
    /\ PrimFloat.leb (double_of_idx 0) v = true
    /\ PrimFloat.leb v (percentage_of binary64 0 3 (double_of_idx 1)) = true.
Proof.
  destruct (demo_new ["a.csv"; "b.csv"; "c.csv"]%string true 0 1) as [[g0 w0]|e] eqn:Hnew;
    [|vm_compute in Hnew; discriminate Hnew].
  destruct (run demo_ext [CallNext; ReadBytes 0%nat 10; CallNext; ReadBytes 1%nat 10] (g0, w0))
    as [[g w']|e] eqn:Hrun;
    [|vm_compute in Hnew; injection Hnew as <- <-; vm_compute in Hrun; discriminate Hrun].
  destruct (single_threaded_progress_cap demo_ext demo_world None (demo_options true 0) 1
              (demo_bind_data ["a.csv"; "b.csv"; "c.csv"]%string true 0) g0 w0
              [CallNext; ReadBytes 0%nat 10; CallNext; ReadBytes 1%nat 10] g w')
    as (v & Hv & Hlo & Hhi).
  - exact demo_world_typed.
  - exact demo_sizes_typed.
  - discriminate.
  - reflexivity.
  - exact Hnew.
  - vm_compute in Hnew. injection Hnew as <- <-. reflexivity.
  - exact Hrun.
  - exists g0, w0, g, w', v. split; [reflexivity|]. split; [exact Hrun|]. auto.
Defined.

Lemma rejects_count_tracks_rows_witness :
  exists g w w' rows,
    demo_with_errors 2 = Ok (g, w)
    /\ FillRejectsTable demo_ext g w = Ok w'
    /\ errors_table (rejects w') = errors_table (rejects w) ++ rows
    /\ count (rejects w') = wrap (count (rejects w) + Z.of_nat (length rows))
    /\ count (rejects w') = 2.
Proof.
  destruct (demo_with_errors 2) as [[g w]|e] eqn:Hs; [|vm_compute in Hs; discriminate Hs].
  destruct (FillRejectsTable demo_ext g w) as [w'|e] eqn:Hfill;
    [|vm_compute in Hs; injection Hs as <- <-; vm_compute in Hfill; discriminate Hfill].
  assert (Hcount : count (rejects w') = 2).
  { vm_compute in Hs. injection Hs as <- <-. vm_compute in Hfill. injection Hfill as <-.
    reflexivity. }
  destruct (rejects_count_tracks_rows demo_ext g w w' Hfill) as (rows & Htab & Hc & _).
  - vm_compute in Hs. injection Hs as <- <-. vm_compute. split; [discriminate | reflexivity].
  - exists g, w, w', rows. auto.
Defined.

Lemma reject_row_payload_witness :
  exists g w w' persisted dropped rows,
    demo_with_errors 0 = Ok (g, w)
    /\ FillRejectsTable demo_ext g w = Ok w'
    /\ eligible_errors w (file_scans g) = persisted ++ dropped
    /\ errors_table (rejects w') = errors_table (rejects w) ++ rows
    /\ Forall2 (fun fe row =>
          row_line row = GetLine demo_ext (error_handler (fst fe)) (error_info (snd fe))
          /\ row_byte_position row = byte_position (snd fe)
          /\ CSVErrorTypeToEnum (type (snd fe)) = Ok (row_error_type row)
          /\ row_csv_row row = csv_row (snd fe)
          /\ row_error_message row = error_message (snd fe)) persisted rows.
Proof.
  destruct (demo_with_errors 0) as [[g w]|e] eqn:Hs; [|vm_compute in Hs; discriminate Hs].
  destruct (FillRejectsTable demo_ext g w) as [w'|e] eqn:Hfill;
    [|vm_compute in Hs; injection Hs as <- <-; vm_compute in Hfill; discriminate Hfill].
  destruct (reject_row_payload demo_ext g w w' Hfill)
    as (persisted & dropped & rows & H).
  exists g, w, w', persisted, dropped, rows. split; [reflexivity|]. split; [exact Hfill|].
  exact H.
Defined.

Lemma FillRejectsTable_at_limit_witness :
  exists g w w',
    bind (demo_new ["a.csv"%string] true 1 4)
      (run demo_ext (demo_trace_errors ++ [CallDecrementThread 0])) = Ok (g, w)
    /\ count (rejects w) = 1
    /\ FillRejectsTable demo_ext g w = Ok w'
    /\ rejects w' = rejects w.
Proof.
  destruct (bind (demo_new ["a.csv"%string] true 1 4)
              (run demo_ext (demo_trace_errors ++ [CallDecrementThread 0])))
    as [[g w]|e] eqn:Hs; [|vm_compute in Hs; discriminate Hs].
  assert (Hcount : count (rejects w) = 1)
    by (vm_compute in Hs; injection Hs as <- <-; reflexivity).
  assert (Hlimit : rejects_limit (options (bind_data g)) = 1)
    by (vm_compute in Hs; injection Hs as <- <-; reflexivity).
  destruct (FillRejectsTable_at_limit demo_ext g w) as (w' & Hfill & Hrej & _).
  - apply (demo_reachable ["a.csv"%string] true 1 4
             (demo_trace_errors ++ [CallDecrementThread 0])); [reflexivity | exact Hs].
  - rewrite Hlimit. discriminate.
  - rewrite Hlimit, Hcount. reflexivity.
  - exists g, w, w'. auto.
Defined.

Lemma rejects_untouched_without_store_rejects_witness :
  exists g w g' w',
    demo_new_no_rejects = Ok (g, w)
    /\ run demo_ext (demo_trace_errors ++ [CallNext; CallDecrementThread 0]) (g, w)
       = Ok (g', w')
    /\ log w' = [Finalized 0]
    /\ rejects w' = rejects w.
Proof.
  destruct demo_new_no_rejects as [[g w]|e] eqn:Hnew;
    [|vm_compute in Hnew; discriminate Hnew].
  destruct (run demo_ext (demo_trace_errors ++ [CallNext; CallDecrementThread 0]) (g, w))
    as [[g' w']|e] eqn:Hrun;
    [|vm_compute in Hnew; injection Hnew as <- <-; vm_compute in Hrun; discriminate Hrun].
  assert (Hlog : log w' = [Finalized 0]).
  { vm_compute in Hnew. injection Hnew as <- <-. vm_compute in Hrun.
    injection Hrun as <- <-. reflexivity. }
  exists g, w, g', w'. split; [reflexivity|]. split; [exact Hrun|]. split; [exact Hlog|].
  apply (rejects_untouched_without_store_rejects demo_ext
           (demo_trace_errors ++ [CallNext; CallDecrementThread 0]) g w g' w'); [|exact Hrun].
  vm_compute in Hnew. injection Hnew as <- <-. reflexivity.
Defined.

Lemma DecrementThread_captures_max_line_length_witness :
  exists g w g' w' p0 f0,
    demo_long_line 0 = Ok (g, w)
    /\ DecrementThread demo_ext 0 g w = Ok (g', w')
    /\ client_data w
       = {| debug_set_max_line_length := true; debug_max_line_length := 0 |}
    /\ file_scans g !! 0%nat = Some p0 /\ heap w !! p0 = Some f0
    /\ GetMaxLineLength (error_handler f0) = 4096
    /\ client_data w'
       = {| debug_set_max_line_length := true; debug_max_line_length := 4096 |}.
Proof.
  destruct (demo_long_line 0) as [[g w]|e] eqn:Hs; [|vm_compute in Hs; discriminate Hs].
  destruct (DecrementThread demo_ext 0 g w) as [[g' w']|e] eqn:Hdec;
    [|vm_compute in Hs; injection Hs as <- <-; vm_compute in Hdec; discriminate Hdec].
  assert (Hcd : client_data w
                = {| debug_set_max_line_length := true; debug_max_line_length := 0 |})
    by (vm_compute in Hs; injection Hs as <- <-; reflexivity).
  assert (Hcd' : client_data w'
                 = {| debug_set_max_line_length := true; debug_max_line_length := 4096 |}).
  { vm_compute in Hs. injection Hs as <- <-. vm_compute in Hdec. injection Hdec as <- <-.
    reflexivity. }
  destruct (DecrementThread_captures_max_line_length demo_ext 0%nat g w g' w')
    as (_ & Hset & _).
  - vm_compute in Hs. injection Hs as <- <-. reflexivity.
  - exact Hdec.
  - destruct Hset as (p0 & f0 & Hp0 & Hf0 & Hmax).
    + rewrite Hcd. reflexivity.
    + exists g, w, g', w', p0, f0. split; [reflexivity|]. split; [exact Hdec|].
      split; [exact Hcd|]. split; [exact Hp0|]. split; [exact Hf0|].
      split; [|exact Hcd']. rewrite <- Hmax, Hcd'. reflexivity.
Defined.

Lemma finished_rejects_cover_all_files_witness :
  exists g w contexts,
    bind (demo_new demo_two_files true 0 4)
      (run demo_ext [CallNext; RecordError 0 1 (demo_error CAST_ERROR 0); CallNext;
                     RecordError 1 1 (demo_error INVALID_UNICODE 1)]) = Ok (g, w)
    /\ Forall2 (fun path f => file_path f = path) (files (bind_data g)) contexts
    /\ Forall2 (fun p f => heap w !! p = Some f) (file_scans g) contexts
    /\ collected_errors w (file_scans g) = concat (map errors_of_file contexts).
Proof.
  destruct (bind (demo_new demo_two_files true 0 4)
              (run demo_ext [CallNext; RecordError 0 1 (demo_error CAST_ERROR 0); CallNext;
                             RecordError 1 1 (demo_error INVALID_UNICODE 1)]))
    as [[g w]|e] eqn:Hs; [|vm_compute in Hs; discriminate Hs].
  destruct (finished_rejects_cover_all_files demo_ext g w) as (contexts & H).
  - apply (demo_reachable demo_two_files true 0 4
             [CallNext; RecordError 0 1 (demo_error CAST_ERROR 0); CallNext;
              RecordError 1 1 (demo_error INVALID_UNICODE 1)]); [reflexivity | exact Hs].
  - vm_compute in Hs. injection Hs as <- <-. reflexivity.
  - exists g, w, contexts. split; [reflexivity | exact H].
Defined.

Lemma every_file_is_handed_out_witness :
  exists g0 w0 rets g w' u f,
    demo_new demo_two_files true 0 4 = Ok (g0, w0)
    /\ Next_calls demo_ext 2 g0 w0 = Ok (rets, (g, w'))
    /\ u ∈ units rets /\ heap w' !! scanner_file u = Some f
    /\ file_idx f = 1 /\ file_path f = "b.csv"%string.
Proof.
  destruct (demo_new demo_two_files true 0 4) as [[g0 w0]|e] eqn:Hnew;
    [|vm_compute in Hnew; discriminate Hnew].
  destruct (Next_calls demo_ext 2 g0 w0) as [[rets [g w']]|e] eqn:Hcalls;
    [|vm_compute in Hnew; injection Hnew as <- <-; vm_compute in Hcalls; discriminate Hcalls].
  destruct (every_file_is_handed_out demo_ext demo_world None (demo_options true 0) 4
              (demo_bind_data demo_two_files true 0) g0 w0 2 rets g w')
    with (i := 1%nat) (path := "b.csv"%string) as (u & f & H).
  - reflexivity.
  - exact Hnew.
  - vm_compute in Hnew. injection Hnew as <- <-. reflexivity.
  - exact Hcalls.
  - vm_compute in Hnew. injection Hnew as <- <-. vm_compute in Hcalls.
    injection Hcalls as <- <- <-. reflexivity.
  - reflexivity.
  - exists g0, w0, rets, g, w', u, f. split; [reflexivity|]. split; [exact Hcalls|]. exact H.
Defined.

Lemma finalizing_call_stores_rejects_witness :
  exists g w g' w' rows,
    demo_with_errors 2 = Ok (g, w)
    /\ DecrementThread demo_ext 0 g w = Ok (g', w')
    /\ running_threads g' = 0
    /\ errors_table (rejects w') = errors_table (rejects w) ++ rows
    /\ length rows = 2%nat.
Proof.
  destruct (demo_with_errors 2) as [[g w]|e] eqn:Hs; [|vm_compute in Hs; discriminate Hs].
  assert (Hrt : running_threads g = 1)
    by (vm_compute in Hs; injection Hs as <- <-; reflexivity).
  assert (Hstore : store_rejects (options (bind_data g)) = true)
    by (vm_compute in Hs; injection Hs as <- <-; reflexivity).
  assert (Hlimit : rejects_limit (options (bind_data g)) = 2)
    by (vm_compute in Hs; injection Hs as <- <-; reflexivity).
  assert (Hcount : count (rejects w) = 0)
    by (vm_compute in Hs; injection Hs as <- <-; reflexivity).
  assert (Hlen : length (eligible_errors w (file_scans g)) = 4%nat)
    by (vm_compute in Hs; injection Hs as <- <-; reflexivity).
  destruct (finalizing_call_stores_rejects demo_ext 0%nat g w)
    as (g' & w' & rows & Hdec & Hzero & _ & Htab & _ & Hrows).
  - apply (demo_reachable ["a.csv"%string] true 2 4 demo_trace_errors);
      [reflexivity | exact Hs].
  - exact Hrt.
  - exact Hstore.
  - vm_compute in Hs. injection Hs as <- <-.
    apply Forall_forall. intros fe Hin.
    unfold eligible_errors, eligible, collected_errors, errors_of_file in Hin. simpl in Hin.
    repeat (apply elem_of_cons in Hin as [->|Hin]; [vm_compute; intuition discriminate|]).
    apply elem_of_nil in Hin. destruct Hin.
  - rewrite Hlimit. split; [lia | reflexivity].
  - rewrite Hcount. lia.
  - exists g, w, g', w', rows. split; [reflexivity|]. split; [exact Hdec|].
    split; [exact Hzero|]. split; [exact Htab|].
    rewrite Hlimit, Hcount, Hlen in Hrows. specialize (Hrows ltac:(lia)). lia.
Defined.

(** ** The C API for scalar functions *)

Section ScalarFunctionAPI.

Lemma configure_snoc calls c function_p :
  configure (calls ++ [c]) function_p = configure_call (configure calls function_p) c.
Proof. unfold configure. rewrite foldl_app. reflexivity. Qed.

Lemma configure_null calls : configure calls None = None.
Proof.
  induction calls as [|c calls IH] using rev_ind; [reflexivity|].
  rewrite configure_snoc, IH. destruct c; reflexivity.
Qed.

Lemma last_omap_snoc {A B : Type} (h : A -> option B) (l : list A) (a : A) :
  last (omap h (l ++ [a])) =
    match h a with
    | Some b => Some b
    | None => last (omap h l)
    end.
Proof.
  rewrite omap_app. simpl. destruct (h a) as [b|]; simpl.
  - apply last_snoc.
  - rewrite app_nil_r. reflexivity.
Qed.

(** The fields of a function after a sequence of calls, from those it had. *)
Lemma configure_fields calls f0 :
  exists f,
    configure calls (Some f0) = Some f
    /\ name f = default (name f0) (last (names_set calls))
    /\ arguments f = arguments f0 ++ parameters_added calls
    /\ return_type f = default (return_type f0) (last (return_types_set calls))
    /\ function (function_info f)
       = match last (functions_set calls) with
         | Some fn => Some fn
         | None => function (function_info f0)
         end
    /\ extra_info (function_info f)
       = match last (extra_infos_set calls) with
         | Some ed => Some (fst ed)
         | None => extra_info (function_info f0)
         end
    /\ delete_callback (function_info f)
       = match last (extra_infos_set calls) with
         | Some ed => snd ed
         | None => delete_callback (function_info f0)
         end.
Proof.
  induction calls as [|c calls IH] using rev_ind.
  - exists f0. simpl. rewrite app_nil_r. auto 10.
  - destruct IH as (f & Hf & Hname & Hargs & Hret & Hfn & Hextra & Hdel).
    rewrite configure_snoc, Hf.
    unfold names_set, parameters_added, return_types_set, functions_set, extra_infos_set
      in *.
    rewrite !last_omap_snoc. rewrite (omap_app _ calls [c]).
    destruct c as [[n|]|[t|]|[t|]|[e|] d|[fn|]]; simpl;
      rewrite ?app_nil_r; eexists; (split; [reflexivity|]); simpl;
      rewrite ?app_assoc; repeat split; congruence.
Qed.

(** X20. What a sequence of configuration calls leaves in a new function: a
    call that is passed a null argument changes nothing; the name is the last
    one set; the parameters are those added, in the order of the calls; the
    return type is the last one set; the callback is the last one set; the
    extra info and its delete callback are those of the last call that set an
    extra info. What was never set is as [duckdb_create_scalar_function] left
    it: the empty name, no parameter, the invalid type, null pointers. On the
    null handle every call does nothing. *)
Theorem configuration_last_call_wins calls :
  configure calls None = None
  /\ exists f,
       configure calls duckdb_create_scalar_function = Some f
       /\ name f = default EmptyString (last (names_set calls))
       /\ arguments f = parameters_added calls
       /\ return_type f = default LogicalType_INVALID (last (return_types_set calls))
       /\ function (function_info f) = last (functions_set calls)
       /\ extra_info (function_info f) = fst <$> last (extra_infos_set calls)
       /\ delete_callback (function_info f) = last (extra_infos_set calls) ≫= snd.
Proof.
  split; [apply configure_null|].
  unfold duckdb_create_scalar_function.
  match goal with |- context [configure calls (Some ?f0)] =>
    destruct (configure_fields calls f0)
      as (f & Hf & Hname & Hargs & Hret & Hfn & Hextra & Hdel)
  end.
  simpl in *. exists f. split; [exact Hf|]. split; [exact Hname|]. split; [exact Hargs|].
  split; [exact Hret|].
  split; [rewrite Hfn; destruct (last (functions_set calls)); reflexivity|].
  split; [rewrite Hextra | rewrite Hdel];
    destruct (last (extra_infos_set calls)); reflexivity.
Qed.

Variable Catalog : Type.
Variable CreateFunction : Catalog -> ScalarFunction -> result Catalog.

(** X21. Registering what a sequence of configuration calls left in a new
    function. With a null connection or a null function the result is
    [DuckDBError]. Otherwise the function is handed to the catalog exactly
    when the last name set is not empty, a callback was set and the last
    return type set is not the invalid type, parameters or not, and the
    result is then [DuckDBSuccess] if the catalog returns; in every other
    case the result is [DuckDBError] and the catalog is not touched. *)
Theorem registration_after_configuration calls con :
  duckdb_register_scalar_function CreateFunction None
    (configure calls duckdb_create_scalar_function) = Ok (DuckDBError, None)
  /\ duckdb_register_scalar_function CreateFunction (Some con) None
     = Ok (DuckDBError, Some con)
  /\ exists f,
       configure calls duckdb_create_scalar_function = Some f
       /\ duckdb_register_scalar_function CreateFunction (Some con) (Some f) =
            if registrable calls
            then bind (CreateFunction con f)
                   (fun catalog => Ok (DuckDBSuccess, Some catalog))
            else Ok (DuckDBError, Some con).
Proof.
  split; [reflexivity|]. split; [reflexivity|].
  unfold duckdb_create_scalar_function.
  match goal with |- context [configure calls (Some ?f0)] =>
    destruct (configure_fields calls f0)
      as (f & Hf & Hname & _ & Hret & Hfn & _)
  end.
  simpl in *. exists f. split; [exact Hf|].
  unfold duckdb_register_scalar_function, registrable. rewrite Hname, Hret, Hfn.
  destruct (last (names_set calls)) as [n|]; simpl; [|reflexivity].
  destruct (string_empty n); simpl; [reflexivity|].
  destruct (last (functions_set calls)) as [fn|]; simpl; [|reflexivity].
  destruct (last (return_types_set calls)) as [t|]; simpl; [|reflexivity].
  destruct (is_INVALID (LogicalType_id t)); reflexivity.
Qed.

End ScalarFunctionAPI.
